(** * Media organisation scripts: classification, quality arbitration,
      duplicate resolution and the plan/execute action engine.

    Shallow embedding of
      - media_organization/downloads_import.py
      - media_organization/movie_cleanup.py
      - media_organization/movie_cleanup_2.py
      - media_organization/movie_analyzer.py

    Conventions of the embedding.
    - Python [str] values are [list ascii]; every character function below has
      its ASCII meaning, so the development speaks about ASCII names.  A
      string literal is read as a [list ascii] through a coercion.
    - The regular expressions of the sources are written in a small regex
      syntax ([Regex.re]) and run by a backtracking matcher that follows the
      priorities of Python's [re] (leftmost start, first alternative first,
      greedy/lazy repetition, capture groups).
    - The file system is a finite map from paths (component lists) to nodes;
      functions that touch it take the store and return the new store.
      Path strings are read the POSIX way ([/] separates components, every
      path is taken from the root), and a primitive fails only for the
      reasons the model knows: a missing path, a node of the wrong kind, a
      directory that is not empty.  There are no symbolic links, and a
      component [..] is a name like any other: the store does not resolve
      it, so what is said about a path string is said about one without
      [..] components.  A path string is read as [pathlib] reads it,
      without its trailing separators and [.] components; what the
      operating system makes of a regular file written as a directory is
      modelled where [movie_cleanup_2.py] hands the raw string to
      [shutil.move] and, in [execute_all], to [os.remove].
    - Integers are [Z]; the one floating-point expression that decides
      something, [existing_size * 1.1], is modelled with its rounding.
    - Console output ([log], [print]) is not modelled. *)

From stdpp Require Import gmap strings list fin_maps sorting.
From Stdlib Require Import Ascii ZArith Lia.

Open Scope string_scope.
Open Scope list_scope.

Coercion String.list_ascii_of_string : string >-> list.

(* ===================================================================== *)
(** ** Python text primitives on ASCII *)
(* ===================================================================== *)

Module Text.

Definition code (c : ascii) : N := N_of_ascii c.

Definition in_range (lo hi : N) (c : ascii) : bool :=
  (lo <=? code c)%N && (code c <=? hi)%N.

Definition is_upper (c : ascii) : bool := in_range 65 90 c.
Definition is_lower (c : ascii) : bool := in_range 97 122 c.
Definition is_digit (c : ascii) : bool := in_range 48 57 c.
Definition is_alpha (c : ascii) : bool := is_upper c || is_lower c.

(** [\w] : letters, digits and the underscore. *)
Definition is_word (c : ascii) : bool :=
  is_alpha c || is_digit c || (code c =? 95)%N.

(** [\s] and [str.isspace]: TAB LF VT FF CR, FS GS RS US, SPACE. *)
Definition is_space (c : ascii) : bool := in_range 9 13 c || in_range 28 32 c.

Definition to_lower (c : ascii) : ascii :=
  if is_upper c then ascii_of_N (code c + 32) else c.

Definition to_upper (c : ascii) : ascii :=
  if is_lower c then ascii_of_N (code c - 32) else c.

Definition eqc (a b : ascii) : bool := (code a =? code b)%N.

(** [s.lower()], [s.upper()], [s.capitalize()]. *)
Definition lower (s : list ascii) : list ascii := map to_lower s.
Definition upper (s : list ascii) : list ascii := map to_upper s.
Definition capitalize (s : list ascii) : list ascii :=
  match s with
  | [] => []
  | c :: r => to_upper c :: lower r
  end.

(** [s.split()] : split on runs of whitespace, no empty pieces.  [cur] is
    the current piece, reversed. *)
Fixpoint split_go (cur s : list ascii) : list (list ascii) :=
  match s with
  | [] => match cur with [] => [] | _ => [rev cur] end
  | c :: r =>
      if is_space c
      then match cur with
           | [] => split_go [] r
           | _ => rev cur :: split_go [] r
           end
      else split_go (c :: cur) r
  end.

Definition split (s : list ascii) : list (list ascii) := split_go [] s.

(** [s.split(sep)] for a one-character separator: empty pieces are kept. *)
Fixpoint split_on_go (sep : ascii) (cur s : list ascii) : list (list ascii) :=
  match s with
  | [] => [rev cur]
  | c :: r =>
      if eqc c sep then rev cur :: split_on_go sep [] r
      else split_on_go sep (c :: cur) r
  end.

Definition split_on (sep : ascii) (s : list ascii) : list (list ascii) :=
  split_on_go sep [] s.

(** [sep.join(parts)]. *)
Fixpoint join (sep : list ascii) (parts : list (list ascii)) : list ascii :=
  match parts with
  | [] => []
  | [p] => p
  | p :: rest => p ++ sep ++ join sep rest
  end.

(** [s.replace(a, b)] for single characters. *)
Definition replace_char (a b : ascii) (s : list ascii) : list ascii :=
  map (fun c => if eqc c a then b else c) s.

Fixpoint lstrip (s : list ascii) : list ascii :=
  match s with
  | c :: r => if is_space c then lstrip r else s
  | [] => []
  end.

(** [s.strip()]. *)
Definition strip (s : list ascii) : list ascii := rev (lstrip (rev (lstrip s))).

(** [c in s]. *)
Definition has_char (c : ascii) (s : list ascii) : bool := existsb (eqc c) s.

Fixpoint eqs (a b : list ascii) : bool :=
  match a, b with
  | [], [] => true
  | x :: a', y :: b' => eqc x y && eqs a' b'
  | _, _ => false
  end.

Fixpoint starts_with (p s : list ascii) : bool :=
  match p, s with
  | [], _ => true
  | x :: p', y :: s' => eqc x y && starts_with p' s'
  | _ :: _, [] => false
  end.

(** [sub in s] for strings. *)
Fixpoint contains (p s : list ascii) : bool :=
  starts_with p s || match s with [] => false | _ :: s' => contains p s' end.

Definition ends_with (p s : list ascii) : bool := starts_with (rev p) (rev s).

(** Lexicographic order on code points, the order of [sorted] on [str]. *)
Fixpoint leb (a b : list ascii) : bool :=
  match a, b with
  | [], _ => true
  | _ :: _, [] => false
  | x :: a', y :: b' =>
      if (code x <? code y)%N then true
      else if (code y <? code x)%N then false
      else leb a' b'
  end.

(** [int(s)] on a string of decimal digits. *)
Definition digit_val (c : ascii) : Z := Z.of_N (code c) - 48.
Definition int_of (s : list ascii) : Z :=
  fold_left (fun acc c => 10 * acc + digit_val c)%Z s 0%Z.

End Text.

(* ===================================================================== *)
(** ** Regular expressions with the matching priorities of Python's [re] *)
(* ===================================================================== *)

Module Regex.
Import Text.

Definition cls := ascii -> bool.

(** Every repetition in the sources is over a single character or class,
    so [Rep] repeats a class: [Rep greedy p lo hi] is [p{lo,hi}] (or
    [p{lo,hi}?] when not greedy), [hi = None] meaning unbounded. *)
Inductive re : Type :=
| Eps
| Chr (p : cls)
| Seq (r1 r2 : re)
| Alt (r1 r2 : re)
| Rep (greedy : bool) (p : cls) (lo : nat) (hi : option nat)
| Grp (i : nat) (r : re)
| Bol                     (* ^ *)
| Eol                     (* $ : at the end, or before a final newline *)
| Wordb                   (* \b *)
| Ahead (p : cls).        (* (?=[...]) on one character *)

(** Matcher state: the consumed input (reversed), the remaining input and
    the capture groups recorded so far (latest first). *)
Record mstate : Type := MState {
  before : list ascii;
  after : list ascii;
  groups : list (nat * list ascii)
}.

Definition can_more (hi : option nat) : bool :=
  match hi with Some O => false | _ => true end.

Definition dec_hi (hi : option nat) : option nat :=
  match hi with Some n => Some (pred n) | None => None end.

Section Matcher.
Context {A : Type}.

Fixpoint rep (g : bool) (p : cls) (lo : nat) (hi : option nat)
    (b a : list ascii) (k : list ascii -> list ascii -> option A)
    {struct a} : option A :=
  let more (_ : unit) :=
    match a with
    | c :: a' =>
        if p c && can_more hi
        then rep g p (pred lo) (dec_hi hi) (c :: b) a' k
        else None
    | [] => None
    end in
  let stop (_ : unit) := match lo with O => k b a | S _ => None end in
  if g
  then match more tt with Some x => Some x | None => stop tt end
  else match stop tt with Some x => Some x | None => more tt end.

Definition at_wordb (b a : list ascii) : bool :=
  let l := match b with c :: _ => is_word c | [] => false end in
  let r := match a with c :: _ => is_word c | [] => false end in
  xorb l r.

Definition at_eol (a : list ascii) : bool :=
  match a with
  | [] => true
  | [c] => eqc c "010"
  | _ => false
  end.

(** The text consumed between an earlier state and a later one. *)
Definition consumed (st st1 : mstate) : list ascii :=
  rev (take (length (before st1) - length (before st)) (before st1)).

Fixpoint m (r : re) (st : mstate) (k : mstate -> option A) : option A :=
  match r with
  | Eps => k st
  | Chr p =>
      match after st with
      | c :: a' => if p c then k (MState (c :: before st) a' (groups st)) else None
      | [] => None
      end
  | Seq r1 r2 => m r1 st (fun st1 => m r2 st1 k)
  | Alt r1 r2 =>
      match m r1 st k with
      | Some x => Some x
      | None => m r2 st k
      end
  | Rep g p lo hi =>
      rep g p lo hi (before st) (after st)
        (fun b a => k (MState b a (groups st)))
  | Grp i r1 =>
      m r1 st (fun st1 =>
        k (MState (before st1) (after st1) ((i, consumed st st1) :: groups st1)))
  | Bol => match before st with [] => k st | _ => None end
  | Eol => if at_eol (after st) then k st else None
  | Wordb => if at_wordb (before st) (after st) then k st else None
  | Ahead p =>
      match after st with
      | c :: _ => if p c then k st else None
      | [] => None
      end
  end.

(** Try each start position from left to right. *)
Fixpoint scan (r : re) (b a : list ascii) (k : mstate -> option A)
    {struct a} : option A :=
  match m r (MState b a []) k with
  | Some x => Some x
  | None =>
      match a with
      | c :: a' => scan r (c :: b) a' k
      | [] => None
      end
  end.

End Matcher.

(** [re.match(r, s)] and [re.search(r, s)]: the final state of the first
    match in priority order, if any. *)
Definition rmatch (r : re) (s : list ascii) : option mstate :=
  m r (MState [] s []) Some.

Definition search (r : re) (s : list ascii) : option mstate :=
  scan r [] s Some.

(** [match.group(i)] for a group that took part in the match. *)
Fixpoint group (i : nat) (gs : list (nat * list ascii)) : option (list ascii) :=
  match gs with
  | [] => None
  | (j, w) :: rest => if Nat.eqb i j then Some w else group i rest
  end.

(** [re.sub(r, repl, s)] for a constant replacement.  [skip] counts the
    characters of the current match still to be dropped. *)
Fixpoint sub_go (r : re) (repl : list ascii) (skip : nat) (b a : list ascii)
    {struct a} : list ascii :=
  match skip with
  | S n =>
      match a with
      | c :: a' => sub_go r repl n (c :: b) a'
      | [] => []
      end
  | O =>
      match m r (MState b a []) Some with
      | Some st1 =>
          match length (before st1) - length b, a with
          | _, [] => repl
          | O, c :: a' => repl ++ c :: sub_go r repl O (c :: b) a'
          | S n, c :: a' => repl ++ sub_go r repl n (c :: b) a'
          end
      | None =>
          match a with
          | c :: a' => c :: sub_go r repl O (c :: b) a'
          | [] => []
          end
      end
  end.

Definition sub (r : re) (repl s : list ascii) : list ascii :=
  sub_go r repl O [] s.

(** *** Building blocks for writing the patterns of the sources *)

Definition any : cls := fun c => negb (eqc c "010").       (* . *)
Definition ch (x : ascii) : cls := fun c => eqc c x.
Definition chi (x : ascii) : cls := fun c => eqc (to_lower c) (to_lower x).
Definition oneof (l : list ascii) : cls := fun c => existsb (eqc c) l.
Definition oneofi (l : list ascii) : cls :=
  fun c => existsb (fun x => eqc (to_lower c) (to_lower x)) l.
Definition either (p q : cls) : cls := fun c => p c || q c.
Definition notc (p : cls) : cls := fun c => negb (p c).

Fixpoint lit (s : list ascii) : re :=
  match s with
  | [] => Eps
  | [c] => Chr (ch c)
  | c :: s' => Seq (Chr (ch c)) (lit s')
  end.

Fixpoint liti (s : list ascii) : re :=
  match s with
  | [] => Eps
  | [c] => Chr (chi c)
  | c :: s' => Seq (Chr (chi c)) (liti s')
  end.

Fixpoint seqs (l : list re) : re :=
  match l with
  | [] => Eps
  | [r] => r
  | r :: l' => Seq r (seqs l')
  end.

Fixpoint alts (l : list re) : re :=
  match l with
  | [] => Eps
  | [r] => r
  | r :: l' => Alt r (alts l')
  end.

Definition star (p : cls) : re := Rep true p 0 None.
Definition plus (p : cls) : re := Rep true p 1 None.
Definition plus_lazy (p : cls) : re := Rep false p 1 None.
Definition opt (p : cls) : re := Rep true p 0 (Some 1).
Definition upto (p : cls) (lo hi : nat) : re := Rep true p lo (Some hi).
Definition exactly (p : cls) (n : nat) : re := Rep true p n (Some n).

End Regex.

(* ===================================================================== *)
(** ** Python values found in an action log, and the file system *)
(* ===================================================================== *)

Module Py.

(** The JSON values that [json.load] can produce for a field. *)
#[local] Set Warnings "-register-all".
Inductive pyval : Type :=
| PNone
| PBool (b : bool)
| PInt (z : Z)
| PStr (s : list ascii)
| PList (l : list pyval)
| PDict (l : list (list ascii * pyval)).

(** Truth value, as tested by [not x] and [x or y]. *)
Definition truthy (v : pyval) : bool :=
  match v with
  | PNone => false
  | PBool b => b
  | PInt z => negb (z =? 0)%Z
  | PStr s => match s with [] => false | _ => true end
  | PList l => match l with [] => false | _ => true end
  | PDict l => match l with [] => false | _ => true end
  end.

(** [type(v).__name__] *)
Definition type_name (v : pyval) : list ascii :=
  match v with
  | PNone => "NoneType"
  | PBool _ => "bool"
  | PInt _ => "int"
  | PStr _ => "str"
  | PList _ => "list"
  | PDict _ => "dict"
  end.

(** [d.get(k)] : a missing key reads as [None]. *)
Definition get (d : gmap (list ascii) pyval) (k : list ascii) : pyval :=
  match d !! k with Some v => v | None => PNone end.

(** [a or b] *)
Definition por (a b : pyval) : pyval := if truthy a then a else b.

(** [v == 'literal'] *)
Definition is_str (v : pyval) (s : list ascii) : bool :=
  match v with PStr t => Text.eqs t s | _ => false end.

End Py.

Module FS.
Import Text.

(** A node is a regular file with its size in bytes, or a directory. *)
Inductive node : Type := File (size : Z) | Dir.

#[global] Instance node_eq_dec : EqDecision node.
Proof. solve_decision. Defined.

(** A path is the list of its components below the root; [[]] is the root,
    which always exists and is a directory.  A store maps the other
    existing paths to their nodes. *)
Abbreviation path := (list (list ascii)).
Abbreviation store := (gmap (list (list ascii)) node).

(** [Path(s)] : components separated by [/]; empty and [.] components are
    dropped. *)
Definition parse_path (s : list ascii) : path :=
  List.filter (fun c => negb (eqs c [] || eqs c ".")) (split_on "/" s).

(** [str(p)] *)
Definition path_str (p : path) : list ascii :=
  match p with
  | [] => "/"
  | _ => concat (map (fun c : list ascii => "/"%char :: c) p)
  end.

(** [p.parent] and [p.name]; the parent of the root is the root. *)
Definition parent (p : path) : path := removelast p.
Definition name (p : path) : list ascii := List.last p [].

Definition node_at (fs : store) (p : path) : option node :=
  match p with
  | [] => Some Dir
  | _ => fs !! p
  end.

Definition exists_ (fs : store) (p : path) : bool :=
  match node_at fs p with Some _ => true | None => false end.
Definition is_file (fs : store) (p : path) : bool :=
  match node_at fs p with Some (File _) => true | _ => false end.
Definition is_dir (fs : store) (p : path) : bool :=
  match node_at fs p with Some Dir => true | _ => false end.

(** [q] is an entry of directory [p]. *)
Definition child_of (p q : path) : bool :=
  match q with
  | [] => false
  | _ => bool_decide (parent q = p)
  end.

(** [p.iterdir()], in the order in which the store enumerates them (the
    order of a directory listing is not specified). *)
Definition iterdir (fs : store) (p : path) : list path :=
  List.filter (child_of p) (map fst (map_to_list fs)).

(** Order of [Path] objects: component by component. *)
Fixpoint path_leb (p q : path) : bool :=
  match p, q with
  | [], _ => true
  | _ :: _, [] => false
  | x :: p', y :: q' =>
      if eqs x y then path_leb p' q' else leb x y
  end.

(** Stable insertion sort: [insert_by le x l] puts [x] before the first
    element it is [le] to. *)
Fixpoint insert_by {A} (le : A -> A -> bool) (x : A) (l : list A) : list A :=
  match l with
  | [] => [x]
  | y :: l' => if le x y then x :: l else y :: insert_by le x l'
  end.

Definition sort_by {A} (le : A -> A -> bool) (l : list A) : list A :=
  foldr (insert_by le) [] l.

(** [os.remove(p)] / [p.unlink()] : only a regular file can be removed. *)
Definition unlink (fs : store) (p : path) : option store :=
  if is_file fs p then Some (delete p fs) else None.

(** [p.rmdir()] : fails on the root, on a non-directory and on a directory
    that still has entries. *)
Definition rmdir (fs : store) (p : path) : option store :=
  match p with
  | [] => None
  | _ => if is_dir fs p && bool_decide (iterdir fs p = [])
         then Some (delete p fs) else None
  end.

(** [shutil.rmtree(p)] : the directory and everything below it. *)
Definition rmtree (fs : store) (p : path) : option store :=
  match p with
  | [] => None
  | _ => if is_dir fs p
         then Some (filter (fun kv => ¬ (p `prefix_of` kv.1)) fs)
         else None
  end.

(** Sum of [st_size] over the regular files below [p]
    ([p.rglob('*')] filtered by [is_file]). *)
Definition tree_size (fs : store) (p : path) : Z :=
  foldr (fun kv acc =>
           match kv.2 with
           | File n => if bool_decide (p `prefix_of` kv.1) then (n + acc)%Z else acc
           | Dir => acc
           end) 0%Z (map_to_list fs).

(** [os.path.getsize(p)]: [dir_size] is what the platform reports for a
    directory. *)
Definition getsize (dir_size : Z) (fs : store) (p : path) : option Z :=
  match node_at fs p with
  | Some (File n) => Some n
  | Some Dir => Some dir_size
  | None => None
  end.

(** [os.rename(old, new)] as the sources use it, on a target that does not
    exist: the node and everything below it move. *)
Definition rekey (old new q : path) : path :=
  if bool_decide (old `prefix_of` q) then new ++ drop (length old) q else q.

Definition rename (fs : store) (old new : path) : option store :=
  match old, new with
  | [], _ | _, [] => None
  | _, _ =>
      if exists_ fs old && negb (exists_ fs new) && is_dir fs (parent new)
         && negb (bool_decide (old `prefix_of` new))
      then Some (kmap (rekey old new) fs)
      else None
  end.

(** [os.makedirs(p, exist_ok=True)] *)
Fixpoint makedirs_go (fs : store) (done todo : path) : option store :=
  match todo with
  | [] => Some fs
  | c :: todo' =>
      let d := done ++ [c] in
      match fs !! d with
      | Some (File _) => None
      | Some Dir => makedirs_go fs d todo'
      | None => makedirs_go (<[d := Dir]> fs) d todo'
      end
  end.

Definition makedirs (fs : store) (p : path) : option store :=
  makedirs_go fs [] p.

(** [shutil.copy2(src, dst)] with [dst] a file path. *)
Definition copy2 (fs : store) (src dst : path) : option store :=
  match node_at fs src, dst with
  | Some (File n), _ :: _ =>
      if is_dir fs (parent dst) && negb (is_dir fs dst)
      then Some (<[dst := File n]> fs) else None
  | _, _ => None
  end.

(** The regular files of the store. *)
Definition is_file_node (n : node) : bool :=
  match n with File _ => true | Dir => false end.

Definition files (fs : store) : store :=
  filter (fun kv => is_file_node kv.2 = true) fs.

End FS.

(* ===================================================================== *)
(** ** downloads_import.py : filename classification and quality scoring *)
(* ===================================================================== *)

Module DownloadsImport.
Import Text Regex.

Definition sep_class : cls := either (ch ".") is_space.        (* [.\s] *)

(** [(.+?)[.\s]+S(\d{1,2})E\d{1,2}], IGNORECASE *)
Definition re_extract_sxe : re :=
  seqs [Grp 1 (plus_lazy any); plus sep_class; Chr (chi "S");
        Grp 2 (upto is_digit 1 2); Chr (chi "E"); upto is_digit 1 2].

(** [(.+?)[.\s]+(\d{1,2})x\d{1,2}], IGNORECASE *)
Definition re_extract_nxn : re :=
  seqs [Grp 1 (plus_lazy any); plus sep_class;
        Grp 2 (upto is_digit 1 2); Chr (chi "x"); upto is_digit 1 2].

(** The show name and season of one successful match. *)
Definition tv_info_of (st : mstate) : option (list ascii * Z) :=
  match group 1 (groups st), group 2 (groups st) with
  | Some g1, Some g2 => Some (strip (replace_char "." " " g1), int_of g2)
  | _, _ => None
  end.

(** [extract_tv_show_info]: [None] stands for the pair [(None, None)]. *)
Definition extract_tv_show_info (filename : list ascii) : option (list ascii * Z) :=
  match search re_extract_sxe filename with
  | Some st => tv_info_of st
  | None =>
      match search re_extract_nxn filename with
      | Some st => tv_info_of st
      | None => None
      end
  end.

(** [S\d{1,2}E\d{1,2}] and [\d{1,2}x\d{1,2}], IGNORECASE *)
Definition re_is_sxe : re :=
  seqs [Chr (chi "S"); upto is_digit 1 2; Chr (chi "E"); upto is_digit 1 2].
Definition re_is_nxn : re :=
  seqs [upto is_digit 1 2; Chr (chi "x"); upto is_digit 1 2].

Definition found (r : re) (s : list ascii) : bool :=
  match search r s with Some _ => true | None => false end.

Definition is_tv_show (filename : list ascii) : bool :=
  if found re_is_sxe filename then true
  else if found re_is_nxn filename then true
  else false.

Definition music_patterns : list (list ascii) :=
  ["album" : list ascii; "soundtrack" : list ascii; "ost" : list ascii;
   "music" : list ascii].

Definition is_music (filename : list ascii) : bool :=
  existsb (fun pat => contains pat (lower filename)) music_patterns.

(** [(.+?)[.\s]+((?:19|20)\d{2})] *)
Definition re_movie_year : re :=
  seqs [Grp 1 (plus_lazy any); plus sep_class;
        Grp 2 (Seq (Alt (lit "19") (lit "20")) (exactly is_digit 2))].

(** [\.(mkv|mp4|avi)$], IGNORECASE *)
Definition re_video_ext : re :=
  seqs [Chr (ch "."); Grp 1 (alts [liti "mkv"; liti "mp4"; liti "avi"]); Eol].

(** [[\.\-_]+] *)
Definition re_separators : re := plus (oneof ".-_").

(** [\b(1080p|720p|2160p|BluRay|WEB-DL|x265|x264|RARBG|HEVC|H\.264|H\.265)\b.*$],
    IGNORECASE *)
Definition re_release_tags : re :=
  seqs [Wordb;
        Grp 1 (alts [liti "1080p"; liti "720p"; liti "2160p"; liti "BluRay";
                     liti "WEB-DL"; liti "x265"; liti "x264"; liti "RARBG";
                     liti "HEVC"; liti "H.264"; liti "H.265"]);
        Wordb; star any; Eol].

Definition extract_movie_info (filename : list ascii) : list ascii :=
  match search re_movie_year filename with
  | Some st =>
      match group 1 (groups st), group 2 (groups st) with
      | Some g1, Some year =>
          strip (replace_char "." " " g1) ++ " (" ++ year ++ ")"
      | _, _ => []
      end
  | None =>
      let movie_name := sub re_video_ext [] filename in
      let movie_name := sub re_separators " " movie_name in
      let movie_name := sub re_release_tags [] movie_name in
      strip movie_name
  end.

(** The [info] dictionary of [extract_quality_info]. *)
Record quality_info : Type := QualityInfo {
  resolution : Z;
  codec : list ascii;
  is_hdr : bool;
  audio : list ascii
}.

Definition word (r : re) : re := seqs [Wordb; r; Wordb].

Definition re_2160p := word (liti "2160p").
Definition re_1080p := word (liti "1080p").
Definition re_720p := word (liti "720p").
Definition re_480p := word (liti "480p").
(** [\b(x265|HEVC|H\.?265|AV1)\b] *)
Definition re_hevc :=
  word (alts [liti "x265"; liti "HEVC";
              seqs [Chr (chi "H"); opt (ch "."); liti "265"]; liti "AV1"]).
(** [\b(x264|H\.?264|AVC)\b] *)
Definition re_avc :=
  word (alts [liti "x264"; seqs [Chr (chi "H"); opt (ch "."); liti "264"];
              liti "AVC"]).
(** [\b(HDR|HDR10|DoVi|Dolby[\s\.]?Vision)\b] *)
Definition re_hdr :=
  word (alts [liti "HDR"; liti "HDR10"; liti "DoVi";
              seqs [liti "Dolby"; opt (either is_space (ch ".")); liti "Vision"]]).
Definition re_bluray := word (liti "BluRay").
(** [\b(WEB-DL|WEBDL|WEBRip)\b] *)
Definition re_web := word (alts [liti "WEB-DL"; liti "WEBDL"; liti "WEBRip"]).
Definition re_hdtv := word (liti "HDTV").
(** [\b(Atmos|TrueHD|DTS-HD|DTS-X)\b] *)
Definition re_audio_hq :=
  word (alts [liti "Atmos"; liti "TrueHD"; liti "DTS-HD"; liti "DTS-X"]).
(** [\b(DDP|DD[\+\.]?5\.1|AC3)\b] *)
Definition re_audio_std :=
  word (alts [liti "DDP";
              seqs [liti "DD"; opt (oneof "+."); liti "5.1"]; liti "AC3"]).

Local Open Scope Z_scope.

Definition resolution_of (filename : list ascii) : Z * Z :=
  if found re_2160p filename then (2160, 4000)
  else if found re_1080p filename then (1080, 2000)
  else if found re_720p filename then (720, 1000)
  else if found re_480p filename then (480, 500)
  else (0, 0).

Definition codec_of (filename : list ascii) : list ascii * Z :=
  if found re_hevc filename then ("x265/HEVC/AV1" : list ascii, 300)
  else if found re_avc filename then ("x264/H.264" : list ascii, 200)
  else ([], 0).

Definition hdr_of (filename : list ascii) : bool * Z :=
  if found re_hdr filename then (true, 500) else (false, 0).

Definition source_of (filename : list ascii) : Z :=
  if found re_bluray filename then 400
  else if found re_web filename then 300
  else if found re_hdtv filename then 200
  else 0.

Definition audio_of (filename : list ascii) : list ascii * Z :=
  if found re_audio_hq filename then ("High-quality audio" : list ascii, 100)
  else if found re_audio_std filename then ("Standard audio" : list ascii, 50)
  else ([], 0).

Definition extract_quality_info (filename : list ascii) : Z * quality_info :=
  let '(res, s1) := resolution_of filename in
  let '(cod, s2) := codec_of filename in
  let '(hdr, s3) := hdr_of filename in
  let s4 := source_of filename in
  let '(aud, s5) := audio_of filename in
  (0 + s1 + s2 + s3 + s4 + s5, QualityInfo res cod hdr aud).

Import FS.

(** *** The size test [new_size > existing_size * 1.1]

    [existing_size * 1.1] converts the integer to a double and multiplies
    it by the double nearest to 1.1, which is [m11 / 2^51]; each step
    rounds to 53 significant bits, ties to even.  Python then compares the
    integer with the double exactly.  Sizes are far below the overflow
    threshold, so only the rounding is modelled. *)

Definition m11 : Z := 2476979795053773.

(** Round the natural number [n] to 53 significant bits: the result
    [(q, e)] stands for [q * 2^e]. *)
Definition round53 (n : Z) : Z * Z :=
  let bits := Z.log2 n + 1 in
  if bits <=? 53 then (n, 0)
  else
    let e := bits - 53 in
    let q := Z.shiftr n e in
    let r := n - Z.shiftl q e in
    let half := Z.shiftl 1 (e - 1) in
    if (half <? r) || ((r =? half) && Z.odd q) then (q + 1, e) else (q, e).

Definition size_exceeds (new_size existing_size : Z) : bool :=
  let '(q1, e1) := round53 existing_size in       (* float(existing_size) *)
  let '(q2, e2) := round53 (q1 * m11) in          (* ... * 1.1 *)
  (* the product is q2 * 2^(e1 + e2 - 51) *)
  Z.shiftl q2 (e1 + e2) <? Z.shiftl new_size 51.

(** [os.path.join(a, b)] for a relative [b]. *)
Definition path_join (a b : list ascii) : list ascii :=
  match a with
  | [] => b
  | _ => if ends_with "/" a then a ++ b else a ++ "/"%char :: b
  end.

Section WithPlatform.

(** What [os.path.getsize] reports for a directory. *)
Variable dir_size : Z.

(** [compare_quality]: the five components of the returned tuple.  The
    [try] block gives up on the tie-break (bare [except: pass]) when either
    [getsize] raises. *)
Definition compare_quality (fs : store) (new_file existing_file : list ascii)
    : bool * Z * Z * quality_info * quality_info :=
  let '(new_score, new_info) := extract_quality_info new_file in
  let '(existing_score, existing_info) := extract_quality_info existing_file in
  let new_score :=
    match getsize dir_size fs (parse_path new_file) with
    | None => new_score
    | Some new_size =>
        match getsize dir_size fs (parse_path existing_file) with
        | None => new_score
        | Some existing_size =>
            if new_score =? existing_score then
              if size_exceeds new_size existing_size
              then new_score + 50
              else new_score
            else new_score
        end
    end in
  (existing_score <? new_score, new_score, existing_score, new_info,
   existing_info).

(** [check_file_exists_in_tree]: [os.walk] visits a directory before its
    subdirectories; sibling directories are taken in name order here (the
    platform does not fix their order).  The result is the joined path
    string and the path itself. *)
Definition walk_hits (fs : store) (root : path) (filename : list ascii)
    : list path :=
  sort_by (fun a b => path_leb (parent a) (parent b))
    (List.filter
       (fun q => bool_decide (root `prefix_of` q) && negb (bool_decide (q = root))
                 && is_file fs q && eqs (name q) filename)
       (map fst (map_to_list fs))).

Definition check_file_exists_in_tree (fs : store) (root_folder filename : list ascii)
    : option (list ascii) :=
  let root := parse_path root_folder in
  match walk_hits fs root filename with
  | [] => None
  | q :: _ => Some (foldl path_join root_folder (drop (length root) q))
  end.

(** The part of [copy_movie], [copy_tv_show] and [copy_music] that handles
    a file name already present under the destination root. *)
Definition replace_existing (fs : store) (source_path existing_path : list ascii)
    (dry_run replace_better : bool) : list ascii * store :=
  if replace_better then
    let '(is_better, _, _, _, _) := compare_quality fs source_path existing_path in
    if is_better then
      if dry_run then ("would_replace" : list ascii, fs)
      else
        match unlink fs (parse_path existing_path) with
        | None => ("error" : list ascii, fs)
        | Some fs1 =>
            match copy2 fs1 (parse_path source_path) (parse_path existing_path) with
            | None => ("error" : list ascii, fs1)
            | Some fs2 => ("replaced" : list ascii, fs2)
            end
        end
    else ("skipped" : list ascii, fs)
  else ("skipped" : list ascii, fs).

(** The common tail: create the destination folder and copy. *)
Definition copy_into (fs : store) (source_path dest_folder filename : list ascii)
    (dry_run : bool) : list ascii * store :=
  let dest_path := path_join dest_folder filename in
  if dry_run then ("would_copy" : list ascii, fs)
  else
    match makedirs fs (parse_path dest_folder) with
    | None => ("error" : list ascii, fs)
    | Some fs1 =>
        match copy2 fs1 (parse_path source_path) (parse_path dest_path) with
        | None => ("error" : list ascii, fs1)
        | Some fs2 => ("copied" : list ascii, fs2)
        end
    end.

Definition copy_movie (fs : store) (source_path filename base_folder : list ascii)
    (dry_run replace_better : bool) : list ascii * store :=
  match check_file_exists_in_tree fs base_folder filename with
  | Some existing_path =>
      replace_existing fs source_path existing_path dry_run replace_better
  | None =>
      let folder_name := extract_movie_info filename in
      let dest_folder := path_join base_folder folder_name in
      copy_into fs source_path dest_folder filename dry_run
  end.

Definition nat_str_digit (n : nat) : ascii := ascii_of_nat (48 + n).

(** [copy_tv_show]; the season number is at most two digits. *)
Definition season_str (n : Z) : list ascii :=
  let k := Z.to_nat n in
  if (k <? 10)%nat then [nat_str_digit k]
  else [nat_str_digit (k / 10); nat_str_digit (k mod 10)].

Definition copy_tv_show (fs : store) (source_path filename base_folder : list ascii)
    (dry_run replace_better : bool) : list ascii * store :=
  match extract_tv_show_info filename with
  | None => ("error" : list ascii, fs)
  | Some (show_name, season_num) =>
      match show_name with
      | [] => ("error" : list ascii, fs)
      | _ =>
          match check_file_exists_in_tree fs base_folder filename with
          | Some existing_path =>
              replace_existing fs source_path existing_path dry_run replace_better
          | None =>
              let dest_folder :=
                path_join (path_join base_folder show_name)
                          (("Season " : list ascii) ++ season_str season_num) in
              copy_into fs source_path dest_folder filename dry_run
          end
      end
  end.

(** [copy_music]: the file goes straight into the music folder. *)
Definition copy_music (fs : store) (source_path filename base_folder : list ascii)
    (dry_run replace_better : bool) : list ascii * store :=
  match check_file_exists_in_tree fs base_folder filename with
  | Some existing_path =>
      replace_existing fs source_path existing_path dry_run replace_better
  | None => copy_into fs source_path base_folder filename dry_run
  end.

End WithPlatform.

(** *** [main] *)

(** The [stats] dictionary. *)
Record stats : Type := Stats {
  total : nat;
  movies : nat;
  tvshows : nat;
  music : nat;
  copied : nat;
  replaced : nat;
  would_copy : nat;
  would_replace : nat;
  skipped : nat;
  errors : nat
}.

(** [os.path.basename(p)] *)
Definition basename (p : list ascii) : list ascii :=
  List.last (split_on "/" p) [].

(** The chain [if result == "copied": ... elif ...] at the end of the loop
    body. *)
Definition count_result (result : list ascii) (s : stats) : stats :=
  let '(Stats t m tv mu c r wc wr sk e) := s in
  if eqs result "copied" then Stats t m tv mu (S c) r wc wr sk e
  else if eqs result "replaced" then Stats t m tv mu c (S r) wc wr sk e
  else if eqs result "would_copy" then Stats t m tv mu c r (S wc) wr sk e
  else if eqs result "would_replace" then Stats t m tv mu c r wc (S wr) sk e
  else if eqs result "skipped" then Stats t m tv mu c r wc wr (S sk) e
  else if eqs result "error" then Stats t m tv mu c r wc wr sk (S e)
  else s.

(** [files = [line.strip() for line in f if line.strip().endswith('.mkv')]] *)
Definition read_list (lines : list (list ascii)) : list (list ascii) :=
  map strip (List.filter (fun line => ends_with ".mkv" (strip line)) lines).

Section Main.

(** What [os.path.getsize] reports for a directory, and the configuration
    constants at the head of the script. *)
Variable dir_size : Z.
Variables MOVIES_PATH TVSHOWS_PATH MUSIC_PATH : list ascii.
Variables DRY_RUN REPLACE_WITH_BETTER_QUALITY : bool.

(** The category of a file name, in the order of the tests of the loop. *)
Inductive category : Type := TVShow | Music | Movie.

Definition categorize (filename : list ascii) : category :=
  if is_tv_show filename then TVShow
  else if is_music filename then Music
  else Movie.

(** The body of the loop [for file_path in files]. *)
Definition process_file (st : stats * store) (file_path : list ascii)
    : stats * store :=
  match file_path with
  | [] => st
  | _ =>
      let '(Stats t m tv mu c r wc wr sk e, fs) := st in
      let filename := basename file_path in
      let t := S t in
      match categorize filename with
      | TVShow =>
          let '(result, fs') :=
            copy_tv_show dir_size fs file_path filename TVSHOWS_PATH
                         DRY_RUN REPLACE_WITH_BETTER_QUALITY in
          (count_result result (Stats t m (S tv) mu c r wc wr sk e), fs')
      | Music =>
          let '(result, fs') :=
            copy_music dir_size fs file_path filename MUSIC_PATH
                       DRY_RUN REPLACE_WITH_BETTER_QUALITY in
          (count_result result (Stats t m tv (S mu) c r wc wr sk e), fs')
      | Movie =>
          let '(result, fs') :=
            copy_movie dir_size fs file_path filename MOVIES_PATH
                       DRY_RUN REPLACE_WITH_BETTER_QUALITY in
          (count_result result (Stats t (S m) tv mu c r wc wr sk e), fs')
      end
  end.

(** [main]; [input] is the content of the list file, line by line, [None]
    when the file does not exist.  The result is the final [stats], [None]
    when [main] returns before counting. *)
Definition main (input : option (list (list ascii))) (fs : store)
    : option stats * store :=
  match input with
  | None => (None, fs)
  | Some lines =>
      let '(s, fs') :=
        foldl process_file (Stats 0 0 0 0 0 0 0 0 0 0, fs) (read_list lines) in
      (Some s, fs')
  end.

End Main.

End DownloadsImport.

(* ===================================================================== *)
(** ** movie_analyzer.py : name normalisation *)
(* ===================================================================== *)

Module MovieAnalyzer.
Import Text Regex.

(** [\s*\(\d{4}\)\s*] *)
Definition re_year_paren : re :=
  seqs [star is_space; Chr (ch "("); exactly is_digit 4; Chr (ch ")");
        star is_space].

(** [[^\w\s]] *)
Definition re_special : re := Chr (notc (either is_word is_space)).

Definition clean_movie_name (name : list ascii) : list ascii :=
  let name := sub re_year_paren [] name in
  let name := lower name in
  let name := sub re_special [] name in
  join " " (split name).

(** [\((\d{4})\)] *)
Definition re_year : re :=
  seqs [Chr (ch "("); Grp 1 (exactly is_digit 4); Chr (ch ")")].

Definition extract_year (folder_name : list ascii) : option (list ascii) :=
  match search re_year folder_name with
  | Some st => group 1 (groups st)
  | None => None
  end.

(** [^.+\s\(\d{4}\)$] *)
Definition re_radarr_format : re :=
  seqs [Bol; plus any; Chr is_space; Chr (ch "("); exactly is_digit 4;
        Chr (ch ")"); Eol].

Definition is_radarr_format (folder_name : list ascii) : bool :=
  match rmatch re_radarr_format folder_name with
  | Some _ => true
  | None => false
  end.

End MovieAnalyzer.

(* ===================================================================== *)
(** ** movie_cleanup.py : name normalisation, planning, action executor *)
(* ===================================================================== *)

Module MovieCleanup.
Import Text Regex.

Definition small_words : list (list ascii) :=
  map String.list_ascii_of_string
    ["a"; "an"; "the"; "and"; "but"; "or"; "nor";
     "as"; "at"; "by"; "for"; "in"; "of"; "on"; "per";
     "to"; "vs"; "via"; "from"; "into"; "onto"].

(** [^(?=[MDCLXVI])M{0,4}(CM|CD|D?C{0,3})(XC|XL|L?X{0,3})(IX|IV|V?I{0,3})$],
    re.I *)
Definition roman_numeral : re :=
  seqs [Bol; Ahead (oneofi "MDCLXVI"); upto (chi "M") 0 4;
        Grp 1 (alts [liti "CM"; liti "CD";
                     Seq (opt (chi "D")) (upto (chi "C") 0 3)]);
        Grp 2 (alts [liti "XC"; liti "XL";
                     Seq (opt (chi "L")) (upto (chi "X") 0 3)]);
        Grp 3 (alts [liti "IX"; liti "IV";
                     Seq (opt (chi "V")) (upto (chi "I") 0 3)]);
        Eol].

Definition is_roman (w : list ascii) : bool :=
  match rmatch roman_numeral w with Some _ => true | None => false end.

(** The body of the loop of [radarr_title_case] for the word at index [i]
    of [n] words. *)
Definition title_word (n i : nat) (word : list ascii) : list ascii :=
  let lower_w := lower word in
  if is_roman word then upper word
  else if Nat.eqb i 0 || Nat.eqb i (n - 1) then capitalize word
  else if existsb (eqs lower_w) small_words then lower_w
  else if has_char "-" word then
    join "-" (map (fun p => if negb (is_roman p) then capitalize p else upper p)
                  (split_on "-" word))
  else capitalize word.

Definition radarr_title_case (title : list ascii) : list ascii :=
  let words := split title in
  join " " (imap (title_word (length words)) words).

Definition clean_movie_name (name : list ascii) : list ascii :=
  let base_clean := name in
  let base_clean := sub MovieAnalyzer.re_year_paren [] base_clean in
  let base_clean := replace_char "_" " " base_clean in
  let base_clean := join " " (split base_clean) in
  radarr_title_case base_clean.

Definition extract_year (folder_name : list ascii) : option (list ascii) :=
  MovieAnalyzer.extract_year folder_name.

Import Py FS.

(** A JSON object / Python [dict] with string keys. *)
Abbreviation dict := (gmap (list ascii) pyval).

Definition key (s : string) : list ascii := s.
Definition str (s : string) : pyval := PStr s.

(** The exceptions the executor's [try] block can see. *)
Inductive exn : Type :=
| ValueError (msg : list ascii)
| TypeError (msg : list ascii).

(** [str(e)] *)
Definition exn_str (e : exn) : list ascii :=
  match e with ValueError msg => msg | TypeError msg => msg end.

(** [Path(v)] : only a string is accepted; the text of the [TypeError] is
    the one of CPython up to 3.11. *)
Definition to_path (v : pyval) : exn + path :=
  match v with
  | PStr s => inr (parse_path s)
  | _ => inl (TypeError
                (("expected str, bytes or os.PathLike object, not " : list ascii)
                 ++ type_name v))
  end.

(** The state the executor's loop carries: the result list, the set of
    parent folders to re-check, and the file system. *)
Record exec_state : Type := ExecState {
  results : list dict;
  folders_to_check : gset (list (list ascii));
  disk : store
}.

(** One iteration of [for child in sorted(src_path.iterdir())]. *)
Definition remove_child (fs : store) (child : path) : store :=
  if is_file fs child
  then match unlink fs child with Some fs' => fs' | None => fs end
  else fs.

(** The live part of the [delete] branch, lines 359-382: a file is
    unlinked; a directory loses the files directly inside it and is then
    removed if that left it empty, a failing [rmdir] being swallowed; a
    path that does not exist is only logged. *)
Definition delete_on_disk (fs : store) (src_path : path) : store :=
  if exists_ fs src_path then
    if is_file fs src_path then
      match unlink fs src_path with Some fs' => fs' | None => fs end
    else if is_dir fs src_path then
      let fs1 := foldl remove_child fs (sort_by path_leb (iterdir fs src_path)) in
      match rmdir fs1 src_path with
      | Some fs2 => fs2
      | None => fs1
      end
    else fs
  else fs.

Definition add_result (st : exec_state) (r : dict) : exec_state :=
  ExecState (results st ++ [r]) (folders_to_check st) (disk st).

(** The [try] block of the loop body: [inl e] when it raises [e]. *)
Definition try_action (dry_run : bool) (st : exec_state) (action : dict)
    : exn + exec_state :=
  let a_type := get action (key "action") in
  if is_str a_type "move" then inr st
  else if is_str a_type "delete" then
    let src := por (get action (key "source")) (get action (key "path")) in
    if negb (truthy src)
    then inl (ValueError "delete action requires source")
    else
      match to_path src with
      | inl e => inl e
      | inr src_path =>
          let fs' := if negb dry_run
                     then delete_on_disk (disk st) src_path
                     else disk st in
          inr (ExecState
                 (results st ++
                    [ {[ key "action" := str "delete"; key "source" := src;
                         key "status" := str "ok" ]} ])
                 ({[ parent src_path ]} ∪ folders_to_check st)
                 fs')
      end
  else if is_str a_type "rename" then inr st
  else if is_str a_type "keep" || is_str a_type "skip" then
    inr (add_result st {[ key "action" := a_type; key "status" := str "skipped" ]})
  else
    inr (add_result st {[ key "action" := a_type; key "status" := str "unknown" ]}).

(** The loop body with its [except Exception as e] handler. *)
Definition run_action (dry_run : bool) (st : exec_state) (action : dict)
    : exec_state :=
  match try_action dry_run st action with
  | inr st' => st'
  | inl e =>
      add_result st {[ key "action" := get action (key "action");
                       key "status" := str "error";
                       key "error" := PStr (exn_str e) ]}
  end.

(** One iteration of the final loop over [sorted(folders_to_check)]. *)
Definition cleanup_folder (dry_run : bool) (fs : store) (p : path) : store :=
  if exists_ fs p && is_dir fs p && bool_decide (iterdir fs p = []) then
    if negb dry_run
    then match rmdir fs p with Some fs' => fs' | None => fs end
    else fs
  else fs.

(** [sorted] on the folder strings. *)
Definition str_leb (p q : path) : bool := leb (path_str p) (path_str q).

(** [execute_actions_file] once the file has been read: the loop over the
    actions, then the removal of the empty parent folders.  The log is a
    list of JSON objects; an element of another kind would make
    [action.get] raise outside the [try] block. *)
Definition execute_actions (actions : list dict) (dry_run : bool) (fs : store)
    : list dict * store :=
  let st := foldl (run_action dry_run) (ExecState [] ∅ fs) actions in
  (results st,
   foldl (cleanup_folder dry_run) (disk st)
         (sort_by str_leb (elements (folders_to_check st)))).


(** *** Planning: [handle_duplicates] and [rename_for_radarr] *)

(** One entry of a duplicate group.  [size] is the total size in bytes of
    the regular files below the folder: [size_mb] is that number divided
    by 2^20, an exact division that keeps the order. *)
Record folder : Type := Folder {
  f_path : path;
  f_name : list ascii;
  f_year : option (list ascii);
  f_size : Z;
  f_video_count : nat
}.

#[global] Instance folder_eq_dec : EqDecision folder.
Proof. solve_decision. Defined.

Definition has_year (f : folder) : bool :=
  match f_year f with Some _ => true | None => false end.

(** [item.glob('*.mkv')] and the like: entries of [item] with that suffix. *)
Definition glob_suffix (fs : store) (item : path) (suffix : list ascii) : list path :=
  List.filter (fun q => ends_with suffix (name q)) (iterdir fs item).

Definition scan_folder (fs : store) (item : path) : folder :=
  let video_files :=
    glob_suffix fs item ".mkv" ++ glob_suffix fs item ".mp4" ++
    glob_suffix fs item ".avi" ++ glob_suffix fs item ".m4v" in
  Folder item (name item) (extract_year (name item)) (tree_size fs item)
         (length video_files).

(** [movie_groups[clean_name].append(...)] on an insertion-ordered dict. *)
Fixpoint group_add (k : list ascii) (v : folder)
    (groups : list (list ascii * list folder)) : list (list ascii * list folder) :=
  match groups with
  | [] => [(k, [v])]
  | (k', vs) :: rest =>
      if eqs k k' then (k', vs ++ [v]) :: rest
      else (k', vs) :: group_add k v rest
  end.

Definition scan_groups (fs : store) (root : path) : list (list ascii * list folder) :=
  foldl (fun groups item =>
           if is_dir fs item
           then group_add (clean_movie_name (name item)) (scan_folder fs item) groups
           else groups)
        [] (iterdir fs root).

(** The sort key [(x['year'] is not None, x['size_mb'])] compared as Python
    compares tuples; [key_ge x y] is [key x >= key y]. *)
Definition key_ge (x y : folder) : bool :=
  match has_year x, has_year y with
  | true, false => true
  | false, true => false
  | _, _ => (f_size y <=? f_size x)%Z
  end.

(** [sorted(folders, key=..., reverse=True)]: a stable sort, largest key
    first. *)
Definition folders_sorted (folders : list folder) : list folder :=
  sort_by key_ge folders.

(** The keeper and the folders to remove of one group. *)
Definition resolve (folders : list folder) : option (folder * list folder) :=
  match folders_sorted folders with
  | [] => None
  | keep :: remove => Some (keep, remove)
  end.

Definition delete_action (keep dup : folder) : dict :=
  {[ key "action" := str "delete";
     key "path" := PStr (path_str (f_path dup));
     key "reason" := PStr (("Duplicate of " : list ascii) ++ f_name keep) ]}.

(** The inner loop over [remove]. *)
Definition remove_dup (dry_run : bool) (keep : folder)
    (st : list dict * store) (dup : folder) : list dict * store :=
  let actions := st.1 ++ [delete_action keep dup] in
  if negb dry_run then
    match rmtree st.2 (f_path dup) with
    | Some fs' => (actions, fs')
    | None => (actions, st.2)
    end
  else (actions, st.2).

Definition handle_group (dry_run : bool) (st : list dict * store)
    (group : list ascii * list folder) : list dict * store :=
  match resolve group.2 with
  | None => st
  | Some (keep, remove) => foldl (remove_dup dry_run keep) st remove
  end.

(** [handle_duplicates(dry_run)] on the movie folder [root]. *)
Definition handle_duplicates (root : path) (dry_run : bool) (fs : store)
    : list dict * store :=
  let movie_groups := scan_groups fs root in
  let duplicates :=
    List.filter (fun g => (1 <? length g.2)%nat) movie_groups in
  foldl (handle_group dry_run) ([], fs) duplicates.

(** *** [cleanup_empty_folders] *)

(** The body of the loop of [cleanup_empty_folders]: a folder without a
    video file directly inside it is reported, and in live mode [rmdir] is
    tried on it, a failure being logged only. *)
Definition empty_step (dry_run : bool) (st : list dict * store) (item : path)
    : list dict * store :=
  let '(actions, fs) := st in
  if negb (is_dir fs item) then st
  else
    let video_files :=
      glob_suffix fs item ".mkv" ++ glob_suffix fs item ".mp4" ++
      glob_suffix fs item ".avi" ++ glob_suffix fs item ".m4v" in
    if Nat.eqb (length video_files) 0 then
      let actions :=
        actions ++ [ {[ key "action" := str "delete";
                        key "source" := PStr (path_str item) ]} ] in
      if negb dry_run then
        match rmdir fs item with
        | Some fs' => (actions, fs')
        | None => (actions, fs)
        end
      else (actions, fs)
    else st.

(** [cleanup_empty_folders(dry_run)] on the movie folder [root]. *)
Definition cleanup_empty_folders (root : path) (dry_run : bool) (fs : store)
    : list dict * store :=
  foldl (empty_step dry_run) ([], fs) (sort_by path_leb (iterdir fs root)).

Section WithLookup.

(** [lookup_movie_year]: the TMDb query, an external service. *)
Variable lookup_movie_year : list ascii -> option (list ascii).

(** [not year] *)
Definition no_year (year : option (list ascii)) : bool :=
  match year with
  | None | Some [] => true
  | Some (_ :: _) => false
  end.

Definition skip_action (item : path) (reason : list ascii) : dict :=
  {[ key "action" := str "skip"; key "path" := PStr (path_str item);
     key "reason" := PStr reason ]}.

(** The body of the loop of [rename_for_radarr]. *)
Definition rename_step (dry_run : bool) (st : list dict * store) (item : path)
    : list dict * store :=
  let '(actions, fs) := st in
  if negb (is_dir fs item) then st
  else
    let original_name := name item in
    if MovieAnalyzer.is_radarr_format original_name then st
    else
      let base_clean := clean_movie_name original_name in
      let year := extract_year original_name in
      let year := if no_year year then lookup_movie_year base_clean else year in
      match year with
      | None | Some [] =>
          (actions ++ [skip_action item "No year available"], fs)
      | Some (y0 :: y') =>
          let new_name := base_clean ++ (" (" : list ascii) ++ (y0 :: y') ++ ")" in
          let new_path := parent item ++ parse_path new_name in
          if exists_ fs new_path then
            (actions ++
               [skip_action item
                  (("Target " : list ascii) ++ new_name ++ " already exists")],
             fs)
          else
            let actions :=
              actions ++
                [ {[ key "action" := str "rename";
                     key "old_path" := PStr (path_str item);
                     key "new_path" := PStr (path_str new_path);
                     key "old_name" := PStr original_name;
                     key "new_name" := PStr new_name ]} ] in
            if negb dry_run then
              match rename fs item new_path with
              | Some fs' => (actions, fs')
              | None => (actions, fs)
              end
            else (actions, fs)
      end.

(** [rename_for_radarr(dry_run)] on the movie folder [root]. *)
Definition rename_for_radarr (root : path) (dry_run : bool) (fs : store)
    : list dict * store :=
  foldl (rename_step dry_run) ([], fs) (sort_by path_leb (iterdir fs root)).

(** The planning part of [main]: both planners in sequence. *)
Definition plan (root : path) (dry_run : bool) (fs : store) : list dict * store :=
  let '(duplicate_actions, fs1) := handle_duplicates root dry_run fs in
  let '(rename_actions, fs2) := rename_for_radarr root dry_run fs1 in
  (duplicate_actions ++ rename_actions, fs2).

End WithLookup.

End MovieCleanup.

(* ===================================================================== *)
(** ** movie_cleanup_2.py : [ActionExecutor] *)
(* ===================================================================== *)

Module MovieCleanup2.
Import Text Py FS.

(** *** [ActionGenerator.parse_diff_file] *)

(** The network prefix a line must hold: two backslashes, the host, and the
    share between single backslashes. *)
Definition backslash : ascii := "092".

Definition movies_prefix : list ascii :=
  backslash :: backslash :: ("192.168.10.45" : list ascii)
  ++ backslash :: ("Movies" : list ascii) ++ [backslash].

(** [(\\\\192\.168\.10\.45\\Movies\\.*\.mkv)] *)
Definition re_diff_path : Regex.re :=
  Regex.Grp 1 (Regex.seqs [Regex.lit movies_prefix; Regex.star Regex.any;
                           Regex.lit ".mkv"]).

(** The body of the loop over the lines of the diff file: the paths the
    line adds to [files]. *)
Definition diff_line (line : list ascii) : list (list ascii) :=
  let line := strip line in
  match line with
  | [] => []
  | _ =>
      if contains movies_prefix line then
        match Regex.search re_diff_path line with
        | Some st =>
            match Regex.group 1 (Regex.groups st) with
            | Some path => [path]
            | None => []
            end
        | None => []
        end
      else []
  end.

Definition parse_diff_file (lines : list (list ascii)) : list (list ascii) :=
  concat (map diff_line lines).

(** The executor object: its [folders_to_check] set, and the file system. *)
Record executor : Type := Executor {
  folders_to_check : gset (list (list ascii));
  disk : store
}.

(** [execute_delete(source)]: [os.remove] raises on a path that is missing
    or is a directory; the handler turns that into [(False, str(e))] and
    the parent folder is not recorded. *)
Definition execute_delete (ex : executor) (source : list ascii)
    : (bool * option (list ascii)) * executor :=
  let p := parse_path source in
  match unlink (disk ex) p with
  | Some fs' =>
      ((true, None), Executor ({[ parent p ]} ∪ folders_to_check ex) fs')
  | None =>
      let msg : list ascii :=
        if is_dir (disk ex) p then "[Errno 21] Is a directory: "
        else "[Errno 2] No such file or directory: " in
      ((false, Some (msg ++ "'"%char :: source ++ "'")), ex)
  end.

(** *** [execute_move]: [shutil.move] on POSIX *)

(** [os.rename(src, dst)]: a file replaces a file, a directory replaces an
    empty directory; renaming a path onto itself does nothing. *)
Definition os_rename (fs : store) (src dst : path) : option store :=
  match node_at fs src, src, dst with
  | None, _, _ | _, [], _ | _, _, [] => None
  | Some (File n), _, _ =>
      if bool_decide (src = dst) then Some fs
      else if is_dir fs dst then None
      else if is_dir fs (parent dst)
           then Some (<[dst := File n]> (delete src fs))
           else None
  | Some Dir, _, _ =>
      if bool_decide (src = dst) then Some fs
      else if bool_decide (src `prefix_of` dst) then None
      else
        match node_at fs dst with
        | Some (File _) => None
        | Some Dir =>
            if bool_decide (iterdir fs dst = [])
            then Some (kmap (rekey src dst) (delete dst fs))
            else None
        | None =>
            if is_dir fs (parent dst)
            then Some (kmap (rekey src dst) fs)
            else None
        end
  end.

(** [shutil._basename(path)]: the last component once the trailing
    separators are dropped. *)
Fixpoint dropwhile_sep (s : list ascii) : list ascii :=
  match s with
  | c :: r => if eqc c "/" then dropwhile_sep r else s
  | [] => []
  end.

Definition shutil_basename (s : list ascii) : list ascii :=
  DownloadsImport.basename (rev (dropwhile_sep (rev s))).

(** [shutil.copytree(src, dst)] for a [dst] that is not below [src]:
    [os.makedirs(dst)] must create [dst], then every entry below [src] is
    copied to the same place below [dst]. *)
Definition copytree (fs : store) (src dst : path) : option store :=
  if exists_ fs dst then None
  else
    match makedirs fs dst with
    | None => None
    | Some fs1 =>
        Some (kmap (fun q => dst ++ drop (length src) q)
                   (filter (fun kv => src `prefix_of` kv.1 ∧ kv.1 ≠ src) fs)
              ∪ fs1)
    end.

(** A path string that ends in a separator or in a [.] component can only
    name a directory. *)
Definition names_a_directory (s : list ascii) : bool :=
  eqs (DownloadsImport.basename s) [] || eqs (shutil_basename s) ".".

(** [shutil.move(src, dst)]: whether it returned, and the file system it
    left.  Every call it makes on [src] fails when [src] is written as a
    directory and is a regular file.  A directory written with a final [.]
    cannot be renamed nor removed: it is copied, then emptied, and the
    removal of the directory itself raises. *)
Definition shutil_move (fs : store) (src dst : list ascii) : bool * store :=
  let s := parse_path src in
  let d := parse_path dst in
  let dotted := is_dir fs s && eqs (shutil_basename src) "." in
  let returned (r : option store) : bool * store :=
    match r with Some fs' => (true, fs') | None => (false, fs) end in
  if names_a_directory src && is_file fs s then (false, fs)
  else if is_dir fs d && exists_ fs s && bool_decide (s = d)
  then returned (if dotted then None else os_rename fs s d)
  else
    let real_dst :=
      if is_dir fs d
      then parse_path (DownloadsImport.path_join dst (shutil_basename src))
      else d in
    if is_dir fs d && exists_ fs real_dst then (false, fs)
    else
      match (if dotted then None else os_rename fs s real_dst) with
      | Some fs' => (true, fs')
      | None =>
          if is_dir fs s then
            if bool_decide (s `prefix_of` d) then (false, fs)
            else
              match copytree fs s real_dst with
              | Some fs1 =>
                  if dotted
                  then (false,
                        filter (fun kv => ¬ (s `prefix_of` kv.1 ∧ kv.1 ≠ s)) fs1)
                  else match rmtree fs1 s with
                       | Some fs2 => (true, fs2)
                       | None => (false, fs1)
                       end
              | None => (false, fs)
              end
          else
            match copy2 fs s real_dst with
            | Some fs1 =>
                match unlink fs1 s with
                | Some fs2 => (true, fs2)
                | None => (false, fs1)
                end
            | None => (false, fs)
            end
      end.

(** What [execute_move] caught; its text is only printed. *)
Inductive failure : Type :=
| NotAPath (v : pyval)
| MkdirFailed
| MoveFailed.

(** [execute_move(source, destination)] on the values the log holds. *)
Definition execute_move (ex : executor) (source destination : pyval)
    : (bool * option failure) * executor :=
  match destination with
  | PStr dst =>
      let dest_path := parse_path dst in
      match (if exists_ (disk ex) dest_path then Some (disk ex)
             else makedirs (disk ex) dest_path) with
      | None => ((false, Some MkdirFailed), ex)
      | Some fs1 =>
          match source with
          | PStr src =>
              let filename := name (parse_path src) in
              let full_dest := dest_path ++ parse_path filename in
              match shutil_move fs1 src (path_str full_dest) with
              | (true, fs2) =>
                  ((true, None),
                   Executor ({[ parent (parse_path src) ]} ∪ folders_to_check ex) fs2)
              | (false, fs2) =>
                  ((false, Some MoveFailed), Executor (folders_to_check ex) fs2)
              end
          | _ => ((false, Some (NotAPath source)), Executor (folders_to_check ex) fs1)
          end
      end
  | _ => ((false, Some (NotAPath destination)), ex)
  end.

(** *** [cleanup_empty_folders] *)

(** The body of the loop over [sorted(self.folders_to_check)]: the list of
    deleted folders and the file system. *)
Definition cleanup_step (st : list path * store) (folder : path)
    : list path * store :=
  let '(deleted_folders, fs) := st in
  if exists_ fs folder && is_dir fs folder then
    if bool_decide (iterdir fs folder = []) then
      match rmdir fs folder with
      | Some fs' => (deleted_folders ++ [folder], fs')
      | None => st
      end
    else st
  else st.

Definition cleanup_empty_folders (ex : executor) : list path * store :=
  foldl cleanup_step ([], disk ex)
        (sort_by MovieCleanup.str_leb (elements (folders_to_check ex))).

(** *** [execute_all] *)

Record stats : Type := Stats {
  moved : nat;
  deleted : nat;
  kept : nat;
  errors : nat
}.

(** [execute_delete] on a value of the log: [os.remove] accepts only a
    path, and fails on a regular file written as a directory. *)
Definition execute_delete_value (ex : executor) (source : pyval)
    : bool * executor :=
  match source with
  | PStr s =>
      if names_a_directory s && is_file (disk ex) (parse_path s) then (false, ex)
      else let '((success, _), ex') := execute_delete ex s in (success, ex')
  | _ => (false, ex)
  end.

(** The body of the loop of [execute_all]: [inl k] when the subscript
    [action[k]] raises [KeyError]. *)
Definition execute_one (st : stats * executor) (action : MovieCleanup.dict)
    : list ascii + stats * executor :=
  let '(Stats m d k e, ex) := st in
  match action !! MovieCleanup.key "action" with
  | None => inl (MovieCleanup.key "action")
  | Some action_type =>
      match action !! MovieCleanup.key "source" with
      | None => inl (MovieCleanup.key "source")
      | Some source =>
          if is_str action_type "move" then
            match action !! MovieCleanup.key "destination" with
            | None => inl (MovieCleanup.key "destination")
            | Some destination =>
                let '((success, _), ex') := execute_move ex source destination in
                inr (if success then Stats (S m) d k e else Stats m d k (S e), ex')
            end
          else if is_str action_type "delete" then
            let '(success, ex') := execute_delete_value ex source in
            inr (if success then Stats m (S d) k e else Stats m d k (S e), ex')
          else if is_str action_type "keep" then inr (Stats m d (S k) e, ex)
          else inr st
      end
  end.

(** The loop, stopping at the first [KeyError]. *)
Fixpoint execute_loop (st : stats * executor) (actions : list MovieCleanup.dict)
    : option (list ascii) * (stats * executor) :=
  match actions with
  | [] => (None, st)
  | action :: rest =>
      match execute_one st action with
      | inl k => (Some k, st)
      | inr st' => execute_loop st' rest
      end
  end.

(** [execute_all] on the loaded actions: the statistics and the file
    system at the end, or the key of the [KeyError] that ended the run and
    the file system at that point. *)
Definition execute_all (ex : executor) (actions : list MovieCleanup.dict)
    : (list ascii + stats) * store :=
  match execute_loop (Stats 0 0 0 0, ex) actions with
  | (Some k, (_, ex')) => (inl k, disk ex')
  | (None, (s, ex')) => (inr s, (cleanup_empty_folders ex').2)
  end.

End MovieCleanup2.

(* ===================================================================== *)
(** * Vocabulary of the statements *)
(* ===================================================================== *)

Import Text Py FS MovieCleanup.

(** The directory [p] without the regular files directly inside it. *)
Definition without_files_of (fs : store) (p : path) : store :=
  foldl remove_child fs (sort_by path_leb (iterdir fs p)).

(** What one action of a log does, read off the action alone: it adds
    results without touching the disk, or it is a delete of [p] whose
    result records [src]. *)
Inductive effect : Type :=
| NoEffect (rs : list dict)
| Deletes (src : pyval) (p : path).

Definition ok_result (src : pyval) : dict :=
  {[ key "action" := str "delete"; key "source" := src; key "status" := str "ok" ]}.

Definition error_result (a : dict) (e : exn) : dict :=
  {[ key "action" := get a (key "action"); key "status" := str "error";
     key "error" := PStr (exn_str e) ]}.

Definition effect_of (a : dict) : effect :=
  let a_type := get a (key "action") in
  if is_str a_type "move" then NoEffect []
  else if is_str a_type "delete" then
    let src := por (get a (key "source")) (get a (key "path")) in
    if negb (truthy src)
    then NoEffect [error_result a (ValueError "delete action requires source")]
    else match to_path src with
         | inl e => NoEffect [error_result a e]
         | inr p => Deletes src p
         end
  else if is_str a_type "rename" then NoEffect []
  else if is_str a_type "keep" || is_str a_type "skip" then
    NoEffect [ {[ key "action" := a_type; key "status" := str "skipped" ]} ]
  else NoEffect [ {[ key "action" := a_type; key "status" := str "unknown" ]} ].

Definition apply_effect (dry_run : bool) (st : exec_state) (e : effect) : exec_state :=
  match e with
  | NoEffect rs => ExecState (results st ++ rs) (folders_to_check st) (disk st)
  | Deletes src p =>
      ExecState (results st ++ [ok_result src])
                ({[ parent p ]} ∪ folders_to_check st)
                (if negb dry_run then delete_on_disk (disk st) p else disk st)
  end.

Definition effect_results (e : effect) : list dict :=
  match e with NoEffect rs => rs | Deletes src _ => [ok_result src] end.

(** [settled fs p]: nothing is left at [p] for a delete action to remove
    but, possibly, the empty directory itself. *)
Definition settled (fs : store) (p : path) : Prop :=
  is_file fs p = false ∧
  (is_dir fs p = true → ∀ q, child_of p q = true → is_file fs q = false).

Definition effect_settled (fs : store) (e : effect) : Prop :=
  match e with NoEffect _ => True | Deletes _ p => settled fs p end.


(** *** Concrete actions and disks used in examples *)

Definition mkpath (l : list string) : path := map String.list_ascii_of_string l.

Definition delete_source (s : string) : dict :=
  {[ key "action" := str "delete"; key "source" := str s ]}.

Definition delete_path (s : string) : dict :=
  {[ key "action" := str "delete"; key "path" := str s ]}.

Definition move_action : dict :=
  {[ key "action" := str "move"; key "source" := str "/lib/a.mkv";
     key "destination" := str "/tv" ]}.

Definition rename_action : dict :=
  {[ key "action" := str "rename"; key "old_path" := str "/lib/Alien";
     key "new_path" := str "/lib/Alien (1979)" ]}.

(** [/a/x] and [/a/b/f] are regular files. *)
Definition two_level_disk : store :=
  list_to_map [(mkpath ["a"], Dir); (mkpath ["a"; "x"], File 10);
               (mkpath ["a"; "b"], Dir); (mkpath ["a"; "b"; "f"], File 20)].

Definition two_level_log : list dict :=
  [delete_source "/a/x"; delete_source "/a/b/f"].

(** [/lib/m] holds a file and a subdirectory with a file of its own. *)
Definition nested_disk : store :=
  list_to_map [(mkpath ["lib"], Dir); (mkpath ["lib"; "m"], Dir);
               (mkpath ["lib"; "m"; "m.mkv"], File 700);
               (mkpath ["lib"; "m"; "extras"], Dir);
               (mkpath ["lib"; "m"; "extras"; "e.mkv"], File 50)].

(** [/lib/Alien] and [/lib/Alien (1979)] hold one film each. *)
Definition duplicate_disk : store :=
  list_to_map [(mkpath ["lib"], Dir);
               (mkpath ["lib"; "Alien"], Dir);
               (mkpath ["lib"; "Alien"; "alien.mkv"], File 900);
               (mkpath ["lib"; "Alien (1979)"], Dir);
               (mkpath ["lib"; "Alien (1979)"; "alien.mkv"], File 700)].

(** Two folders of one group with the same key: both carry a year and both
    weigh 700 bytes. *)
Definition tied_a : folder :=
  Folder (mkpath ["lib"; "Alien (1979)"]) "Alien (1979)" (Some ("1979" : list ascii)) 700 1.
Definition tied_b : folder :=
  Folder (mkpath ["lib"; "alien (1979)"]) "alien (1979)" (Some ("1979" : list ascii)) 700 1.

(** *** What a pattern matches

    [den r b a b' a'] : starting with [b] consumed (reversed) and [a]
    ahead, the pattern [r] can stop with [b'] consumed and [a'] ahead.
    This is the set of all matches, without the priorities. *)
Import Regex.

Definition within (n : nat) (lo : nat) (hi : option nat) : Prop :=
  (lo ≤ n)%nat ∧ match hi with Some h => (n ≤ h)%nat | None => True end.

Fixpoint den (r : re) (b a b' a' : list ascii) : Prop :=
  match r with
  | Eps => b' = b ∧ a' = a
  | Chr p => ∃ c, a = c :: a' ∧ b' = c :: b ∧ p c = true
  | Seq r1 r2 => ∃ b1 a1, den r1 b a b1 a1 ∧ den r2 b1 a1 b' a'
  | Alt r1 r2 => den r1 b a b' a' ∨ den r2 b a b' a'
  | Rep _ p lo hi =>
      ∃ w, a = w ++ a' ∧ b' = rev w ++ b ∧ forallb p w = true ∧
           within (length w) lo hi
  | Grp _ r1 => den r1 b a b' a'
  | Bol => b = [] ∧ b' = b ∧ a' = a
  | Eol => at_eol a = true ∧ b' = b ∧ a' = a
  | Wordb => at_wordb b a = true ∧ b' = b ∧ a' = a
  | Ahead p => (∃ c t, a = c :: t ∧ p c = true) ∧ b' = b ∧ a' = a
  end.

(** [r] matches somewhere in [s]. *)
Definition occurs (r : re) (s : list ascii) : Prop :=
  ∃ w a b' a', s = w ++ a ∧ den r (rev w) a b' a'.

(** A download of 100 bytes and a filed copy of 200 bytes, neither name
    carrying a quality tag. *)
Definition larger_existing_disk : store :=
  list_to_map [(mkpath ["dl"], Dir); (mkpath ["dl"; "film.mkv"], File 100);
               (mkpath ["lib"], Dir); (mkpath ["lib"; "film"], Dir);
               (mkpath ["lib"; "film"; "film.mkv"], File 200)].

(** The same with the sizes exchanged. *)
Definition larger_new_disk : store :=
  list_to_map [(mkpath ["dl"], Dir); (mkpath ["dl"; "film.mkv"], File 200);
               (mkpath ["lib"], Dir); (mkpath ["lib"; "film"], Dir);
               (mkpath ["lib"; "film"; "film.mkv"], File 100)].

(** *** Well-formed stores

    A file or directory name is not empty, is not [.] and holds no [/];
    in a well-formed store every path is made of such names and sits in a
    directory. *)
Definition valid_name (c : list ascii) : Prop :=
  c ≠ [] ∧ c ≠ String.list_ascii_of_string "." ∧ has_char "/" c = false.

Definition well_formed (fs : store) : Prop :=
  ∀ q n, fs !! q = Some n → Forall valid_name q ∧ is_dir fs (parent q) = true.

(** The incoming file scores higher by its folder name. *)
Definition import_disk : store :=
  list_to_map [(mkpath ["dl"], Dir); (mkpath ["dl"; "1080p"], Dir);
               (mkpath ["dl"; "1080p"; "film.mkv"], File 500);
               (mkpath ["lib"], Dir); (mkpath ["lib"; "film"], Dir);
               (mkpath ["lib"; "film"; "film.mkv"], File 300)].

(** *** Case-insensitive patterns *)

(** A class that does not see the case of letters. *)
Definition caseless (p : cls) : Prop := ∀ c, p (to_lower c) = p c.

Fixpoint caseless_re (r : re) : Prop :=
  match r with
  | Eps | Bol | Eol | Wordb => True
  | Chr p | Rep _ p _ _ | Ahead p => caseless p
  | Seq r1 r2 | Alt r1 r2 => caseless_re r1 ∧ caseless_re r2
  | Grp _ r1 => caseless_re r1
  end.

(** A matcher state with all its text in lower case. *)
Definition lower_state (st : mstate) : mstate :=
  MState (lower (before st)) (lower (after st))
         (map (fun g : nat * list ascii => (g.1, lower g.2)) (groups st)).




(** The path a delete action of the log names, when it names one: the
    string under [source], or else under [path]. *)
Definition delete_target (a : dict) : option path :=
  if is_str (get a (key "action")) "delete" then
    match por (get a (key "source")) (get a (key "path")) with
    | PStr (c :: s) => Some (parse_path (c :: s))
    | _ => None
    end
  else None.


(** The folders [handle_duplicates] reports for removal: in every group of
    more than one folder, all but the keeper. *)
Definition duplicates_to_remove (fs : store) (root : path) : list folder :=
  concat (map (fun g : list ascii * list folder =>
                 match resolve g.2 with
                 | Some (_, remove) => remove
                 | None => []
                 end)
              (List.filter (fun g : list ascii * list folder => (1 <? length g.2)%nat)
                           (scan_groups fs root))).

(** [q] is [p] or lies below it. *)
Definition under (p q : path) : Prop := p `prefix_of` q.

(** The loop of [handle_duplicates] that fills [movie_groups], over any
    list of entries and from any groups. *)
Definition scan_loop (fs : store) (gs : list (list ascii * list folder))
    (items : list path) : list (list ascii * list folder) :=
  foldl (fun groups item =>
           if is_dir fs item
           then group_add (clean_movie_name (name item)) (scan_folder fs item) groups
           else groups) gs items.


(** The store [fs] without everything at or below the folders [done]. *)
Definition cleared (fs : store) (done : list folder) (fs' : store) : Prop :=
  ∀ q, fs' !! q =
       if bool_decide (Exists (λ d, under (f_path d) q) done) then None else fs !! q.

(** What one group contributes to the removals. *)
Definition removed_of (g : list ascii * list folder) : list folder :=
  match resolve g.2 with Some (_, remove) => remove | None => [] end.

(** The executable form of [well_formed]. *)
Definition valid_name_b (c : list ascii) : bool :=
  negb (eqs c []) && negb (eqs c ".") && negb (has_char "/" c).

Definition well_formed_b (fs : store) : bool :=
  forallb (fun kv : path * node =>
             forallb valid_name_b kv.1 && is_dir fs (parent kv.1))
          (map_to_list fs).

(** *** What a pattern captures

    [deng r st st'] : the pattern [r] can take the matcher from the state
    [st] to the state [st'], capture groups included. *)
Fixpoint deng (r : re) (st st' : mstate) : Prop :=
  match r with
  | Eps => st' = st
  | Chr p =>
      ∃ c a', after st = c :: a' ∧ p c = true ∧
              st' = MState (c :: before st) a' (groups st)
  | Seq r1 r2 => ∃ st1, deng r1 st st1 ∧ deng r2 st1 st'
  | Alt r1 r2 => deng r1 st st' ∨ deng r2 st st'
  | Rep _ p lo hi =>
      ∃ w a', after st = w ++ a' ∧ forallb p w = true ∧
              within (length w) lo hi ∧
              st' = MState (rev w ++ before st) a' (groups st)
  | Grp i r1 =>
      ∃ st1, deng r1 st st1 ∧
             st' = MState (before st1) (after st1)
                          ((i, consumed st st1) :: groups st1)
  | Bol => before st = [] ∧ st' = st
  | Eol => at_eol (after st) = true ∧ st' = st
  | Wordb => at_wordb (before st) (after st) = true ∧ st' = st
  | Ahead p => (∃ c t, after st = c :: t ∧ p c = true) ∧ st' = st
  end.

(** A year as the patterns of the sources read it: four digits. *)
Definition is_year (y : list ascii) : Prop :=
  length y = 4%nat ∧ forallb is_digit y = true.

(** *** Outcomes of the import script *)

(** What a copy function may answer in each mode, and what it may do to
    the file system. *)
Definition outcome_ok (dry_run : bool) (fs : store) (out : list ascii * store) : Prop :=
  if dry_run
  then out.2 = fs ∧
       (out.1 = String.list_ascii_of_string "would_copy" ∨
        out.1 = String.list_ascii_of_string "would_replace" ∨
        out.1 = String.list_ascii_of_string "skipped" ∨
        out.1 = String.list_ascii_of_string "error")
  else (out.1 = String.list_ascii_of_string "copied" ∨
        out.1 = String.list_ascii_of_string "replaced" ∨
        out.1 = String.list_ascii_of_string "skipped" ∨
        out.1 = String.list_ascii_of_string "error").

(** The counters of [stats] add up. *)
Definition stats_add_up (s : DownloadsImport.stats) : Prop :=
  let '(DownloadsImport.Stats t m tv mu c r wc wr sk e) := s in
  t = (m + tv + mu)%nat ∧ t = (c + r + wc + wr + sk + e)%nat.

(** The counters a mode leaves at zero. *)
Definition stats_of_mode (dry_run : bool) (s : DownloadsImport.stats) : Prop :=
  if dry_run
  then DownloadsImport.copied s = 0%nat ∧ DownloadsImport.replaced s = 0%nat
  else DownloadsImport.would_copy s = 0%nat ∧ DownloadsImport.would_replace s = 0%nat.

(** *** Folders without video files *)

(** The action [cleanup_empty_folders] reports for a folder. *)
Definition empty_action (item : path) : dict :=
  {[ key "action" := str "delete"; key "source" := PStr (path_str item) ]}.

(** The folder [item] has no entry that ends in one of the four video
    suffixes, as [cleanup_empty_folders] tests it. *)
Definition no_video (fs : store) (item : path) : bool :=
  Nat.eqb (length (glob_suffix fs item ".mkv" ++ glob_suffix fs item ".mp4" ++
                   glob_suffix fs item ".avi" ++ glob_suffix fs item ".m4v")) 0.

(** The folders [cleanup_empty_folders] reports on [fs]. *)
Definition reported_empty (fs : store) (root : path) : list path :=
  List.filter (fun item => is_dir fs item && no_video fs item)
              (sort_by path_leb (iterdir fs root)).

(** [/lib/Old] holds subtitles and a film with an upper-case suffix. *)
Definition leftovers_disk : store :=
  list_to_map [(mkpath ["lib"], Dir); (mkpath ["lib"; "Old"], Dir);
               (mkpath ["lib"; "Old"; "old.srt"], File 10);
               (mkpath ["lib"; "Old"; "OLD.MKV"], File 900);
               (mkpath ["lib"; "New"], Dir);
               (mkpath ["lib"; "New"; "new.mkv"], File 800)].

(** *** The executor of movie_cleanup_2.py *)

(** The key whose absence makes [execute_all] raise on the action. *)
Definition missing_key (a : dict) : option (list ascii) :=
  match a !! key "action" with
  | None => Some (key "action")
  | Some t =>
      match a !! key "source" with
      | None => Some (key "source")
      | Some _ =>
          if is_str t "move" then
            match a !! key "destination" with
            | None => Some (key "destination")
            | Some _ => None
            end
          else None
      end
  end.

(** The actions [execute_all] counts: [move], [delete] and [keep]. *)
Definition counted (a : dict) : bool :=
  is_str (get a (key "action")) "move" || is_str (get a (key "action")) "delete"
  || is_str (get a (key "action")) "keep".

Definition stats_sum (s : MovieCleanup2.stats) : nat :=
  (MovieCleanup2.moved s + MovieCleanup2.deleted s + MovieCleanup2.kept s
   + MovieCleanup2.errors s)%nat.

(* ===================================================================== *)
(** * Properties *)
(* ===================================================================== *)


(** ** Text *)

Lemma eqc_eq (a b : ascii) : eqc a b = true ↔ a = b.
Proof.
  unfold eqc, code. rewrite N.eqb_eq. split; [|by intros ->].
  intros H. apply (f_equal ascii_of_N) in H. by rewrite !ascii_N_embedding in H.
Qed.

Lemma eqc_refl (a : ascii) : eqc a a = true.
Proof. by apply eqc_eq. Qed.

Lemma eqs_eq (a b : list ascii) : eqs a b = true ↔ a = b.
Proof.
  revert b. induction a as [|x a IH]; intros [|y b]; simpl; try done.
  rewrite andb_true_iff, eqc_eq, IH. split; [by intros [-> ->]|by intros [= -> ->]].
Qed.

Lemma eqs_refl (a : list ascii) : eqs a a = true.
Proof. by apply eqs_eq. Qed.
(** ** The file system and the action executor *)

Section FSFacts.
Implicit Types (fs : store) (p q : path).

Lemma insert_by_perm {A} (le : A -> A -> bool) x (l : list A) :
  insert_by le x l ≡ₚ x :: l.
Proof.
  induction l as [|y l IH]; simpl; [done|].
  destruct (le x y); [done|]. rewrite IH. apply Permutation_swap.
Qed.

Lemma sort_by_perm {A} (le : A -> A -> bool) (l : list A) : sort_by le l ≡ₚ l.
Proof.
  induction l as [|x l IH]; simpl; [done|].
  unfold sort_by in *. simpl. rewrite insert_by_perm. by rewrite IH.
Qed.

Lemma elem_of_sort_by {A} (le : A -> A -> bool) (l : list A) x :
  x ∈ sort_by le l ↔ x ∈ l.
Proof. by rewrite sort_by_perm. Qed.

Lemma elem_of_iterdir fs p q :
  q ∈ iterdir fs p ↔ is_Some (fs !! q) ∧ child_of p q = true.
Proof.
  unfold iterdir. rewrite list_elem_of_In, filter_In, <- list_elem_of_In.
  rewrite list_elem_of_fmap. split.
  - intros [[[q' n] [-> Hin]] Hc]. apply elem_of_map_to_list in Hin. eauto.
  - intros [[n Hn] Hc]. split; [|done]. exists (q, n). split; [done|].
    by apply elem_of_map_to_list.
Qed.

Lemma iterdir_nil fs p :
  iterdir fs p = [] ↔ ∀ q, is_Some (fs !! q) → child_of p q = false.
Proof.
  split.
  - intros H q Hq. destruct (child_of p q) eqn:E; [|done].
    assert (q ∈ iterdir fs p) as Hin by (by apply elem_of_iterdir).
    rewrite H in Hin. by apply elem_of_nil in Hin.
  - intros H. destruct (iterdir fs p) as [|q l] eqn:E; [done|].
    assert (q ∈ iterdir fs p) as Hin by (rewrite E; left).
    apply elem_of_iterdir in Hin as [Hs Hc]. rewrite (H q Hs) in Hc. done.
Qed.

Lemma is_file_spec fs q :
  is_file fs q = true ↔ q ≠ [] ∧ ∃ n, fs !! q = Some (File n).
Proof.
  unfold is_file, node_at. destruct q as [|c q].
  - split; [done|]. by intros [? _].
  - destruct (fs !! (c :: q)) as [[n|]|]; split; try done; eauto.
    + by intros [_ [? ?]].
    + by intros [_ [? ?]].
Qed.

Lemma is_dir_spec fs q :
  is_dir fs q = true ↔ q = [] ∨ fs !! q = Some Dir.
Proof.
  unfold is_dir, node_at. destruct q as [|c q]; [by split; eauto|].
  destruct (fs !! (c :: q)) as [[n|]|]; split; try done; eauto.
  all: by intros [?|?].
Qed.

Lemma is_file_mono fs fs' q : fs' ⊆ fs → is_file fs' q = true → is_file fs q = true.
Proof.
  intros Hsub. rewrite !is_file_spec. intros [Hq [n Hn]]. split; [done|].
  exists n. by eapply lookup_weaken.
Qed.

Lemma is_dir_mono fs fs' q : fs' ⊆ fs → is_dir fs' q = true → is_dir fs q = true.
Proof.
  intros Hsub. rewrite !is_dir_spec. intros [->|Hn]; [by left|right].
  by eapply lookup_weaken.
Qed.

Lemma is_file_delete_ne fs c q : q ≠ c → is_file (delete c fs) q = is_file fs q.
Proof.
  intros Hne. unfold is_file, node_at. destruct q; [done|].
  by rewrite lookup_delete_ne.
Qed.

Lemma is_file_delete_eq fs c : is_file (delete c fs) c = false.
Proof.
  unfold is_file, node_at. destruct c; [done|]. by rewrite lookup_delete_eq.
Qed.

Lemma unlink_eq fs q : unlink fs q = if is_file fs q then Some (delete q fs) else None.
Proof. done. Qed.

End FSFacts.


Section Exec.
Implicit Types (fs : store) (p q : path).

Lemma remove_child_eq fs c :
  remove_child fs c = if is_file fs c then delete c fs else fs.
Proof. unfold remove_child, unlink. by destruct (is_file fs c). Qed.

Lemma remove_children_lookup l fs q :
  foldl remove_child fs l !! q =
    if bool_decide (q ∈ l) && is_file fs q then None else fs !! q.
Proof.
  revert fs. induction l as [|c l IH]; intros fs; [|simpl].
  { destruct (bool_decide (q ∈ [])) eqn:E; [|done].
    apply bool_decide_eq_true in E. by apply elem_of_nil in E. }
  rewrite IH, remove_child_eq.
  destruct (decide (q = c)) as [->|Hne].
  - destruct (is_file fs c) eqn:Hc.
    + rewrite is_file_delete_eq. rewrite andb_false_r. rewrite lookup_delete_eq.
      rewrite andb_true_r. rewrite bool_decide_eq_true_2; [done|]. left.
    + rewrite Hc, !andb_false_r. done.
  - assert (bool_decide (q ∈ c :: l) = bool_decide (q ∈ l)) as ->.
    { apply bool_decide_ext. rewrite elem_of_cons. tauto. }
    destruct (is_file fs c) eqn:Hc; [|done].
    rewrite is_file_delete_ne by done. by rewrite lookup_delete_ne.
Qed.


Lemma without_files_of_lookup fs p q :
  without_files_of fs p !! q =
    if child_of p q && is_file fs q then None else fs !! q.
Proof.
  unfold without_files_of. rewrite remove_children_lookup.
  destruct (is_file fs q) eqn:Hf; [|by rewrite !andb_false_r].
  rewrite !andb_true_r.
  destruct (child_of p q) eqn:Hc.
  - case_bool_decide as H; [done|]. exfalso. apply H.
    apply elem_of_sort_by, elem_of_iterdir. split; [|done].
    apply is_file_spec in Hf as [_ [n Hn]]. eauto.
  - case_bool_decide as H; [|done]. exfalso.
    apply elem_of_sort_by, elem_of_iterdir in H as [_ ?]. congruence.
Qed.

Lemma delete_on_disk_dir fs p :
  is_dir fs p = true →
  delete_on_disk fs p =
    match rmdir (without_files_of fs p) p with
    | Some fs2 => fs2
    | None => without_files_of fs p
    end.
Proof.
  intros Hd. unfold delete_on_disk.
  assert (exists_ fs p = true) as ->.
  { unfold exists_. unfold is_dir in Hd. by destruct (node_at fs p). }
  assert (is_file fs p = false) as ->.
  { unfold is_file. unfold is_dir in Hd. by destruct (node_at fs p) as [[]|]. }
  by rewrite Hd.
Qed.

End Exec.
Section Exec2.
Implicit Types (fs : store) (p q : path).

Lemma run_action_effect dry st a :
  run_action dry st a = apply_effect dry st (effect_of a).
Proof.
  unfold run_action, try_action, effect_of, add_result.
  destruct (is_str (get a (key "action")) "move").
  { destruct st. simpl. by rewrite app_nil_r. }
  destruct (is_str (get a (key "action")) "delete").
  { destruct (negb (truthy _)); [done|].
    destruct (to_path _); done. }
  destruct (is_str (get a (key "action")) "rename").
  { destruct st. simpl. by rewrite app_nil_r. }
  destruct (is_str _ "keep" || is_str _ "skip"); done.
Qed.

Lemma foldl_run_action dry actions st :
  foldl (run_action dry) st actions =
  foldl (apply_effect dry) st (map effect_of actions).
Proof.
  revert st. induction actions as [|a l IH]; intros st; simpl; [done|].
  by rewrite run_action_effect, IH.
Qed.

Lemma results_foldl_effects dry es st :
  results (foldl (apply_effect dry) st es) =
  results st ++ concat (map effect_results es).
Proof.
  revert st. induction es as [|e es IH]; intros st; simpl.
  { by rewrite app_nil_r. }
  rewrite IH. destruct e; simpl; by rewrite <- app_assoc.
Qed.

(** The executor only ever removes entries. *)
Lemma without_files_of_subseteq fs p : without_files_of fs p ⊆ fs.
Proof.
  apply map_subseteq_spec. intros q n. rewrite without_files_of_lookup.
  by destruct (child_of p q && is_file fs q).
Qed.

Lemma rmdir_subseteq fs p fs' : rmdir fs p = Some fs' → fs' ⊆ fs.
Proof.
  unfold rmdir. destruct p; [done|].
  destruct (is_dir _ _ && _); [|done]. intros [= <-]. apply delete_subseteq.
Qed.

Lemma delete_on_disk_subseteq fs p : delete_on_disk fs p ⊆ fs.
Proof.
  unfold delete_on_disk. destruct (exists_ fs p); [|done].
  destruct (is_file fs p) eqn:Hf.
  { unfold unlink. rewrite Hf. apply delete_subseteq. }
  destruct (is_dir fs p); [|done].
  fold (without_files_of fs p).
  destruct (rmdir _ p) eqn:Hr.
  - etrans; [by eapply rmdir_subseteq|]. apply without_files_of_subseteq.
  - apply without_files_of_subseteq.
Qed.

Lemma cleanup_folder_subseteq dry fs p : cleanup_folder dry fs p ⊆ fs.
Proof.
  unfold cleanup_folder. destruct (_ && _ && _); [|done].
  destruct (negb dry); [|done].
  destruct (rmdir fs p) eqn:Hr; [by eapply rmdir_subseteq|done].
Qed.

Lemma foldl_cleanup_subseteq dry l fs : foldl (cleanup_folder dry) fs l ⊆ fs.
Proof.
  revert fs. induction l as [|p l IH]; intros fs; simpl; [done|].
  etrans; [apply IH|]. apply cleanup_folder_subseteq.
Qed.

Lemma apply_effect_subseteq dry st e : disk (apply_effect dry st e) ⊆ disk st.
Proof.
  destruct e; simpl; [done|]. destruct (negb dry); [|done].
  apply delete_on_disk_subseteq.
Qed.

Lemma foldl_effects_subseteq dry es st :
  disk (foldl (apply_effect dry) st es) ⊆ disk st.
Proof.
  revert st. induction es as [|e es IH]; intros st; simpl; [done|].
  etrans; [apply IH|]. apply apply_effect_subseteq.
Qed.

Lemma settled_mono fs fs' p : fs' ⊆ fs → settled fs p → settled fs' p.
Proof.
  intros Hsub [Hf Hd]. split.
  - destruct (is_file fs' p) eqn:E; [|done].
    apply (is_file_mono fs) in E; [congruence|done].
  - intros Hd' q Hc. destruct (is_file fs' q) eqn:E; [|done].
    apply (is_file_mono fs) in E; [|done].
    rewrite Hd in E; [done| |done]. by eapply is_dir_mono.
Qed.

Lemma is_file_false_lookup fs q n : is_file fs q = false → q ≠ [] → fs !! q ≠ Some (File n).
Proof.
  intros Hf Hq Hn. assert (is_file fs q = true); [|congruence].
  apply is_file_spec. eauto.
Qed.

(** What a live delete leaves behind is settled. *)
Lemma delete_on_disk_settled fs p : settled (delete_on_disk fs p) p.
Proof.
  destruct (is_dir fs p) eqn:Hd.
  - rewrite delete_on_disk_dir by done.
    assert (settled (without_files_of fs p) p) as Hs.
    { split.
      - destruct (is_file (without_files_of fs p) p) eqn:E; [|done].
        apply (is_file_mono fs) in E; [|apply without_files_of_subseteq].
        unfold is_file in E. unfold is_dir in Hd. by destruct (node_at fs p) as [[]|].
      - intros _ q Hc. destruct (is_file (without_files_of fs p) q) eqn:E; [|done].
        apply is_file_spec in E as [Hq [n Hn]].
        rewrite without_files_of_lookup, Hc in Hn. simpl in Hn.
        destruct (is_file fs q) eqn:Hfq; [done|].
        by apply is_file_false_lookup in Hn. }
    destruct (rmdir _ p) eqn:Hr; [|done].
    eapply settled_mono; [by eapply rmdir_subseteq|done].
  - unfold delete_on_disk. rewrite Hd.
    destruct (exists_ fs p) eqn:He.
    + destruct (is_file fs p) eqn:Hf.
      * unfold unlink. rewrite Hf. split; [apply is_file_delete_eq|].
        intros Hd'. apply is_dir_spec in Hd' as [->|Hd']; [done|].
        by rewrite lookup_delete_eq in Hd'.
      * unfold exists_ in He. unfold is_file in Hf. unfold is_dir in Hd.
        by destruct (node_at fs p) as [[]|].
    + split.
      * unfold exists_ in He. unfold is_file. by destruct (node_at fs p).
      * intros Hd'. congruence.
Qed.

End Exec2.

Section Exec3.
Implicit Types (fs : store) (p q : path).

Lemma files_lookup fs q n :
  files fs !! q = Some n ↔ fs !! q = Some n ∧ is_file_node n = true.
Proof. unfold files. by rewrite map_lookup_filter_Some. Qed.

Lemma files_delete_dir fs p :
  (∀ n, fs !! p ≠ Some (File n)) → files (delete p fs) = files fs.
Proof.
  intros Hp. apply map_eq. intros q. apply option_eq. intros n.
  rewrite !files_lookup. destruct (decide (q = p)) as [->|Hne].
  - rewrite lookup_delete_eq. split; [by intros [? _]|].
    intros [Hn Hf]. destruct n; [by apply Hp in Hn|done].
  - by rewrite lookup_delete_ne.
Qed.

Lemma rmdir_files fs p fs' : rmdir fs p = Some fs' → files fs' = files fs.
Proof.
  unfold rmdir. destruct p as [|c p]; [done|].
  destruct (is_dir fs (c :: p)) eqn:Hd; [|done]. simpl.
  destruct (bool_decide _); [|done]. intros [= <-].
  apply files_delete_dir. intros n Hn.
  apply is_dir_spec in Hd as [|Hd]; congruence.
Qed.

Lemma without_files_of_settled fs p : settled fs p → is_dir fs p = true → without_files_of fs p = fs.
Proof.
  intros [_ Hs] Hd. apply map_eq. intros q. rewrite without_files_of_lookup.
  destruct (child_of p q) eqn:Hc; [|done]. by rewrite Hs.
Qed.

Lemma delete_on_disk_files fs p :
  settled fs p → files (delete_on_disk fs p) = files fs.
Proof.
  intros Hs. destruct (is_dir fs p) eqn:Hd.
  - rewrite delete_on_disk_dir, without_files_of_settled by done.
    destruct (rmdir fs p) eqn:Hr; [by eapply rmdir_files|done].
  - unfold delete_on_disk. destruct Hs as [-> _]. rewrite Hd.
    by destruct (exists_ fs p).
Qed.

Lemma cleanup_folder_files dry fs p : files (cleanup_folder dry fs p) = files fs.
Proof.
  unfold cleanup_folder. destruct (_ && _ && _); [|done].
  destruct (negb dry); [|done].
  destruct (rmdir fs p) eqn:Hr; [by eapply rmdir_files|done].
Qed.

Lemma foldl_cleanup_files dry l fs : files (foldl (cleanup_folder dry) fs l) = files fs.
Proof.
  revert fs. induction l as [|p l IH]; intros fs; simpl; [done|].
  by rewrite IH, cleanup_folder_files.
Qed.

Lemma effect_settled_mono fs fs' e :
  fs' ⊆ fs → effect_settled fs e → effect_settled fs' e.
Proof. destruct e; simpl; [done|]. apply settled_mono. Qed.

(** First run: every delete target ends up settled. *)
Lemma first_run_settles es st :
  Forall (effect_settled (disk (foldl (apply_effect false) st es))) es.
Proof.
  revert st. induction es as [|e es IH]; intros st; simpl; [constructor|].
  constructor; [|apply IH].
  eapply effect_settled_mono; [apply foldl_effects_subseteq|].
  destruct e; simpl; [done|]. apply delete_on_disk_settled.
Qed.

(** Second run: on settled targets no regular file is touched. *)
Lemma settled_run_files dry es st :
  Forall (effect_settled (disk st)) es →
  files (disk (foldl (apply_effect dry) st es)) = files (disk st).
Proof.
  revert st. induction es as [|e es IH]; intros st Hall; simpl; [done|].
  inversion Hall as [|? ? He Hes]; subst.
  rewrite IH.
  - destruct e; simpl; [done|]. destruct (negb dry); [|done].
    by apply delete_on_disk_files.
  - eapply Forall_impl; [exact Hes|]. intros e'.
    apply effect_settled_mono, apply_effect_subseteq.
Qed.

Lemma dry_run_disk es st : disk (foldl (apply_effect true) st es) = disk st.
Proof.
  revert st. induction es as [|e es IH]; intros st; simpl; [done|].
  rewrite IH. by destruct e.
Qed.

Lemma dry_cleanup l fs : foldl (cleanup_folder true) fs l = fs.
Proof.
  revert fs. induction l as [|p l IH]; intros fs; simpl; [done|].
  rewrite IH. unfold cleanup_folder. by destruct (_ && _ && _).
Qed.

Lemma execute_actions_results actions dry fs :
  (execute_actions actions dry fs).1 = concat (map effect_results (map effect_of actions)).
Proof.
  unfold execute_actions. simpl. by rewrite foldl_run_action, results_foldl_effects.
Qed.

Lemma execute_actions_dry actions fs : (execute_actions actions true fs).2 = fs.
Proof.
  unfold execute_actions. simpl. by rewrite dry_cleanup, foldl_run_action, dry_run_disk.
Qed.

Lemma execute_actions_subseteq actions dry fs : (execute_actions actions dry fs).2 ⊆ fs.
Proof.
  unfold execute_actions. simpl. etrans; [apply foldl_cleanup_subseteq|].
  rewrite foldl_run_action. apply foldl_effects_subseteq.
Qed.

Lemma execute_delete_twice ex s :
  (MovieCleanup2.execute_delete (MovieCleanup2.execute_delete ex s).2 s).1.1 = false.
Proof.
  unfold MovieCleanup2.execute_delete at 2.
  destruct (unlink _ _) as [fs'|] eqn:Hu; simpl.
  - unfold MovieCleanup2.execute_delete. simpl.
    unfold unlink in *. destruct (is_file (MovieCleanup2.disk ex) _) eqn:Hf; [|done].
    injection Hu as <-. by rewrite is_file_delete_eq.
  - unfold MovieCleanup2.execute_delete. by rewrite Hu.
Qed.

End Exec3.

(** ** Deleting a directory (C9) *)

Section DeleteDirectory.
Implicit Types (fs : store) (p q : path).

Lemma child_of_self p : child_of p p = false.
Proof.
  destruct p as [|c p]; [done|]. unfold child_of, parent.
  case_bool_decide as H; [|done]. exfalso.
  apply (f_equal length) in H. rewrite removelast_firstn_len, length_take in H.
  simpl in H. lia.
Qed.

Lemma effect_of_delete a s :
  get a (key "action") = str "delete" →
  por (get a (key "source")) (get a (key "path")) = PStr s →
  s ≠ [] →
  effect_of a = Deletes (PStr s) (parse_path s).
Proof.
  intros Ha Hs Hne. unfold effect_of. rewrite Ha, Hs.
  change (is_str (str "delete") "move") with false.
  change (is_str (str "delete") "delete") with true.
  cbn [truthy to_path]. by destruct s.
Qed.

Lemma iterdir_without_files_nil fs p :
  iterdir (without_files_of fs p) p = [] ↔
  forallb (is_file fs) (iterdir fs p) = true.
Proof.
  rewrite iterdir_nil, forallb_forall. split.
  - intros H q Hq. apply list_elem_of_In, elem_of_iterdir in Hq as [Hs Hc].
    destruct (is_file fs q) eqn:Hf; [done|].
    specialize (H q). rewrite without_files_of_lookup, Hc, Hf in H. simpl in H.
    by specialize (H Hs).
  - intros H q Hq. destruct (child_of p q) eqn:Hc; [|done].
    rewrite without_files_of_lookup, Hc in Hq. simpl in Hq.
    destruct (is_file fs q) eqn:Hf; [by destruct Hq|].
    rewrite H in Hf; [done|]. apply list_elem_of_In, elem_of_iterdir. by split.
Qed.

Lemma is_dir_without_files fs p : is_dir (without_files_of fs p) p = is_dir fs p.
Proof.
  unfold is_dir, node_at. destruct p as [|c p]; [done|].
  by rewrite without_files_of_lookup, child_of_self.
Qed.

(** The disk after a live delete of a directory. *)
Lemma delete_on_disk_dir_lookup fs p q :
  is_dir fs p = true →
  delete_on_disk fs p !! q =
    if bool_decide (q = p)
    then (if bool_decide (p ≠ []) && forallb (is_file fs) (iterdir fs p)
          then None else fs !! p)
    else (if child_of p q && is_file fs q then None else fs !! q).
Proof.
  intros Hd. rewrite delete_on_disk_dir by done.
  unfold rmdir. destruct p as [|c p].
  { rewrite without_files_of_lookup. case_bool_decide as Hq; [|done].
    subst q. by rewrite child_of_self. }
  rewrite is_dir_without_files, Hd. cbn [andb].
  assert (bool_decide (c :: p ≠ []) = true) as -> by (by apply bool_decide_eq_true_2).
  cbn [andb].
  destruct (forallb (is_file fs) (iterdir fs (c :: p))) eqn:Hall.
  - rewrite bool_decide_eq_true_2 by (by apply iterdir_without_files_nil).
    case_bool_decide as Hq.
    + subst q. by rewrite lookup_delete_eq.
    + rewrite lookup_delete_ne by done. apply without_files_of_lookup.
  - rewrite bool_decide_eq_false_2.
    2:{ rewrite iterdir_without_files_nil. congruence. }
    rewrite without_files_of_lookup.
    case_bool_decide as Hq; [|done]. subst q. by rewrite child_of_self.
Qed.

(** C9.  A live delete action on a directory [p]: the result is recorded
    with status ok whatever happens to the directory; every regular file
    directly inside [p] is removed; every other path except [p] itself, so
    in particular everything inside the subdirectories of [p], is left as it
    was; and [p] itself is removed exactly when all its entries were
    regular files (the [rmdir] succeeds), and stays otherwise (the failing
    [rmdir] is swallowed). *)
Theorem delete_directory_only_direct_files (st : exec_state) (a : dict) (s : list ascii) :
  get a (key "action") = str "delete" →
  por (get a (key "source")) (get a (key "path")) = PStr s →
  s ≠ [] →
  is_dir (disk st) (parse_path s) = true →
  let p := parse_path s in
  let st' := run_action false st a in
  results st' = results st ++ [ok_result (PStr s)] ∧
  (∀ q, child_of p q = true → is_file (disk st) q = true → disk st' !! q = None) ∧
  (∀ q, q ≠ p → child_of p q && is_file (disk st) q = false →
        disk st' !! q = disk st !! q) ∧
  disk st' !! p =
    (if bool_decide (p ≠ []) && forallb (is_file (disk st)) (iterdir (disk st) p)
     then None else disk st !! p).
Proof.
  intros Ha Hs Hne Hd p st'. subst p st'.
  rewrite run_action_effect, (effect_of_delete a s) by done.
  cbn [apply_effect results disk negb].
  split; [done|]. split; [|split].
  - intros q Hc Hf. rewrite delete_on_disk_dir_lookup by done.
    case_bool_decide as Hq; [subst q; by rewrite child_of_self in Hc|].
    by rewrite Hc, Hf.
  - intros q Hq Hn. rewrite delete_on_disk_dir_lookup by done.
    rewrite bool_decide_eq_false_2 by done. by rewrite Hn.
  - rewrite delete_on_disk_dir_lookup by done.
    by rewrite bool_decide_eq_true_2.
Qed.

End DeleteDirectory.

(** ** The result list (C3) and the source of a delete (C10) *)

(** Every action yields one result, except [move] and [rename], which
    yield none. *)
Lemma results_length (actions : list dict) (dry_run : bool) (fs : store) :
  length (execute_actions actions dry_run fs).1 =
  length (List.filter
            (fun a => negb (is_str (get a (key "action")) "move" ||
                            is_str (get a (key "action")) "rename"))
            actions).
Proof.
  rewrite execute_actions_results.
  induction actions as [|a l IH]; [done|].
  cbn [map concat List.filter]. rewrite length_app, IH.
  assert (length (effect_results (effect_of a)) =
          if negb (is_str (get a (key "action")) "move" ||
                   is_str (get a (key "action")) "rename") then 1 else 0) as ->.
  { unfold effect_of. destruct (get a (key "action")) as [| | |t| |] eqn:Ht;
      try done.
    unfold is_str.
    destruct (eqs t "move") eqn:E1; [done|].
    destruct (eqs t "delete") eqn:E2.
    { assert (eqs t "rename" = false) as ->.
      { destruct (eqs t "rename") eqn:E3; [|done].
        apply eqs_eq in E2, E3. rewrite E2 in E3. by vm_compute in E3. }
      destruct (negb _); [done|]. by destruct (to_path _). }
    destruct (eqs t "rename"); [done|]. by destruct (_ || _). }
  by destruct (negb _).
Qed.

(** C3.  A log that consists of one [move] action, or of one [rename]
    action, comes back with an empty result list: the action is neither
    executed nor recorded. *)
Theorem move_and_rename_leave_no_result (dry_run : bool) (fs : store) :
  (execute_actions [move_action] dry_run fs).1 = [] ∧
  (execute_actions [rename_action] dry_run fs).1 = [] ∧
  (execute_actions [delete_source "/a/x"; move_action; rename_action]
                   dry_run fs).1 = [ok_result (str "/a/x")].
Proof. by rewrite !execute_actions_results. Qed.

(** C10, as stated, fails: this action has the key [source] and still gets
    the missing-field error. *)
Lemma empty_source_counts_as_missing :
  let a : dict := {[ key "action" := str "delete"; key "source" := PStr [] ]} in
  a !! key "source" = Some (PStr []) ∧
  (execute_actions [a] false ∅).1 =
    [ {[ key "action" := str "delete"; key "status" := str "error";
         key "error" := str "delete action requires source" ]} ].
Proof. split; [done|]. by rewrite execute_actions_results. Qed.

(** C10, amended.  For a delete action: (i) when the key [source] is
    absent, the action behaves exactly like the action that carries the
    value of [path] under [source] instead; (ii) the [try] block raises the
    missing-field error exactly when neither [source] nor [path] holds a
    truthy value (absent, null, empty string, ...). *)
Theorem delete_reads_source_or_path (dry_run : bool) (st : exec_state) (a : dict) :
  get a (key "action") = str "delete" →
  (a !! key "source" = None →
   run_action dry_run st a =
   run_action dry_run st
     (<[key "source" := get a (key "path")]> (delete (key "path") a))) ∧
  (try_action dry_run st a = inl (ValueError "delete action requires source") ↔
   truthy (get a (key "source")) = false ∧ truthy (get a (key "path")) = false).
Proof.
  intros Ha. split.
  - intros Hs. unfold run_action, try_action.
    assert (get (<[key "source":=get a (key "path")]> (delete (key "path") a))
              (key "action") = str "delete") as ->.
    { unfold get in *. rewrite lookup_insert_ne, lookup_delete_ne by done. done. }
    rewrite Ha.
    change (is_str (str "delete") "move") with false.
    change (is_str (str "delete") "delete") with true. cbn [andb orb].
    assert (get a (key "source") = PNone) as -> by (unfold get; by rewrite Hs).
    assert (get (<[key "source":=get a (key "path")]> (delete (key "path") a))
              (key "source") = get a (key "path")) as ->.
    { unfold get at 1. by rewrite lookup_insert_eq. }
    assert (get (<[key "source":=get a (key "path")]> (delete (key "path") a))
              (key "path") = PNone) as ->.
    { unfold get at 1. by rewrite lookup_insert_ne, lookup_delete_eq by done. }
    unfold por. change (truthy PNone) with false. cbv iota.
    destruct (truthy (get a (key "path"))) eqn:Ht; rewrite ?Ht; done.
  - unfold try_action. rewrite Ha.
    change (is_str (str "delete") "move") with false.
    change (is_str (str "delete") "delete") with true. cbn [andb orb].
    unfold por. destruct (truthy (get a (key "source"))) eqn:Hs.
    + rewrite Hs. cbn [negb].
      destruct (to_path _) as [e|p] eqn:Hp; split; try done; try by intros [? _].
      intros [= ->]. destruct (get a (key "source")); try done.
    + destruct (truthy (get a (key "path"))) eqn:Hpth; cbn [negb].
      * destruct (to_path _) as [e|p] eqn:Hp; split; try done; try by intros [_ ?].
        intros [= ->]. destruct (get a (key "path")); try done.
      * done.
Qed.

(** C1, as stated, fails: the second run of this log removes the directory
    [/a], which the first run had left in place. *)
Lemma second_run_removes_a_directory :
  let run1 := execute_actions two_level_log false two_level_disk in
  let run2 := execute_actions two_level_log false run1.2 in
  run1.2 !! mkpath ["a"] = Some Dir ∧ run2.2 !! mkpath ["a"] = None ∧
  run2.2 ≠ run1.2.
Proof.
  assert ((execute_actions two_level_log false two_level_disk).2 !! mkpath ["a"]
          = Some Dir) as H1 by (vm_compute; reflexivity).
  assert ((execute_actions two_level_log false
             (execute_actions two_level_log false two_level_disk).2).2
            !! mkpath ["a"] = None) as H2 by (vm_compute; reflexivity).
  cbv zeta. split; [done|]. split; [done|]. intros H. rewrite H in H2. congruence.
Qed.

Lemma delete_directory_only_direct_files_witness :
  let st := ExecState [] ∅ nested_disk in
  let a := delete_source "/lib/m" in
  (get a (key "action") = str "delete" ∧
   por (get a (key "source")) (get a (key "path")) = str "/lib/m" ∧
   String.list_ascii_of_string "/lib/m" ≠ [] ∧
   is_dir (disk st) (parse_path "/lib/m") = true) ∧
  results (run_action false st a) = [ok_result (str "/lib/m")] ∧
  disk (run_action false st a) !! mkpath ["lib"; "m"; "m.mkv"] = None ∧
  disk (run_action false st a) !! mkpath ["lib"; "m"; "extras"; "e.mkv"]
    = Some (File 50) ∧
  disk (run_action false st a) !! mkpath ["lib"; "m"] = Some Dir.
Proof.
  intros st a.
  assert (get a (key "action") = str "delete") as H1 by reflexivity.
  assert (por (get a (key "source")) (get a (key "path")) = str "/lib/m") as H2
    by reflexivity.
  assert (String.list_ascii_of_string "/lib/m" ≠ []) as H3 by discriminate.
  assert (is_dir (disk st) (parse_path "/lib/m") = true) as H4
    by (vm_compute; reflexivity).
  split; [auto|].
  destruct (delete_directory_only_direct_files st a "/lib/m" H1 H2 H3 H4)
    as (Hr & Hrm & Hkeep & Hdir).
  split; [exact Hr|]. split; [|split].
  - apply Hrm; vm_compute; reflexivity.
  - rewrite Hkeep; [vm_compute; reflexivity|discriminate|vm_compute; reflexivity].
  - change (mkpath ["lib"; "m"]) with (parse_path "/lib/m").
    rewrite Hdir. vm_compute; reflexivity.
Defined.

Lemma delete_reads_source_or_path_witness :
  let st := ExecState [] ∅ two_level_disk in
  get (delete_path "/a/x") (key "action") = str "delete" ∧
  delete_path "/a/x" !! key "source" = None ∧
  run_action false st (delete_path "/a/x") =
  run_action false st
    (<[key "source" := get (delete_path "/a/x") (key "path")]>
       (delete (key "path") (delete_path "/a/x"))).
Proof.
  intros st.
  assert (get (delete_path "/a/x") (key "action") = str "delete") as H1
    by reflexivity.
  assert (delete_path "/a/x" !! key "source" = None) as H2 by reflexivity.
  split; [exact H1|]. split; [exact H2|].
  exact (proj1 (delete_reads_source_or_path false st (delete_path "/a/x") H1) H2).
Defined.

(** ** Replaying a log (C1) *)

(** C1, amended.  Running a log a second time on the file system left by
    the first run: the result list is the same as in the first run; no
    regular file is removed or changed, and nothing is created (the second
    run can still remove directories that the first run left empty); every
    delete action with a non-empty string source is again recorded with
    status ok, whether or not its path still exists.  In the executor of
    movie_cleanup_2.py, on the contrary, the second of two deletes of the
    same source always reports failure. *)
Theorem replay_keeps_results_and_files (actions : list dict) (dry_run : bool) (fs : store) :
  let run1 := execute_actions actions dry_run fs in
  let run2 := execute_actions actions dry_run run1.2 in
  run2.1 = run1.1 ∧ files run2.2 = files run1.2 ∧ run2.2 ⊆ run1.2 ∧
  (∀ a s, a ∈ actions → get a (key "action") = str "delete" →
          por (get a (key "source")) (get a (key "path")) = PStr s → s ≠ [] →
          ok_result (PStr s) ∈ run2.1) ∧
  (∀ ex s, (MovieCleanup2.execute_delete
              (MovieCleanup2.execute_delete ex s).2 s).1.1 = false).
Proof.
  cbv zeta. split; [by rewrite !execute_actions_results|].
  split; [|split; [apply execute_actions_subseteq|]].
  - destruct dry_run; [by rewrite !execute_actions_dry|].
    unfold execute_actions at 1. cbn [fst snd].
    rewrite foldl_cleanup_files, foldl_run_action.
    apply settled_run_files.
    assert (Forall (effect_settled
                      (disk (foldl (apply_effect false) (ExecState [] ∅ fs)
                                   (map effect_of actions))))
                   (map effect_of actions)) as H by apply first_run_settles.
    eapply Forall_impl; [exact H|]. intros e. apply effect_settled_mono.
    unfold execute_actions. cbn [fst snd disk]. rewrite foldl_run_action.
    apply foldl_cleanup_subseteq.
  - split; [|apply execute_delete_twice].
    intros a s Hin Ha Hs Hne. rewrite execute_actions_results.
    apply list_elem_of_In, in_concat. exists [ok_result (PStr s)].
    split; [|by left]. apply in_map_iff. exists (Deletes (PStr s) (parse_path s)).
    split; [done|]. apply in_map_iff. exists a. split; [|by apply list_elem_of_In].
    by apply effect_of_delete.
Qed.

Lemma replay_keeps_results_and_files_witness :
  let run1 := execute_actions two_level_log false two_level_disk in
  let run2 := execute_actions two_level_log false run1.2 in
  run1.2 !! mkpath ["a"; "x"] = None ∧
  ok_result (str "/a/x") ∈ run2.1.
Proof.
  intros run1 run2. split; [vm_compute; reflexivity|].
  destruct (replay_keeps_results_and_files two_level_log false two_level_disk)
    as (_ & _ & _ & Hok & _).
  apply (Hok (delete_source "/a/x") "/a/x").
  - left.
  - reflexivity.
  - reflexivity.
  - discriminate.
Defined.


(** ** Planning and the dry-run flag (C2) *)

Lemma remove_dup_dry (keep : folder) (st : list dict * store) (dup : folder) :
  (remove_dup true keep st dup).2 = st.2.
Proof. done. Qed.

Lemma handle_group_dry (st : list dict * store) (g : list ascii * list folder) :
  (handle_group true st g).2 = st.2.
Proof.
  unfold handle_group. destruct (resolve g.2) as [[keep remove]|]; [|done].
  revert st. induction remove as [|d l IH]; intros st; simpl; [done|].
  by rewrite IH.
Qed.

Lemma handle_duplicates_dry (root : path) (fs : store) :
  (handle_duplicates root true fs).2 = fs.
Proof.
  unfold handle_duplicates.
  generalize (List.filter (λ g : list ascii * list folder, (1 <? length g.2)%nat)
                (scan_groups fs root)).
  intros gs. change fs with ((@nil dict, fs).2) at 2.
  generalize (@nil dict, fs). induction gs as [|g gs IH]; intros st; simpl; [done|].
  by rewrite IH, handle_group_dry.
Qed.

Lemma rename_step_dry (tmdb : list ascii → option (list ascii)) (st : list dict * store) (item : path) :
  (rename_step tmdb true st item).2 = st.2.
Proof.
  unfold rename_step. destruct st as [actions fs]. simpl.
  destruct (negb (is_dir fs item)); [done|].
  destruct (MovieAnalyzer.is_radarr_format _); [done|].
  destruct (if no_year _ then _ else _) as [[|y0 y']|]; try done.
  by destruct (exists_ fs _).
Qed.

Lemma rename_for_radarr_dry (tmdb : list ascii → option (list ascii)) (root : path) (fs : store) :
  (rename_for_radarr tmdb root true fs).2 = fs.
Proof.
  unfold rename_for_radarr. generalize (sort_by path_leb (iterdir fs root)).
  intros items. change fs with ((@nil dict, fs).2) at 2.
  generalize (@nil dict, fs). induction items as [|i l IH]; intros st; simpl; [done|].
  by rewrite IH, rename_step_dry.
Qed.

(** C2, as stated, fails: called with [dry_run = False], the duplicate
    pass deletes the losing folder while it builds the action list. *)
Lemma live_planning_deletes :
  let out := handle_duplicates (mkpath ["lib"]) false duplicate_disk in
  length out.1 = 1%nat ∧
  duplicate_disk !! mkpath ["lib"; "Alien"; "alien.mkv"] = Some (File 900) ∧
  out.2 !! mkpath ["lib"; "Alien"; "alien.mkv"] = None ∧
  out.2 ≠ duplicate_disk.
Proof.
  assert ((handle_duplicates (mkpath ["lib"]) false duplicate_disk).2
            !! mkpath ["lib"; "Alien"; "alien.mkv"] = None) as H
    by (vm_compute; reflexivity).
  cbv zeta. split; [vm_compute; reflexivity|]. split; [reflexivity|].
  split; [exact H|]. intros E. rewrite E in H. discriminate H.
Qed.

(** C2, amended.  With [dry_run = True] the two planners, and the planning
    part of [main] that chains them, return the file system they were
    given: they only read it. *)
Theorem dry_run_planning_is_read_only
    (tmdb : list ascii → option (list ascii)) (root : path) (fs : store) :
  (handle_duplicates root true fs).2 = fs ∧
  (rename_for_radarr tmdb root true fs).2 = fs ∧
  (plan tmdb root true fs).2 = fs.
Proof.
  split; [apply handle_duplicates_dry|]. split; [apply rename_for_radarr_dry|].
  unfold plan.
  pose proof (handle_duplicates_dry root fs) as H1.
  destruct (handle_duplicates root true fs) as [a1 fs1]. simpl in H1. subst fs1.
  pose proof (rename_for_radarr_dry tmdb root fs) as H2.
  destruct (rename_for_radarr tmdb root true fs) as [a2 fs2]. by simpl in *.
Qed.

(** ** The keeper of a duplicate group (C6) *)

Lemma key_ge_total (x y : folder) : key_ge x y = true ∨ key_ge y x = true.
Proof.
  unfold key_ge.
  destruct (has_year x), (has_year y); try (by left); try (by right);
    rewrite !Z.leb_le; lia.
Qed.

Lemma key_ge_trans (x y z : folder) :
  key_ge x y = true → key_ge y z = true → key_ge x z = true.
Proof.
  unfold key_ge. destruct (has_year x), (has_year y), (has_year z); try done;
    rewrite !Z.leb_le; lia.
Qed.

Lemma key_ge_antisym (x y : folder) :
  key_ge x y = true → key_ge y x = true →
  has_year x = has_year y ∧ f_size x = f_size y.
Proof.
  unfold key_ge. destruct (has_year x), (has_year y); try done;
    rewrite !Z.leb_le; intros; (split; [done|lia]).
Qed.

(** The head of the sorted group dominates the whole group. *)
Lemma sort_by_head_max (l : list folder) (h : folder) (t : list folder) :
  folders_sorted l = h :: t → ∀ x, x ∈ l → key_ge h x = true.
Proof.
  unfold folders_sorted, sort_by. revert h t.
  induction l as [|a l IH]; intros h t Hs x Hx; [by apply elem_of_nil in Hx|].
  simpl in Hs. destruct (foldr (insert_by key_ge) [] l) as [|h0 t0] eqn:E.
  - destruct l as [|b l'].
    + simpl in Hs. injection Hs as <- <-. apply list_elem_of_singleton in Hx as ->.
      destruct (key_ge_total a a); done.
    + exfalso. assert (b ∈ foldr (insert_by key_ge) [] (b :: l')) as Hb.
      { change (b ∈ sort_by key_ge (b :: l')). apply elem_of_sort_by. left. }
      rewrite E in Hb. by apply elem_of_nil in Hb.
  - simpl in Hs. destruct (key_ge a h0) eqn:Ha.
    + injection Hs as <- <-. apply elem_of_cons in Hx as [->|Hx].
      * destruct (key_ge_total a a); done.
      * eapply key_ge_trans; [exact Ha|]. by eapply IH.
    + injection Hs as <- <-. apply elem_of_cons in Hx as [->|Hx].
      * destruct (key_ge_total a h0); [congruence|done].
      * by eapply IH.
Qed.

Lemma resolve_keeper_in (l : list folder) keep remove :
  resolve l = Some (keep, remove) → keep ∈ l.
Proof.
  unfold resolve. destruct (folders_sorted l) as [|h t] eqn:E; [done|].
  intros [= <- <-]. apply (elem_of_sort_by key_ge). unfold folders_sorted in E.
  rewrite E. left.
Qed.

Lemma resolve_keeper_max (l : list folder) keep remove :
  resolve l = Some (keep, remove) → ∀ x, x ∈ l → key_ge keep x = true.
Proof.
  unfold resolve. destruct (folders_sorted l) as [|h t] eqn:E; [done|].
  intros [= <- <-]. by eapply sort_by_head_max.
Qed.

(** C6, as stated, fails: two folders with the same key; listed in the
    other order, the other one is kept. *)
Lemma tied_group_keeper_depends_on_order :
  [tied_a; tied_b] ≡ₚ [tied_b; tied_a] ∧
  resolve [tied_a; tied_b] = Some (tied_a, [tied_b]) ∧
  resolve [tied_b; tied_a] = Some (tied_b, [tied_a]) ∧
  tied_a ≠ tied_b.
Proof.
  split; [apply Permutation_swap|]. split; [reflexivity|].
  split; [reflexivity|]. discriminate.
Qed.

(** C6, amended.  For two orderings of one group, the keeper of each has
    the largest key of the group (year present first, then size), so the
    two keepers agree on year presence and size; and when no other folder
    of the group reaches the key of the keeper, both orderings keep the
    same folder. *)
Theorem keeper_has_largest_key (l l' : list folder)
    (keep keep' : folder) (remove remove' : list folder) :
  l ≡ₚ l' →
  resolve l = Some (keep, remove) →
  resolve l' = Some (keep', remove') →
  (∀ x, x ∈ l → key_ge keep x = true) ∧
  has_year keep' = has_year keep ∧ f_size keep' = f_size keep ∧
  ((∀ x, x ∈ l → x ≠ keep → key_ge x keep = false) → keep' = keep).
Proof.
  intros Hp Hr Hr'.
  pose proof (resolve_keeper_max _ _ _ Hr) as Hmax.
  pose proof (resolve_keeper_max _ _ _ Hr') as Hmax'.
  pose proof (resolve_keeper_in _ _ _ Hr) as Hin.
  pose proof (resolve_keeper_in _ _ _ Hr') as Hin'.
  assert (keep' ∈ l) as Hin'l by (by rewrite Hp).
  assert (keep ∈ l') as Hinl' by (by rewrite <- Hp).
  split; [exact Hmax|].
  destruct (key_ge_antisym keep' keep (Hmax' _ Hinl') (Hmax _ Hin'l)) as [Hy Hsz].
  split; [exact Hy|]. split; [exact Hsz|].
  intros Huniq. destruct (decide (keep' = keep)) as [|Hne]; [done|].
  specialize (Huniq keep' Hin'l Hne). rewrite (Hmax' _ Hinl') in Huniq. done.
Qed.

Lemma keeper_has_largest_key_witness :
  let a := Folder (mkpath ["lib"; "Alien"]) "Alien" None 900 1 in
  let b := tied_a in
  ([a; b] ≡ₚ [b; a] ∧ resolve [a; b] = Some (b, [a]) ∧
   resolve [b; a] = Some (b, [a])) ∧
  key_ge b a = true ∧ has_year b = has_year b.
Proof.
  intros a b.
  assert ([a; b] ≡ₚ [b; a]) as H1 by apply Permutation_swap.
  assert (resolve [a; b] = Some (b, [a])) as H2 by reflexivity.
  assert (resolve [b; a] = Some (b, [a])) as H3 by reflexivity.
  split; [auto|].
  destruct (keeper_has_largest_key [a; b] [b; a] b b [a] [a] H1 H2 H3)
    as (Hmax & Hy & _ & _).
  split; [|exact Hy]. apply Hmax. left.
Defined.

(** ** The size tie-break (C4) *)

Section SizeTest.
Import DownloadsImport.
Local Open Scope Z_scope.

(** What [round53] returns: a non-negative exponent, bounded by the length
    of the argument, and a value between the argument rounded down to a
    multiple of [2^e] and the argument plus half of [2^e]. *)
Lemma round53_spec (P : Z) :
  0 ≤ P →
  let '(q, e) := round53 P in
  0 ≤ e ∧ e ≤ Z.max 0 (Z.log2 P - 52) ∧
  (P / 2 ^ e) * 2 ^ e ≤ q * 2 ^ e ∧ 2 * (q * 2 ^ e) ≤ 2 * P + 2 ^ e.
Proof.
  intros HP. unfold round53.
  destruct (Z.leb_spec (Z.log2 P + 1) 53) as [Hb|Hb].
  { rewrite Z.pow_0_r, Z.div_1_r. lia. }
  set (e := Z.log2 P + 1 - 53). assert (1 ≤ e) as He by lia.
  rewrite Z.shiftr_div_pow2, !Z.shiftl_mul_pow2 by lia. rewrite Z.mul_1_l.
  set (T := 2 ^ e). set (H := 2 ^ (e - 1)).
  assert (T = 2 * H) as HT.
  { unfold T, H. replace e with (1 + (e - 1)) at 1 by lia.
    rewrite Z.pow_add_r by lia. done. }
  assert (0 < H) as HH by (apply Z.pow_pos_nonneg; lia).
  pose proof (Z.div_mod P T ltac:(lia)) as Hdm.
  pose proof (Z.mod_pos_bound P T ltac:(lia)) as Hmod.
  set (q0 := P / T) in *. set (r := P mod T) in *.
  assert (P - q0 * T = r) as -> by lia.
  destruct ((H <? r) || (r =? H) && Z.odd q0) eqn:Hup.
  - assert (H ≤ r) as Hr.
    { apply orb_true_iff in Hup as [Hup|Hup].
      - apply Z.ltb_lt in Hup. lia.
      - apply andb_true_iff in Hup as [Hup _]. apply Z.eqb_eq in Hup. lia. }
    split; [lia|]. split; [lia|].
    change (2 ^ e) with T. change (P / T) with q0. clearbody T H q0 r.
    split; nia.
  - split; [lia|]. split; [lia|].
    change (2 ^ e) with T. change (P / T) with q0. clearbody T H q0 r.
    split; nia.
Qed.

Lemma m11_times_10 : 10 * m11 = 11 * 2 ^ 51 + 2.
Proof. reflexivity. Qed.

(** Below 2^48 bytes the floating-point test is the exact test "more than
    10% larger". *)
Lemma size_exceeds_exact (n e : Z) :
  0 ≤ e < 2 ^ 48 → size_exceeds n e = (11 * e <? 10 * n).
Proof.
  intros [He0 He].
  unfold size_exceeds.
  assert (round53 e = (e, 0)) as ->.
  { unfold round53. destruct (Z.leb_spec (Z.log2 e + 1) 53) as [|Hb]; [done|].
    exfalso. destruct (decide (e = 0)) as [->|Hne]; [simpl in Hb; lia|].
    assert (Z.log2 e < 48) by (apply Z.log2_lt_pow2; lia). lia. }
  pose proof (round53_spec (e * m11) ltac:(unfold m11; lia)) as Hspec.
  destruct (round53 (e * m11)) as [q2 e2].
  destruct Hspec as (He2 & Hmax & Hlo & Hhi).
  rewrite !Z.shiftl_mul_pow2 by lia. rewrite Z.add_0_l.
  assert (e2 ≤ 47) as He47.
  { destruct (decide (e * m11 = 0)) as [Hz|Hnz].
    { rewrite Hz in Hmax. simpl in Hmax. lia. }
    assert (Z.log2 (e * m11) < 100); [|lia].
    apply Z.log2_lt_pow2; [unfold m11 in *; lia|].
    assert (m11 < 2 ^ 52) by reflexivity.
    replace (2 ^ 100) with (2 ^ 48 * 2 ^ 52) by reflexivity.
    unfold m11 in *. nia. }
  set (T := 2 ^ e2) in *.
  assert (0 < T) as HT by (apply Z.pow_pos_nonneg; lia).
  assert (T ≤ 2 ^ 47) as HT47 by (apply Z.pow_le_mono_r; lia).
  assert (2 ^ 51 = 2 ^ (51 - e2) * T) as H51.
  { unfold T. rewrite <- Z.pow_add_r by lia. f_equal. lia. }
  assert (0 < 2 ^ (51 - e2)) as HK by (apply Z.pow_pos_nonneg; lia).
  pose proof m11_times_10 as Hm.
  set (P := e * m11) in *.
  assert (10 * P = 11 * e * 2 ^ 51 + 2 * e) as HP by (unfold P; lia).
  change (2 ^ 47) with 140737488355328 in HT47.
  change (2 ^ 48) with 281474976710656 in He.
  destruct (Z.ltb_spec (11 * e) (10 * n)) as [Hlt|Hge].
  - apply Z.ltb_lt.
    change (2 ^ 51) with 2251799813685248 in *. lia.
  - apply Z.ltb_ge.
    (* n * 2^51 is a multiple of T that does not exceed P *)
    assert (n * 2 ^ 51 ≤ P) as HnP.
    { change (2 ^ 51) with 2251799813685248 in HP |- *. lia. }
    assert (n * 2 ^ (51 - e2) ≤ P / T) as Hk.
    { apply Z.div_le_lower_bound; [done|]. rewrite H51 in HnP. lia. }
    rewrite H51. 
    assert (n * 2 ^ (51 - e2) * T ≤ P / T * T) by nia. lia.
Qed.

End SizeTest.

(** ** The matcher against the set of matches *)

Section MatcherFacts.
Context {A : Type}.
Implicit Types (k : mstate → option A) (r : re).

Lemma rep_sound g p lo hi b a (kk : list ascii → list ascii → option A) x :
  rep g p lo hi b a kk = Some x →
  ∃ w a', a = w ++ a' ∧ forallb p w = true ∧ within (length w) lo hi ∧
          kk (rev w ++ b) a' = Some x.
Proof.
  revert lo hi b x. induction a as [|c a IH]; intros lo hi b x; simpl.
  - assert (within 0 0 hi) as Hin by (split; [lia|destruct hi; lia]).
    destruct g, lo; try done.
    + intros Hk. by exists [], [].
    + destruct (kk b []) eqn:E; [|done]. intros [= <-]. by exists [], [].
  - assert (∀ y, (if p c && can_more hi
                  then rep g p (pred lo) (dec_hi hi) (c :: b) a kk else None) = Some y →
              ∃ w a', c :: a = w ++ a' ∧ forallb p w = true ∧
                      within (length w) lo hi ∧ kk (rev w ++ b) a' = Some y) as Hmore.
    { intros y. destruct (p c) eqn:Hp; [|done]. destruct (can_more hi) eqn:Hc; [|done].
      simpl. intros Hr. apply IH in Hr as (w & a' & -> & Hw & [Hlo Hhi] & Hk).
      exists (c :: w), a'. split; [done|]. split; [simpl; by rewrite Hp|].
      split.
      - split; [simpl; lia|]. destruct hi as [[|h]|]; simpl in *; try done. lia.
      - simpl. by rewrite <- app_assoc. }
    assert (∀ y, match lo with O => kk b (c :: a) | S _ => None end = Some y →
              ∃ w a', c :: a = w ++ a' ∧ forallb p w = true ∧
                      within (length w) lo hi ∧ kk (rev w ++ b) a' = Some y) as Hstop.
    { intros y. destruct lo; [|done]. intros Hk. exists [], (c :: a).
      split; [done|]. split; [done|]. split; [|done].
      split; [simpl; lia|destruct hi; simpl; lia]. }
    destruct g.
    + destruct (if p c && can_more hi then _ else None) eqn:E.
      * intros [= <-]. by apply Hmore.
      * apply Hstop.
    + destruct (match lo with O => _ | S _ => None end) eqn:E.
      * intros [= <-]. by apply Hstop.
      * apply Hmore.
Qed.

Lemma rep_complete g p lo hi b w a' (kk : list ascii → list ascii → option A) :
  forallb p w = true → within (length w) lo hi →
  kk (rev w ++ b) a' ≠ None →
  rep g p lo hi b (w ++ a') kk ≠ None.
Proof.
  revert lo hi b. induction w as [|c w IH]; intros lo hi b Hw [Hlo Hhi] Hk.
  - simpl in *. assert (lo = 0)%nat as -> by lia.
    destruct a' as [|c a']; simpl.
    + destruct g; [done|]. by destruct (kk b []).
    + destruct g.
      * by destruct (if p c && can_more hi then _ else None).
      * by destruct (kk b (c :: a')).
  - simpl in Hw. apply andb_true_iff in Hw as [Hp Hw].
    assert (can_more hi = true) as Hc.
    { destruct hi as [[|h]|]; simpl in *; try done. lia. }
    assert (rep g p (pred lo) (dec_hi hi) (c :: b) (w ++ a') kk ≠ None) as Hrec.
    { apply IH; [done| |].
      - split; [simpl in *; lia|]. destruct hi as [[|h]|]; simpl in *; try done. lia.
      - simpl in Hk. by rewrite <- app_assoc in Hk. }
    simpl. rewrite Hp, Hc. simpl.
    destruct g.
    + by destruct (rep true p (pred lo) (dec_hi hi) (c :: b) (w ++ a') kk).
    + by destruct (match lo with O => _ | S _ => None end).
Qed.

Lemma m_sound r st k x :
  m r st k = Some x →
  ∃ st', den r (before st) (after st) (before st') (after st') ∧ k st' = Some x.
Proof.
  revert st k x. induction r as [|p|r1 IH1 r2 IH2|r1 IH1 r2 IH2|g p lo hi|i r1 IH1| | | |p];
    intros st k x; simpl.
  - intros Hk. by exists st.
  - destruct (after st) as [|c a'] eqn:Ha; [done|]. destruct (p c) eqn:Hp; [|done].
    intros Hk. eexists. split; [|exact Hk]. simpl. by exists c.
  - intros H1. apply IH1 in H1 as (st1 & Hd1 & H2).
    apply IH2 in H2 as (st2 & Hd2 & Hk). exists st2. split; [|done].
    by exists (before st1), (after st1).
  - destruct (m r1 st k) eqn:E1.
    + intros [= <-]. apply IH1 in E1 as (st' & Hd & Hk).
      exists st'. split; [by left|done].
    + intros E2. apply IH2 in E2 as (st' & Hd & Hk).
      exists st'. split; [by right|done].
  - intros Hr. apply rep_sound in Hr as (w & a' & Ha & Hw & Hin & Hk).
    eexists. split; [|exact Hk]. simpl. exists w. done.
  - intros H1. apply IH1 in H1 as (st1 & Hd1 & Hk).
    eexists. split; [|exact Hk]. done.
  - destruct (before st) eqn:Hb; [|done]. intros Hk. exists st. by rewrite Hb.
  - destruct (at_eol (after st)) eqn:He; [|done]. intros Hk. by exists st.
  - destruct (at_wordb _ _) eqn:He; [|done]. intros Hk. by exists st.
  - destruct (after st) as [|c t] eqn:Ha; [done|]. destruct (p c) eqn:Hp; [|done].
    intros Hk. exists st. rewrite Ha. split; [|done].
    split; [|done]. by exists c, t.
Qed.

Lemma m_complete r b a b' a' st k :
  den r b a b' a' → before st = b → after st = a →
  (∀ st', before st' = b' → after st' = a' → k st' ≠ None) →
  m r st k ≠ None.
Proof.
  revert b a b' a' st k.
  induction r as [|p|r1 IH1 r2 IH2|r1 IH1 r2 IH2|g p lo hi|i r1 IH1| | | |p];
    intros b a b' a' st k Hd Hb Ha Hk; simpl in *.
  - destruct Hd as [-> ->]. by apply Hk.
  - destruct Hd as (c & -> & -> & Hp). rewrite Ha, Hp. apply Hk; simpl; congruence.
  - destruct Hd as (b1 & a1 & Hd1 & Hd2).
    apply (IH1 _ _ _ _ _ _ Hd1 Hb Ha). intros st1 Hb1 Ha1.
    apply (IH2 _ _ _ _ _ _ Hd2 Hb1 Ha1). exact Hk.
  - destruct Hd as [Hd|Hd].
    + assert (m r1 st k ≠ None) by apply (IH1 _ _ _ _ _ _ Hd Hb Ha Hk).
      by destruct (m r1 st k).
    + destruct (m r1 st k); [done|]. apply (IH2 _ _ _ _ _ _ Hd Hb Ha Hk).
  - destruct Hd as (w & -> & -> & Hw & Hin). rewrite Hb, Ha.
    apply rep_complete; [done|done|]. by apply Hk.
  - apply (IH1 _ _ _ _ _ _ Hd Hb Ha). intros st1 Hb1 Ha1. by apply Hk.
  - destruct Hd as (-> & -> & ->). rewrite Hb. by apply Hk.
  - destruct Hd as (He & -> & ->). rewrite Ha, He. by apply Hk.
  - destruct Hd as (He & -> & ->). rewrite Hb, Ha, He. by apply Hk.
  - destruct Hd as ((c & t & -> & Hp) & -> & ->). rewrite Ha, Hp. by apply Hk.
Qed.

Lemma scan_sound r b a k x :
  scan r b a k = Some x →
  ∃ w a0 st', a = w ++ a0 ∧
              den r (rev w ++ b) a0 (before st') (after st') ∧ k st' = Some x.
Proof.
  revert b. induction a as [|c a IH]; intros b; simpl.
  - destruct (m r _ k) eqn:E; [|done]. intros [= <-].
    apply m_sound in E as (st' & Hd & Hk). exists [], [], st'. done.
  - destruct (m r _ k) eqn:E.
    + intros [= <-]. apply m_sound in E as (st' & Hd & Hk).
      exists [], (c :: a), st'. done.
    + intros Hs. apply IH in Hs as (w & a0 & st' & -> & Hd & Hk).
      exists (c :: w), a0, st'. split; [done|]. split; [|done].
      simpl. by rewrite <- app_assoc.
Qed.

Lemma scan_complete r b w a0 b' a' k :
  den r (rev w ++ b) a0 b' a' →
  (∀ st', k st' ≠ None) →
  scan r b (w ++ a0) k ≠ None.
Proof.
  revert b. induction w as [|c w IH]; intros b Hd Hk.
  - simpl in Hd. 
    assert (m r (MState b a0 []) k ≠ None) as Hm.
    { apply (m_complete r b a0 b' a' _ k Hd); [done|done|]. intros; apply Hk. }
    destruct a0; simpl; by destruct (m r _ k).
  - simpl. destruct (m r _ k); [done|]. apply IH; [|done].
    simpl in Hd. by rewrite <- app_assoc in Hd.
Qed.

End MatcherFacts.

(** [re.search] finds a match exactly when the pattern occurs. *)
Lemma search_occurs (r : re) (s : list ascii) :
  search r s ≠ None ↔ occurs r s.
Proof.
  unfold search, occurs. split.
  - destruct (scan r [] s Some) as [st|] eqn:E; [|done]. intros _.
    apply scan_sound in E as (w & a0 & st' & -> & Hd & _).
    rewrite app_nil_r in Hd. eauto 10.
  - intros (w & a & b' & a' & -> & Hd). apply scan_complete with b' a'; [|done].
    by rewrite app_nil_r.
Qed.

(** ** TV detection and extraction (C5) *)

Section TvShows.
Import DownloadsImport.









End TvShows.

Section TieBreak.
Import DownloadsImport.
Local Open Scope Z_scope.

(** C4, as stated, fails: both scores are 0 and the existing file is twice
    the size of the new one, yet neither returned score carries the bonus. *)
Lemma larger_existing_file_gets_no_bonus :
  (extract_quality_info "/dl/film.mkv").1 = 0 ∧
  (extract_quality_info "/lib/film/film.mkv").1 = 0 ∧
  getsize 4096 larger_existing_disk (parse_path "/dl/film.mkv") = Some 100 ∧
  getsize 4096 larger_existing_disk (parse_path "/lib/film/film.mkv") = Some 200 ∧
  compare_quality 4096 larger_existing_disk "/dl/film.mkv" "/lib/film/film.mkv"
    = (false, 0, 0, QualityInfo 0 [] false [], QualityInfo 0 [] false []).
Proof. repeat split; vm_compute; reflexivity. Qed.

(** C4, amended.  [compare_quality] never changes the score of the
    existing file; the score it returns for the new file is its fresh
    score, or that score plus 50; the bonus is there exactly when the two
    fresh scores are equal, both sizes can be read and the size test
    succeeds, which for an existing file below 2^48 bytes means that the
    new file is more than 10% larger; and the verdict compares the two
    returned scores strictly. *)
Theorem bonus_only_for_a_larger_new_file
    (dir_size : Z) (fs : store) (new_file existing_file : list ascii) :
  let sn := (extract_quality_info new_file).1 in
  let se := (extract_quality_info existing_file).1 in
  let '(better, ns, es, _, _) :=
    compare_quality dir_size fs new_file existing_file in
  es = se ∧ (ns = sn ∨ ns = sn + 50) ∧ better = (es <? ns) ∧
  (ns = sn + 50 ↔
   sn = se ∧ ∃ n e, getsize dir_size fs (parse_path new_file) = Some n ∧
                    getsize dir_size fs (parse_path existing_file) = Some e ∧
                    size_exceeds n e = true) ∧
  (∀ n e, getsize dir_size fs (parse_path new_file) = Some n →
          getsize dir_size fs (parse_path existing_file) = Some e →
          0 ≤ e < 2 ^ 48 →
          (ns = sn + 50 ↔ sn = se ∧ 11 * e < 10 * n)).
Proof.
  unfold compare_quality.
  destruct (extract_quality_info new_file) as [sn ni].
  destruct (extract_quality_info existing_file) as [se ei]. cbn [fst].
  destruct (getsize dir_size fs (parse_path new_file)) as [n|] eqn:Hn.
  2:{ split; [done|]. split; [by left|]. split; [done|]. split.
      - split; [lia|]. by intros (_ & n & e & ? & _).
      - intros n e ?. done. }
  destruct (getsize dir_size fs (parse_path existing_file)) as [e|] eqn:He.
  2:{ split; [done|]. split; [by left|]. split; [done|]. split.
      - split; [lia|]. by intros (_ & n' & e & _ & ? & _).
      - intros n' e _ ?. done. }
  destruct (Z.eqb_spec sn se) as [Heq|Hne].
  2:{ split; [done|]. split; [by left|]. split; [done|]. split.
      - split; [lia|]. by intros [? _].
      - intros n' e' _ _ _. split; [lia|]. by intros [? _]. }
  destruct (size_exceeds n e) eqn:Hx.
  - split; [done|]. split; [by right|]. split; [done|]. split.
    + split; [|done]. intros _. split; [done|]. by exists n, e.
    + intros n' e' [= <-] [= <-] Hb. rewrite size_exceeds_exact in Hx by done.
      apply Z.ltb_lt in Hx. split; [done|]. intros _. done.
  - split; [done|]. split; [by left|]. split; [done|]. split.
    + split; [lia|]. intros (_ & n' & e' & [= <-] & [= <-] & Hx'). congruence.
    + intros n' e' [= <-] [= <-] Hb. rewrite size_exceeds_exact in Hx by done.
      apply Z.ltb_ge in Hx. split; [lia|]. intros [_ ?]. lia.
Qed.

Lemma bonus_only_for_a_larger_new_file_witness :
  (getsize 4096 larger_new_disk (parse_path "/dl/film.mkv") = Some 200 ∧
   getsize 4096 larger_new_disk (parse_path "/lib/film/film.mkv") = Some 100 ∧
   0 ≤ 100 < 2 ^ 48) ∧
  (compare_quality 4096 larger_new_disk "/dl/film.mkv" "/lib/film/film.mkv").1.1.1.2
    = (extract_quality_info "/dl/film.mkv").1 + 50.
Proof.
  assert (getsize 4096 larger_new_disk (parse_path "/dl/film.mkv") = Some 200)
    as H1 by (vm_compute; reflexivity).
  assert (getsize 4096 larger_new_disk (parse_path "/lib/film/film.mkv") = Some 100)
    as H2 by (vm_compute; reflexivity).
  assert (0 ≤ 100 < 2 ^ 48) as H3 by lia.
  split; [auto|].
  pose proof (bonus_only_for_a_larger_new_file 4096 larger_new_disk
                "/dl/film.mkv" "/lib/film/film.mkv") as H.
  cbv zeta in H.
  destruct (compare_quality 4096 larger_new_disk "/dl/film.mkv" "/lib/film/film.mkv")
    as [[[[better ns] es] i1] i2].
  destruct H as (_ & _ & _ & _ & H). cbn [fst snd].
  apply (H 200 100 H1 H2 H3). split; [vm_compute; reflexivity|lia].
Defined.

End TieBreak.

(** ** Replacing an existing file on import (C8) *)

Section Paths.

Lemma split_on_go_app (sep : ascii) (cur a s : list ascii) :
  split_on_go sep cur (a ++ sep :: s) =
  match split_on_go sep cur a with
  | [] => split_on sep s
  | l => l ++ split_on sep s
  end.
Proof.
  revert cur. induction a as [|x a IH]; intros cur; simpl.
  - by rewrite eqc_refl.
  - destruct (eqc x sep); [|apply IH].
    fold (split_on sep (a ++ sep :: s)). unfold split_on at 1. rewrite IH. simpl.
    by destruct (split_on_go sep [] a).
Qed.

Lemma split_on_go_nonempty (sep : ascii) (cur a : list ascii) :
  split_on_go sep cur a ≠ [].
Proof.
  revert cur. induction a as [|x a IH]; intros cur; simpl; [done|].
  destruct (eqc x sep); [done|apply IH].
Qed.

Lemma split_on_app (sep : ascii) (a s : list ascii) :
  split_on sep (a ++ sep :: s) = split_on sep a ++ split_on sep s.
Proof.
  unfold split_on at 1 2. rewrite split_on_go_app.
  pose proof (split_on_go_nonempty sep [] a). by destruct (split_on_go sep [] a).
Qed.

Lemma split_on_go_no_sep (sep : ascii) (cur c : list ascii) :
  has_char sep c = false → split_on_go sep cur c = [rev cur ++ c].
Proof.
  revert cur. induction c as [|x c IH]; intros cur; simpl.
  - by rewrite app_nil_r.
  - unfold has_char in *. simpl. intros H. apply orb_false_iff in H as [Hx Hc].
    assert (eqc x sep = false) as ->.
    { unfold eqc in *. by rewrite N.eqb_sym. }
    rewrite IH by done. simpl. by rewrite <- app_assoc.
Qed.

Lemma parse_path_name (c : list ascii) : valid_name c → parse_path c = [c].
Proof.
  intros (Hne & Hdot & Hsep). unfold parse_path, split_on.
  rewrite split_on_go_no_sep by done. cbn [rev app List.filter].
  assert (eqs c [] = false) as ->.
  { destruct (eqs c []) eqn:E1; [by apply eqs_eq in E1|done]. }
  assert (eqs c "." = false) as ->.
  { destruct (eqs c ".") eqn:E2; [by apply eqs_eq in E2|done]. }
  done.
Qed.

Lemma parse_path_app_sep (a s : list ascii) :
  parse_path (a ++ "/"%char :: s) = parse_path a ++ parse_path s.
Proof. unfold parse_path. by rewrite split_on_app, List.filter_app. Qed.

Lemma parse_path_nil : parse_path [] = [].
Proof. reflexivity. Qed.

Lemma ends_with_slash (a : list ascii) :
  ends_with "/" a = true → ∃ a0, a = a0 ++ ["/"%char].
Proof.
  unfold ends_with. destruct (rev a) as [|x r] eqn:E; simpl; [done|].
  rewrite andb_true_r, eqc_eq. intros ->. exists (rev r).
  apply (f_equal (@rev ascii)) in E. rewrite rev_involutive in E. by rewrite E.
Qed.

Lemma parse_path_join (a c : list ascii) :
  valid_name c →
  parse_path (DownloadsImport.path_join a c) = parse_path a ++ [c].
Proof.
  intros Hc. unfold DownloadsImport.path_join. destruct a as [|x a].
  { by rewrite parse_path_name. }
  destruct (ends_with "/" (x :: a)) eqn:E.
  - apply ends_with_slash in E as [a0 ->].
    rewrite <- app_assoc. simpl.
    rewrite !parse_path_app_sep, parse_path_nil, app_nil_r.
    by rewrite (parse_path_name c).
  - change (parse_path ((x :: a) ++ "/"%char :: c) = parse_path (x :: a) ++ [c]).
    rewrite parse_path_app_sep. by rewrite (parse_path_name c).
Qed.

Lemma parse_path_joins (a : list ascii) (cs : list (list ascii)) :
  Forall valid_name cs →
  parse_path (foldl DownloadsImport.path_join a cs) = parse_path a ++ cs.
Proof.
  revert a. induction cs as [|c cs IH]; intros a Hcs; simpl.
  { by rewrite app_nil_r. }
  inversion Hcs; subst. rewrite IH by done. rewrite parse_path_join by done.
  by rewrite <- app_assoc.
Qed.

End Paths.

Section Replace.
Import DownloadsImport.
Local Open Scope Z_scope.

Lemma check_file_hit (fs : store) (root_folder filename existing : list ascii) :
  check_file_exists_in_tree fs root_folder filename = Some existing →
  ∃ q, existing = foldl path_join root_folder (drop (length (parse_path root_folder)) q) ∧
       parse_path root_folder `prefix_of` q ∧ is_file fs q = true ∧
       name q = filename.
Proof.
  unfold check_file_exists_in_tree.
  destruct (walk_hits fs (parse_path root_folder) filename) as [|q l] eqn:E; [done|].
  intros [= <-]. exists q. split; [done|].
  assert (q ∈ walk_hits fs (parse_path root_folder) filename) as Hin
    by (rewrite E; left).
  unfold walk_hits in Hin. apply elem_of_sort_by in Hin.
  apply list_elem_of_In, filter_In in Hin as [_ Hq].
  apply andb_true_iff in Hq as [Hq Hn]. apply andb_true_iff in Hq as [Hq Hf].
  apply andb_true_iff in Hq as [Hp _]. apply bool_decide_eq_true in Hp.
  apply eqs_eq in Hn. done.
Qed.




End Replace.




(** ** Letter case and the clean name (C7) *)

Section CaseFacts.

Ltac all_chars c :=
  destruct c as [[] [] [] [] [] [] [] []]; vm_compute; reflexivity.

Lemma to_lower_idem c : to_lower (to_lower c) = to_lower c.
Proof. all_chars c. Qed.
Lemma is_space_lower c : is_space (to_lower c) = is_space c.
Proof. all_chars c. Qed.
Lemma is_word_lower c : is_word (to_lower c) = is_word c.
Proof. all_chars c. Qed.
Lemma eqc_lower_newline c : eqc (to_lower c) "010" = eqc c "010".
Proof. all_chars c. Qed.
Lemma to_lower_space : to_lower " " = " "%char.
Proof. reflexivity. Qed.




Lemma lower_app a b : lower (a ++ b) = lower a ++ lower b.
Proof. apply map_app. Qed.








End CaseFacts.

Section CaselessMatching.
Context {A B : Type} (R : A → B → Prop).

Lemma rep_lower g p lo hi b a
    (kk : list ascii → list ascii → option A)
    (kk' : list ascii → list ascii → option B) :
  caseless p →
  (∀ b1 a1, option_Forall2 R (kk b1 a1) (kk' (lower b1) (lower a1))) →
  option_Forall2 R (rep g p lo hi b a kk) (rep g p lo hi (lower b) (lower a) kk').
Proof.
  intros Hp Hk. revert lo hi b. induction a as [|c a IH]; intros lo hi b; simpl.
  - pose proof (Hk b []) as H. change (lower []) with (@nil ascii) in H.
    destruct g, lo; try constructor; try exact H.
    destruct H; by constructor.
  - rewrite Hp.
    assert (option_Forall2 R
              (if p c && can_more hi
               then rep g p (pred lo) (dec_hi hi) (c :: b) a kk else None)
              (if p c && can_more hi
               then rep g p (pred lo) (dec_hi hi) (to_lower c :: lower b) (lower a) kk'
               else None)) as Hmore.
    { destruct (p c && can_more hi); [apply (IH _ _ (c :: b))|constructor]. }
    assert (option_Forall2 R
              (match lo with O => kk b (c :: a) | S _ => None end)
              (match lo with
               | O => kk' (lower b) (to_lower c :: lower a) | S _ => None end))
      as Hstop.
    { destruct lo; [apply (Hk b (c :: a))|constructor]. }
    destruct g.
    + destruct Hmore; [by constructor|]. exact Hstop.
    + destruct Hstop; [by constructor|]. exact Hmore.
Qed.

Lemma consumed_lower st st1 :
  consumed (lower_state st) (lower_state st1) = lower (consumed st st1).
Proof.
  unfold consumed, lower_state, lower. simpl.
  by rewrite !length_map, map_rev, firstn_map.
Qed.

Lemma at_wordb_lower b a : at_wordb (lower b) (lower a) = at_wordb b a.
Proof.
  unfold at_wordb. destruct b, a; simpl; by rewrite ?is_word_lower.
Qed.

Lemma at_eol_lower a : at_eol (lower a) = at_eol a.
Proof.
  destruct a as [|c [|d a]]; simpl; try done. apply eqc_lower_newline.
Qed.

Lemma m_lower r st (k : mstate → option A) (k' : mstate → option B) :
  caseless_re r →
  (∀ st1, option_Forall2 R (k st1) (k' (lower_state st1))) →
  option_Forall2 R (m r st k) (m r (lower_state st) k').
Proof.
  revert st k k'.
  induction r as [|p|r1 IH1 r2 IH2|r1 IH1 r2 IH2|g p lo hi|i r1 IH1| | | |p];
    intros st k k' Hr Hk; simpl in *.
  - apply Hk.
  - destruct (after st) as [|c a'] eqn:Ha; simpl; [constructor|].
    rewrite Hr. destruct (p c); [|constructor].
    apply (Hk (MState (c :: before st) a' (groups st))).
  - destruct Hr as [Hr1 Hr2]. apply IH1; [done|]. intros st1. by apply IH2.
  - destruct Hr as [Hr1 Hr2].
    destruct (IH1 st k k' Hr1 Hk); [by constructor|]. by apply IH2.
  - apply rep_lower; [done|]. intros b1 a1.
    apply (Hk (MState b1 a1 (groups st))).
  - apply IH1; [done|]. intros st1.
    pose proof (Hk (MState (before st1) (after st1)
                           ((i, consumed st st1) :: groups st1))) as H.
    unfold lower_state in H at 1. simpl in H. by rewrite <- consumed_lower in H.
  - destruct (before st); simpl; [apply Hk|constructor].
  - rewrite at_eol_lower. destruct (at_eol (after st)); [apply Hk|constructor].
  - rewrite at_wordb_lower. destruct (at_wordb _ _); [apply Hk|constructor].
  - destruct (after st) as [|c t] eqn:Ha; simpl; [constructor|].
    rewrite Hr. destruct (p c); [apply Hk|constructor].
Qed.

End CaselessMatching.

Section CleanNames.




Lemma caseless_chi x : caseless (chi x).
Proof. intros c. unfold chi. by rewrite to_lower_idem. Qed.









End CleanNames.

Section CleanNameShape.



Lemma split_go_pieces (P : ascii → Prop) (cur s : list ascii) :
  Forall (fun c => P c ∧ is_space c = false) cur → Forall P s →
  Forall (Forall (fun c => P c ∧ is_space c = false)) (split_go cur s).
Proof.
  revert cur. induction s as [|c s IH]; intros cur Hcur Hs; simpl.
  - destruct cur; [constructor|]. constructor; [|constructor].
    by apply Forall_rev.
  - inversion Hs as [|? ? Hc Hs']; subst. destruct (is_space c) eqn:E.
    + destruct cur as [|x cur]; [by apply IH|].
      constructor; [by apply Forall_rev|]. by apply IH.
    + apply IH; [|done]. by constructor.
Qed.



End CleanNameShape.



(* ===================================================================== *)
(** * The executor of movie_cleanup.py as a whole *)
(* ===================================================================== *)

Lemma delete_target_effect a p :
  delete_target a = Some p ↔ ∃ src, effect_of a = Deletes src p.
Proof.
  unfold delete_target, effect_of.
  destruct (is_str (get a (key "action")) "move") eqn:Hm.
  { assert (is_str (get a (key "action")) "delete" = false) as ->.
    { destruct (get a (key "action")) as [|b|z|s|l|d]; try done.
      unfold is_str in *. apply eqs_eq in Hm. subst s. done. }
    split; [done|]. by intros [? ?]. }
  destruct (is_str (get a (key "action")) "delete") eqn:Hd.
  - destruct (por (get a (key "source")) (get a (key "path"))) as [|b|z|s|l|d] eqn:Hs.
    all: try (split; [done|]; intros [? H]; destruct (negb (truthy _)) in H; simpl in H; done).
    destruct s as [|c s]; simpl.
    + split; [done|]. by intros [? ?].
    + split.
      * intros [= <-]. eauto.
      * intros [? [= _ <-]]. done.
  - split; [done|]. intros [? H].
    destruct (is_str _ "rename"); [done|].
    destruct (_ || _); done.
Qed.

Lemma delete_on_disk_other fs p q :
  q ≠ p → child_of p q = false → delete_on_disk fs p !! q = fs !! q.
Proof.
  intros Hne Hc. destruct (is_dir fs p) eqn:Hd.
  - rewrite delete_on_disk_dir_lookup by done.
    rewrite bool_decide_eq_false_2 by done. by rewrite Hc.
  - unfold delete_on_disk. rewrite Hd.
    destruct (exists_ fs p); [|done].
    destruct (is_file fs p) eqn:Hf; [|done].
    rewrite unlink_eq, Hf. by rewrite lookup_delete_ne.
Qed.

Lemma foldl_effects_keep es st q x :
  disk st !! q = Some x →
  (∀ src p, Deletes src p ∈ es → q ≠ p ∧ child_of p q = false) →
  disk (foldl (apply_effect false) st es) !! q = Some x.
Proof.
  revert st. induction es as [|e es IH]; intros st Hq Hall; [done|].
  simpl. apply IH.
  - destruct e as [rs|src p]; simpl; [done|].
    destruct (Hall src p) as [Hne Hc]; [left|].
    by rewrite delete_on_disk_other.
  - intros src p Hin. apply (Hall src p). by right.
Qed.


(** X2. A live run of the executor only removes entries, and only where the
    log points: a regular file that no delete action names, and whose
    folder no delete action names, is still there with its size. *)
Theorem executor_spares_unnamed_files (actions : list dict) (fs : store)
    (q : path) (n : Z) :
  fs !! q = Some (File n) →
  (∀ a p, a ∈ actions → delete_target a = Some p → q ≠ p ∧ parent q ≠ p) →
  (execute_actions actions false fs).2 ⊆ fs ∧
  (execute_actions actions false fs).2 !! q = Some (File n).
Proof.
  intros Hq Hall. split; [apply execute_actions_subseteq|].
  unfold execute_actions. cbn [snd].
  rewrite foldl_run_action.
  set (st := foldl (apply_effect false) _ _).
  assert (disk st !! q = Some (File n)) as Hst.
  { apply foldl_effects_keep; [done|].
    intros src p Hin. apply list_elem_of_fmap in Hin as (a & Ha & Hin).
    destruct (Hall a p Hin) as [Hne Hpar].
    { apply delete_target_effect. eauto. }
    split; [done|]. unfold child_of. destruct q; [done|].
    by apply bool_decide_eq_false_2. }
  pose proof (foldl_cleanup_files false
                (sort_by str_leb (elements (folders_to_check st))) (disk st)) as Hf.
  assert (files (disk st) !! q = Some (File n)) as Hfq by by apply files_lookup.
  rewrite <- Hf in Hfq. by apply files_lookup in Hfq as [? _].
Qed.

Lemma executor_spares_unnamed_files_witness :
  let out := (execute_actions [delete_source "/a/x"] false two_level_disk).2 in
  out ⊆ two_level_disk ∧ out !! mkpath ["a"; "b"; "f"] = Some (File 20).
Proof.
  apply (executor_spares_unnamed_files [delete_source "/a/x"] two_level_disk
           (mkpath ["a"; "b"; "f"]) 20).
  - reflexivity.
  - intros a p Ha Hp. apply list_elem_of_singleton in Ha. subst a.
    vm_compute in Hp. injection Hp as <-. split; discriminate.
Defined.



(* ===================================================================== *)
(** * Duplicate groups *)
(* ===================================================================== *)

Lemma group_add_perm k v gs :
  concat (map snd (group_add k v gs)) ≡ₚ concat (map snd gs) ++ [v].
Proof.
  induction gs as [|[k' vs] gs IH]; [done|].
  simpl. destruct (eqs k k'); simpl.
  - rewrite <- !app_assoc. f_equiv. apply Permutation_app_comm.
  - rewrite IH. by rewrite app_assoc.
Qed.

Lemma group_add_keys k v gs :
  map fst (group_add k v gs) =
  if bool_decide (k ∈ map fst gs) then map fst gs else map fst gs ++ [k].
Proof.
  induction gs as [|[k' vs] gs IH]; [done|].
  simpl. destruct (eqs k k') eqn:E.
  - apply eqs_eq in E. subst k'. simpl.
    rewrite bool_decide_eq_true_2; [done|left].
  - simpl. rewrite IH.
    assert (k ≠ k') as Hne by (intros ->; by rewrite eqs_refl in E).
    destruct (bool_decide (k ∈ map fst gs)) eqn:Hin.
    + apply bool_decide_eq_true in Hin.
      rewrite bool_decide_eq_true_2; [done|by right].
    + apply bool_decide_eq_false in Hin.
      rewrite bool_decide_eq_false_2; [done|].
      by intros [?|?]%elem_of_cons.
Qed.

Lemma group_add_elem k v gs g :
  g ∈ group_add k v gs →
  (g ∈ gs) ∨ (g.1 = k ∧ ∃ vs, g.2 = vs ++ [v] ∧ (vs = [] ∨ (k, vs) ∈ gs)).
Proof.
  induction gs as [|[k' vs] gs IH]; simpl.
  - intros ->%list_elem_of_singleton. right. split; [done|]. exists []. auto.
  - destruct (eqs k k') eqn:E.
    + apply eqs_eq in E. subst k'.
      intros [->|?]%elem_of_cons; [|left; by right].
      right. split; [done|]. exists vs. split; [done|]. right. left.
    + intros [->|Hin]%elem_of_cons; [left; left|].
      destruct (IH Hin) as [?|(? & ws & ? & [->|?])]; [left; by right|right..].
      * split; [done|]. exists []. auto.
      * split; [done|]. exists ws. split; [done|]. right. by right.
Qed.

Lemma scan_loop_perm fs items gs :
  concat (map snd (scan_loop fs gs items)) ≡ₚ
  concat (map snd gs) ++ map (scan_folder fs) (List.filter (is_dir fs) items).
Proof.
  revert gs. induction items as [|item items IH]; intros gs; simpl.
  - by rewrite app_nil_r.
  - unfold scan_loop in *. simpl. rewrite IH. destruct (is_dir fs item); [|done].
    simpl. rewrite group_add_perm. by rewrite <- app_assoc.
Qed.

Lemma scan_loop_keys fs items gs :
  NoDup (map fst gs) → NoDup (map fst (scan_loop fs gs items)).
Proof.
  revert gs. induction items as [|item items IH]; intros gs Hgs; [done|].
  unfold scan_loop in *. simpl. apply IH. destruct (is_dir fs item); [|done].
  rewrite group_add_keys. case_bool_decide; [done|].
  apply NoDup_app. split; [done|]. split; [|apply NoDup_singleton].
  intros x Hx ->%list_elem_of_singleton. done.
Qed.

Lemma scan_loop_names fs items gs :
  Forall (λ g : list ascii * list folder,
            g.2 ≠ [] ∧ Forall (λ f, clean_movie_name (f_name f) = g.1) g.2) gs →
  Forall (λ g : list ascii * list folder,
            g.2 ≠ [] ∧ Forall (λ f, clean_movie_name (f_name f) = g.1) g.2)
         (scan_loop fs gs items).
Proof.
  revert gs. induction items as [|item items IH]; intros gs Hgs; [done|].
  unfold scan_loop in *. simpl. apply IH. destruct (is_dir fs item); [|done].
  apply Forall_forall. intros g Hg.
  apply group_add_elem in Hg as [Hg|(Hk & vs & Hvs & Hin)].
  - by eapply Forall_forall in Hgs.
  - rewrite Hvs, Hk. split; [by destruct vs|].
    apply Forall_app. split; [|by apply Forall_singleton].
    destruct Hin as [->|Hin]; [done|].
    eapply Forall_forall in Hgs; [|done]. apply Hgs.
Qed.

Lemma NoDup_list_filter {A} (f : A → bool) (l : list A) :
  NoDup l → NoDup (List.filter f l).
Proof.
  induction 1 as [|x l Hx Hl IH]; simpl; [constructor|].
  destruct (f x); [|done]. constructor; [|done].
  intros [? _]%list_elem_of_In%filter_In. by apply Hx, list_elem_of_In.
Qed.

Lemma NoDup_iterdir fs p : NoDup (iterdir fs p).
Proof. apply NoDup_list_filter, NoDup_fst_map_to_list. Qed.

Lemma scan_groups_paths fs root :
  map f_path (concat (map snd (scan_groups fs root))) ≡ₚ
  List.filter (is_dir fs) (iterdir fs root).
Proof.
  unfold scan_groups. pose proof (scan_loop_perm fs (iterdir fs root) []) as H.
  unfold scan_loop in H. rewrite H. simpl.
  rewrite map_map. simpl. by rewrite map_id.
Qed.

Lemma scan_groups_folder fs root g f :
  g ∈ scan_groups fs root → f ∈ g.2 →
  f = scan_folder fs (f_path f) ∧ child_of root (f_path f) = true ∧
  is_dir fs (f_path f) = true ∧ clean_movie_name (f_name f) = g.1.
Proof.
  intros Hg Hf.
  assert (f ∈ concat (map snd (scan_groups fs root))) as Hin.
  { apply list_elem_of_In, in_concat. exists g.2. split; apply list_elem_of_In; [|done].
    apply list_elem_of_fmap. eauto. }
  pose proof (scan_loop_perm fs (iterdir fs root) []) as H.
  unfold scan_groups in Hin. unfold scan_loop in H. rewrite H in Hin. simpl in Hin.
  apply list_elem_of_fmap in Hin as (item & -> & Hitem).
  apply list_elem_of_In, filter_In in Hitem as [Hitem Hd].
  apply list_elem_of_In, elem_of_iterdir in Hitem as [_ Hc].
  split; [done|]. split; [done|]. split; [done|].
  pose proof (scan_loop_names fs (iterdir fs root) [] (Forall_nil_2 _)) as Hn.
  eapply Forall_forall in Hn; [|exact Hg]. destruct Hn as [_ Hn].
  eapply Forall_forall in Hn; [|exact Hf]. done.
Qed.

Lemma scan_groups_nodup fs root :
  NoDup (map fst (scan_groups fs root)) ∧
  NoDup (concat (map snd (scan_groups fs root))).
Proof.
  split.
  - apply (scan_loop_keys fs (iterdir fs root) []). constructor.
  - apply (NoDup_fmap_1 f_path). rewrite scan_groups_paths.
    apply NoDup_list_filter, NoDup_iterdir.
Qed.

(** X4. Grouping is a partition of the scanned folders by clean name: every
    directory directly inside the root sits in exactly one group, no other
    entry does, each group is non-empty and collects folders of one clean
    name, and no two groups share their name. *)
Theorem groups_partition_the_folders (fs : store) (root : path) :
  let groups := scan_groups fs root in
  concat (map snd groups) ≡ₚ
    map (scan_folder fs) (List.filter (is_dir fs) (iterdir fs root)) ∧
  NoDup (map fst groups) ∧
  NoDup (map f_path (concat (map snd groups))) ∧
  Forall (λ g : list ascii * list folder,
            g.2 ≠ [] ∧ Forall (λ f, clean_movie_name (f_name f) = g.1) g.2)
         groups.
Proof.
  cbv zeta. split; [|split; [|split]].
  - apply (scan_loop_perm fs (iterdir fs root) []).
  - apply (scan_loop_keys fs (iterdir fs root) []). constructor.
  - rewrite scan_groups_paths. apply NoDup_list_filter, NoDup_iterdir.
  - apply (scan_loop_names fs (iterdir fs root) []). constructor.
Qed.

Lemma rmtree_lookup fs p fs' q :
  rmtree fs p = Some fs' →
  fs' !! q = if bool_decide (p `prefix_of` q) then None else fs !! q.
Proof.
  unfold rmtree. destruct p as [|c p]; [done|].
  destruct (is_dir fs (c :: p)); [|done]. intros [= <-].
  rewrite map_lookup_filter. case_bool_decide as Hp.
  - destruct (fs !! q); [|done]. simpl. by rewrite option_guard_False by (simpl; auto).
  - destruct (fs !! q); [|done]. simpl. by rewrite option_guard_True.
Qed.

Lemma rmtree_subseteq fs p fs' : rmtree fs p = Some fs' → fs' ⊆ fs.
Proof.
  unfold rmtree. destruct p as [|c p]; [done|].
  destruct (is_dir fs (c :: p)); [|done]. intros [= <-]. apply map_filter_subseteq.
Qed.

Lemma remove_dup_actions dry keep st dup :
  (remove_dup dry keep st dup).1 = st.1 ++ [delete_action keep dup].
Proof.
  unfold remove_dup. destruct (negb dry); [|done]. by destruct (rmtree _ _).
Qed.

Lemma foldl_remove_dup_actions dry keep remove st :
  (foldl (remove_dup dry keep) st remove).1 = st.1 ++ map (delete_action keep) remove.
Proof.
  revert st. induction remove as [|d remove IH]; intros st; simpl.
  - by rewrite app_nil_r.
  - rewrite IH, remove_dup_actions. by rewrite <- app_assoc.
Qed.

Lemma remove_dup_cleared fs keep st done dup :
  f_path dup ≠ [] → is_dir fs (f_path dup) = true →
  cleared fs done st.2 →
  cleared fs (done ++ [dup]) (remove_dup false keep st dup).2.
Proof.
  intros Hne Hd Hinv q. unfold remove_dup. cbn [negb].
  assert (Exists (λ d, under (f_path d) q) (done ++ [dup]) ↔
          Exists (λ d, under (f_path d) q) done ∨ under (f_path dup) q) as Hex.
  { rewrite Exists_app, Exists_cons, Exists_nil. tauto. }
  destruct (rmtree st.2 (f_path dup)) as [fs'|] eqn:Hrm; cbn [snd].
  - rewrite (rmtree_lookup _ _ _ _ Hrm), Hinv.
    case_bool_decide as Hp.
    + rewrite bool_decide_eq_true_2; [done|]. apply Hex. by right.
    + case_bool_decide as Hdone.
      * rewrite bool_decide_eq_true_2; [done|]. apply Hex. by left.
      * rewrite bool_decide_eq_false_2; [done|]. rewrite Hex. tauto.
  - rewrite Hinv. case_bool_decide as Hdone.
    + rewrite bool_decide_eq_true_2; [done|]. apply Hex. by left.
    + destruct (decide (under (f_path dup) q)) as [Hp|Hp].
      * exfalso. unfold rmtree in Hrm.
        destruct (f_path dup) as [|c p] eqn:Hfp; [done|].
        destruct (is_dir st.2 (c :: p)) eqn:Hd2; [done|].
        unfold is_dir, node_at in Hd, Hd2. rewrite Hinv in Hd2.
        case_bool_decide as Hdp.
        -- apply Hdone. apply Exists_exists in Hdp as (d & Hin & Hu).
           apply Exists_exists. exists d. split; [done|].
           unfold under in *. by etrans.
        -- by rewrite Hd in Hd2.
      * rewrite bool_decide_eq_false_2; [done|]. rewrite Hex. tauto.
Qed.

Lemma foldl_remove_dup_cleared fs keep remove st done :
  Forall (λ d, f_path d ≠ [] ∧ is_dir fs (f_path d) = true) remove →
  cleared fs done st.2 →
  cleared fs (done ++ remove) (foldl (remove_dup false keep) st remove).2.
Proof.
  revert st done. induction remove as [|d remove IH]; intros st done Hall Hinv.
  - by rewrite app_nil_r.
  - apply Forall_cons in Hall as [[Hne Hd] Hall]. simpl.
    replace (done ++ d :: remove) with ((done ++ [d]) ++ remove)
      by by rewrite <- app_assoc.
    apply IH; [done|]. by apply remove_dup_cleared.
Qed.

Lemma resolve_perm l keep remove :
  resolve l = Some (keep, remove) → keep :: remove ≡ₚ l.
Proof.
  unfold resolve, folders_sorted. intros H.
  destruct (sort_by key_ge l) as [|k r] eqn:Hs; [done|].
  injection H as <- <-. rewrite <- Hs. apply sort_by_perm.
Qed.

Lemma foldl_handle_group_cleared fs gs st done :
  Forall (λ g : list ascii * list folder,
            Forall (λ d, f_path d ≠ [] ∧ is_dir fs (f_path d) = true) g.2) gs →
  cleared fs done st.2 →
  cleared fs (done ++ concat (map removed_of gs))
          (foldl (handle_group false) st gs).2.
Proof.
  revert st done. induction gs as [|g gs IH]; intros st done Hall Hinv.
  - simpl. by rewrite app_nil_r.
  - apply Forall_cons in Hall as [Hg Hall]. simpl.
    rewrite app_assoc. apply IH; [done|].
    unfold handle_group, removed_of.
    destruct (resolve g.2) as [[keep remove]|] eqn:Hr.
    + apply foldl_remove_dup_cleared; [|done].
      apply resolve_perm in Hr. rewrite <- Hr in Hg.
      by apply Forall_cons in Hg as [_ ?].
    + by rewrite app_nil_r.
Qed.

Lemma foldl_handle_group_actions dry gs st :
  (foldl (handle_group dry) st gs).1 =
  st.1 ++ concat (map (λ g : list ascii * list folder,
                         match resolve g.2 with
                         | Some (keep, remove) => map (delete_action keep) remove
                         | None => []
                         end) gs).
Proof.
  revert st. induction gs as [|g gs IH]; intros st; simpl.
  - by rewrite app_nil_r.
  - rewrite IH. unfold handle_group.
    destruct (resolve g.2) as [[keep remove]|].
    + rewrite foldl_remove_dup_actions. by rewrite <- app_assoc.
    + done.
Qed.

Lemma child_of_length p q : child_of p q = true → length q = S (length p).
Proof.
  unfold child_of. destruct q as [|c q]; [done|].
  intros <-%bool_decide_eq_true. unfold parent.
  rewrite removelast_firstn_len, length_take. simpl. lia.
Qed.

Lemma prefix_same_length {A} (p1 p2 q : list A) :
  p1 `prefix_of` q → p2 `prefix_of` q → length p1 = length p2 → p1 = p2.
Proof.
  intros [k1 ->] [k2 H] Hl.
  apply (f_equal (take (length p1))) in H.
  rewrite take_app_length in H. rewrite Hl, take_app_length in H. done.
Qed.

Lemma NoDup_fst_inj {A B} (l : list (A * B)) x y :
  NoDup (map fst l) → x ∈ l → y ∈ l → x.1 = y.1 → x = y.
Proof.
  induction l as [|z l IH]; [by intros _ ?%elem_of_nil|].
  simpl. intros [Hz Hl]%NoDup_cons [->|Hx]%elem_of_cons [->|Hy]%elem_of_cons He;
    [done| | |by apply IH].
  - exfalso. apply Hz. rewrite He. apply list_elem_of_fmap. eauto.
  - exfalso. apply Hz. rewrite <- He. apply list_elem_of_fmap. eauto.
Qed.

Lemma NoDup_concat_elem {A} (ls : list (list A)) l :
  NoDup (concat ls) → l ∈ ls → NoDup l.
Proof.
  induction ls as [|l0 ls IH]; [by intros _ ?%elem_of_nil|].
  simpl. intros (H0 & _ & Hls)%NoDup_app [->|Hin]%elem_of_cons; auto.
Qed.

(** X5. Live duplicate handling removes exactly the reported folders: what
    is left of the file system is the old one without everything at or
    below a folder reported for removal, nothing else is touched, and the
    folder kept for a group is left whole. *)
Theorem duplicate_removal_is_exact (fs : store) (root : path) :
  let out := handle_duplicates root false fs in
  let gone := duplicates_to_remove fs root in
  (∀ q, out.2 !! q =
        if bool_decide (Exists (λ d, under (f_path d) q) gone)
        then None else fs !! q) ∧
  (∀ g keep remove q,
     g ∈ scan_groups fs root → resolve g.2 = Some (keep, remove) →
     under (f_path keep) q → out.2 !! q = fs !! q).
Proof.
  cbv zeta.
  assert (∀ q, (handle_duplicates root false fs).2 !! q =
        if bool_decide (Exists (λ d, under (f_path d) q) (duplicates_to_remove fs root))
        then None else fs !! q) as Hexact.
  { unfold handle_duplicates, duplicates_to_remove.
    apply (foldl_handle_group_cleared fs _ ([], fs) []).
    - apply Forall_forall. intros g [Hg _]%list_elem_of_In%filter_In.
      apply list_elem_of_In in Hg.
      apply Forall_forall. intros d Hd.
      destruct (scan_groups_folder fs root g d Hg Hd) as (_ & Hc & Hdir & _).
      split; [|done]. intros Hnil. rewrite Hnil in Hc. done.
    - intros q. by rewrite bool_decide_eq_false_2 by by intros ?%Exists_nil. }
  split; [done|].
  intros g keep remove q Hg Hr Hu. rewrite Hexact.
  rewrite bool_decide_eq_false_2; [done|].
  intros (d & Hd & Hdu)%Exists_exists.
  unfold duplicates_to_remove in Hd.
  apply list_elem_of_In, in_concat in Hd as (l & Hl & Hd).
  apply in_map_iff in Hl as (g' & <- & Hg').
  apply filter_In in Hg' as [Hg' _]. apply list_elem_of_In in Hg', Hd.
  destruct (resolve g'.2) as [[keep' remove']|] eqn:Hr'; [|by apply elem_of_nil in Hd].
  pose proof (resolve_perm _ _ _ Hr) as Hp.
  pose proof (resolve_perm _ _ _ Hr') as Hp'.
  assert (keep ∈ g.2) as Hkin by (rewrite <- Hp; left).
  assert (d ∈ g'.2) as Hdin by (rewrite <- Hp'; by right).
  destruct (scan_groups_folder fs root g keep Hg Hkin) as (Hk1 & Hk2 & _ & Hk3).
  destruct (scan_groups_folder fs root g' d Hg' Hdin) as (Hd1 & Hd2 & _ & Hd3).
  assert (f_path d = f_path keep) as Hpath.
  { apply (prefix_same_length _ _ q); [done..|].
    by rewrite (child_of_length _ _ Hk2), (child_of_length _ _ Hd2). }
  assert (d = keep) as -> by (rewrite Hk1, Hd1; by rewrite Hpath).
  destruct (scan_groups_nodup fs root) as (Hkeys & Hnd).
  assert (g = g') as <-.
  { apply (NoDup_fst_inj (scan_groups fs root)); [done..|]. by rewrite <- Hk3, <- Hd3. }
  rewrite Hr in Hr'. injection Hr' as <- <-.
  assert (NoDup g.2) as Hg2.
  { apply (NoDup_concat_elem (map snd (scan_groups fs root))); [done|].
    apply list_elem_of_fmap. eauto. }
  rewrite <- Hp in Hg2. apply NoDup_cons in Hg2 as [Hnk _]. done.
Qed.

Lemma duplicate_removal_is_exact_witness :
  (handle_duplicates (mkpath ["lib"]) false duplicate_disk).2
     !! mkpath ["lib"; "Alien (1979)"; "alien.mkv"] = Some (File 700).
Proof.
  destruct (duplicate_removal_is_exact duplicate_disk (mkpath ["lib"])) as [_ H].
  rewrite (H (String.list_ascii_of_string "Alien",
              [scan_folder duplicate_disk (mkpath ["lib"; "Alien (1979)"]);
               scan_folder duplicate_disk (mkpath ["lib"; "Alien"])])
             (scan_folder duplicate_disk (mkpath ["lib"; "Alien (1979)"]))
             [scan_folder duplicate_disk (mkpath ["lib"; "Alien"])]).
  - reflexivity.
  - apply list_elem_of_In. vm_compute. left. reflexivity.
  - vm_compute. reflexivity.
  - exists [String.list_ascii_of_string "alien.mkv"]. reflexivity.
Defined.

Lemma valid_name_b_spec (c : list ascii) : valid_name_b c = true → valid_name c.
Proof.
  unfold valid_name_b, valid_name.
  intros [[H1 H2]%andb_true_iff H3]%andb_true_iff.
  apply negb_true_iff in H1, H2, H3.
  split; [|split; [|done]].
  - intros ->. by rewrite eqs_refl in H1.
  - intros ->. by rewrite eqs_refl in H2.
Qed.

Lemma well_formed_b_spec (fs : store) : well_formed_b fs = true → well_formed fs.
Proof.
  unfold well_formed_b. intros H q n Hq.
  rewrite forallb_forall in H.
  specialize (H (q, n)). cbn [fst] in H.
  destruct (andb_prop _ _ (H ltac:(by apply list_elem_of_In, elem_of_map_to_list)))
    as [Hv Hd].
  split; [|done]. apply Forall_forall. intros c Hc.
  apply valid_name_b_spec. rewrite forallb_forall in Hv. by apply Hv, list_elem_of_In.
Qed.

Lemma parse_path_str_go (c : list ascii) (p : path) :
  Forall valid_name (c :: p) →
  parse_path (c ++ concat (map (fun c : list ascii => "/"%char :: c) p)) = c :: p.
Proof.
  revert c. induction p as [|c' p IH]; intros c Hall.
  - simpl. rewrite app_nil_r. apply parse_path_name. by apply Forall_cons in Hall as [? _].
  - apply Forall_cons in Hall as [Hc Hall].
    cbn [map concat]. change (("/"%char :: c') ++ ?x) with ("/"%char :: c' ++ x).
    rewrite parse_path_app_sep, (parse_path_name c Hc), IH by done. done.
Qed.

Lemma parse_path_str (p : path) :
  Forall valid_name p → parse_path (path_str p) = p.
Proof.
  destruct p as [|c p]; intros Hall; [by vm_compute|].
  unfold path_str. cbn [map concat].
  change (("/"%char :: c) ++ ?x) with ([] ++ "/"%char :: c ++ x).
  rewrite parse_path_app_sep, parse_path_nil, parse_path_str_go by done. done.
Qed.

Lemma delete_action_effect keep dup :
  effect_of (delete_action keep dup) =
  Deletes (PStr (path_str (f_path dup))) (parse_path (path_str (f_path dup))).
Proof.
  apply effect_of_delete; [done|done|].
  unfold path_str. by destruct (f_path dup).
Qed.

(** X6. The plan of [handle_duplicates] is the same in both modes, holds
    one delete action for every folder reported for removal, and is
    accepted whole by the executor: each action is answered [ok] under the
    path it carries.  On a well-formed file system that path reads back as
    the folder's path. *)
Theorem duplicate_plan_is_executable (fs : store) (root : path)
    (dry dry2 : bool) (fs2 : store) :
  well_formed fs →
  let acts := (handle_duplicates root dry fs).1 in
  acts = (handle_duplicates root true fs).1 ∧
  Forall2 (λ (a : dict) d,
             get a (key "action") = str "delete" ∧
             get a (key "path") = PStr (path_str (f_path d)) ∧
             delete_target a = Some (f_path d))
          acts (duplicates_to_remove fs root) ∧
  (execute_actions acts dry2 fs2).1 =
    map (λ a : dict, ok_result (get a (key "path"))) acts.
Proof.
  intros Hwf. cbv zeta.
  assert (∀ dry, (handle_duplicates root dry fs).1 =
     concat (map (λ g : list ascii * list folder,
                         match resolve g.2 with
                         | Some (keep, remove) => map (delete_action keep) remove
                         | None => []
                         end)
              (List.filter (fun g : list ascii * list folder => (1 <? length g.2)%nat)
                           (scan_groups fs root)))) as Hacts.
  { intros d. unfold handle_duplicates. by rewrite foldl_handle_group_actions. }
  split; [by rewrite !Hacts|]. rewrite Hacts. clear Hacts. split.
  - unfold duplicates_to_remove.
    assert (∀ g, g ∈ List.filter (fun g : list ascii * list folder => (1 <? length g.2)%nat)
                           (scan_groups fs root) → g ∈ scan_groups fs root) as Hsub.
    { intros g [? _]%list_elem_of_In%filter_In. by apply list_elem_of_In. }
    induction (List.filter _ (scan_groups fs root)) as [|g gs IH]; [constructor|].
    cbn [map concat]. apply Forall2_app; [|apply IH; intros; apply Hsub; by right].
    assert (g ∈ scan_groups fs root) as Hg by (apply Hsub; left).
    destruct (resolve g.2) as [[keep remove]|] eqn:Hr; [|constructor].
    apply resolve_perm in Hr.
    assert (∀ d, d ∈ remove → d ∈ g.2) as Hrem by (intros d Hd; rewrite <- Hr; by right).
    clear Hr. induction remove as [|d remove IHr]; [constructor|].
    cbn [map]. constructor; [|apply IHr; intros; apply Hrem; by right].
    split; [done|]. split; [done|].
    apply delete_target_effect. eexists. rewrite delete_action_effect.
    rewrite parse_path_str; [done|].
    destruct (scan_groups_folder fs root g d Hg) as (_ & Hc & _); [apply Hrem; left|].
    unfold child_of in Hc. destruct (f_path d) as [|c p] eqn:Hp; [done|].
    assert (is_Some (fs !! (c :: p))) as [n Hn].
    { assert (c :: p ∈ iterdir fs root) as Hin.
      { pose proof (scan_groups_paths fs root) as Hperm.
        assert (c :: p ∈ List.filter (is_dir fs) (iterdir fs root)) as Hf.
        { rewrite <- Hperm, <- Hp. apply list_elem_of_fmap. exists d. split; [done|].
          apply list_elem_of_In, in_concat. exists g.2.
          split; apply list_elem_of_In; [apply list_elem_of_fmap; eauto|apply Hrem; left]. }
        apply list_elem_of_In, filter_In in Hf as [Hf _]. by apply list_elem_of_In. }
      by apply elem_of_iterdir in Hin as [? _]. }
    by destruct (Hwf _ _ Hn).
  - rewrite execute_actions_results. rewrite map_map.
    induction (List.filter _ (scan_groups fs root)) as [|g gs IH]; [done|].
    cbn [map concat]. rewrite !map_app, concat_app, IH. f_equal.
    destruct (resolve g.2) as [[keep remove]|]; [|done].
    induction remove as [|d remove IHr]; [done|].
    cbn [map concat]. rewrite delete_action_effect. cbn [effect_results]. by rewrite <- IHr.
Qed.

Lemma duplicate_plan_is_executable_witness :
  (execute_actions (handle_duplicates (mkpath ["lib"]) true duplicate_disk).1
                   false duplicate_disk).1 =
  map (λ a : dict, ok_result (get a (key "path")))
      (handle_duplicates (mkpath ["lib"]) true duplicate_disk).1.
Proof.
  apply (duplicate_plan_is_executable duplicate_disk (mkpath ["lib"]) true false
           duplicate_disk).
  apply well_formed_b_spec. vm_compute. reflexivity.
Defined.

(* ===================================================================== *)
(** * What the patterns capture *)
(* ===================================================================== *)

Section CaptureFacts.
Context {A : Type}.
Implicit Types (k : mstate → option A) (r : re).

Lemma m_sound_groups r st k x :
  m r st k = Some x → ∃ st', deng r st st' ∧ k st' = Some x.
Proof.
  revert st k x. induction r as [|p|r1 IH1 r2 IH2|r1 IH1 r2 IH2|g p lo hi|i r1 IH1| | | |p];
    intros st k x; simpl.
  - intros Hk. by exists st.
  - destruct (after st) as [|c a'] eqn:Ha; [done|]. destruct (p c) eqn:Hp; [|done].
    intros Hk. eexists. split; [|exact Hk]. by exists c, a'.
  - intros H1. apply IH1 in H1 as (st1 & Hd1 & H2).
    apply IH2 in H2 as (st2 & Hd2 & Hk). exists st2. split; [|done].
    by exists st1.
  - destruct (m r1 st k) eqn:E1.
    + intros [= <-]. apply IH1 in E1 as (st' & Hd & Hk).
      exists st'. split; [by left|done].
    + intros E2. apply IH2 in E2 as (st' & Hd & Hk).
      exists st'. split; [by right|done].
  - intros Hr. apply rep_sound in Hr as (w & a' & Ha & Hw & Hin & Hk).
    eexists. split; [|exact Hk]. by exists w, a'.
  - intros H1. apply IH1 in H1 as (st1 & Hd1 & Hk).
    eexists. split; [|exact Hk]. by exists st1.
  - destruct (before st) eqn:Hb; [|done]. intros Hk. by exists st.
  - destruct (at_eol (after st)) eqn:He; [|done]. intros Hk. by exists st.
  - destruct (at_wordb _ _) eqn:He; [|done]. intros Hk. by exists st.
  - destruct (after st) as [|c t] eqn:Ha; [done|]. destruct (p c) eqn:Hp; [|done].
    intros Hk. exists st. split; [|done]. split; [|done]. by exists c, t.
Qed.

Lemma scan_sound_groups r b a k x :
  scan r b a k = Some x →
  ∃ w a0 st', a = w ++ a0 ∧ deng r (MState (rev w ++ b) a0 []) st' ∧ k st' = Some x.
Proof.
  revert b. induction a as [|c a IH]; intros b; simpl.
  - destruct (m r _ k) eqn:E; [|done]. intros [= <-].
    apply m_sound_groups in E as (st' & Hd & Hk). exists [], [], st'. done.
  - destruct (m r _ k) eqn:E.
    + intros [= <-]. apply m_sound_groups in E as (st' & Hd & Hk).
      exists [], (c :: a), st'. done.
    + intros Hs. apply IH in Hs as (w & a0 & st' & -> & Hd & Hk).
      exists (c :: w), a0, st'. split; [done|]. split; [|done].
      simpl. by rewrite <- app_assoc.
Qed.

End CaptureFacts.

Lemma search_sound_groups (r : re) (s : list ascii) (st : mstate) :
  search r s = Some st →
  ∃ w a0, s = w ++ a0 ∧ deng r (MState (rev w) a0 []) st.
Proof.
  unfold search. intros H.
  apply scan_sound_groups in H as (w & a0 & st' & -> & Hd & [= ->]).
  rewrite app_nil_r in Hd. eauto.
Qed.

Lemma consumed_app b a g w a' g' :
  consumed (MState b a g) (MState (rev w ++ b) a' g') = w.
Proof.
  unfold consumed. simpl. rewrite length_app, length_rev.
  replace (length w + length b - length b) with (length w) by lia.
  rewrite <- (length_rev w), take_app_length. apply rev_involutive.
Qed.

Lemma consumed_nil st : consumed st st = [].
Proof. unfold consumed. by rewrite Nat.sub_diag. Qed.

Lemma year_search_sound (s : list ascii) (st : mstate) :
  search MovieAnalyzer.re_year s = Some st →
  ∃ pre y post, s = pre ++ "(" ++ y ++ ")" ++ post ∧ is_year y ∧
                group 1 (groups st) = Some y.
Proof.
  intros Hs. apply search_sound_groups in Hs as (w & a0 & -> & Hd).
  simpl in Hd.
  destruct Hd as (st1 & (c & a1 & Ha1 & Hc & ->) & st2 &
                  (st3 & (ds & a2 & Ha2 & Hds & [Hlo Hhi] & ->) & ->) &
                  (c2 & a3 & Ha3 & Hc2 & ->)).
  simpl in *. subst a0 a1 a2.
  apply eqc_eq in Hc, Hc2. subst c c2.
  rewrite (consumed_app _ _ _ ds).
  exists w, ds, a3. split; [done|]. split; [split; [lia|done]|done].
Qed.

Lemma extract_year_some (folder_name y : list ascii) :
  MovieCleanup.extract_year folder_name = Some y →
  is_year y ∧ ∃ pre post, folder_name = pre ++ "(" ++ y ++ ")" ++ post.
Proof.
  unfold MovieCleanup.extract_year, MovieAnalyzer.extract_year.
  destruct (search MovieAnalyzer.re_year folder_name) as [st|] eqn:Hs; [|done].
  apply year_search_sound in Hs as (pre & y' & post & -> & Hy & ->).
  intros [= <-]. eauto.
Qed.

(** X7. [extract_year] returns the four digits of a parenthesised year that
    stands in the name, and returns nothing only when the name holds no
    such year. *)
Theorem extract_year_reads_a_parenthesised_year (folder_name : list ascii) :
  match MovieCleanup.extract_year folder_name with
  | Some y =>
      is_year y ∧
      ∃ pre post, folder_name = pre ++ "(" ++ y ++ ")" ++ post
  | None =>
      ∀ pre y post, is_year y → folder_name ≠ pre ++ "(" ++ y ++ ")" ++ post
  end.
Proof.
  destruct (MovieCleanup.extract_year folder_name) as [y|] eqn:Hy.
  - by apply extract_year_some.
  - intros pre y post [Hl Hd] ->.
    unfold MovieCleanup.extract_year, MovieAnalyzer.extract_year in Hy.
    assert (search MovieAnalyzer.re_year (pre ++ "(" ++ y ++ ")" ++ post) ≠ None) as H.
    { apply search_occurs.
      exists pre, ("(" ++ y ++ ")" ++ post),
        (")"%char :: rev y ++ "("%char :: rev pre), post.
      split; [done|]. simpl.
      exists ("("%char :: rev pre), (y ++ ")"%char :: post).
      split; [by exists "("%char|].
      exists (rev y ++ "("%char :: rev pre), (")"%char :: post).
      split; [exists y; repeat split; [done|lia|lia]|by exists ")"%char]. }
    destruct (search MovieAnalyzer.re_year _) as [st|] eqn:Hs; [|done].
    apply year_search_sound in Hs as (? & ? & ? & _ & _ & Hg). congruence.
Qed.

(* ===================================================================== *)
(** * Radarr's folder format *)
(* ===================================================================== *)

Lemma radarr_format_complete (title y nl : list ascii) (sp : ascii) :
  title ≠ [] → forallb any title = true → is_space sp = true → is_year y →
  nl = [] ∨ nl = ["010"%char] →
  MovieAnalyzer.is_radarr_format (title ++ sp :: "(" ++ y ++ ")" ++ nl) = true.
Proof.
  intros Hne Ht Hsp [Hyl Hy] Hnl. unfold MovieAnalyzer.is_radarr_format, rmatch.
  assert (m MovieAnalyzer.re_radarr_format
            (MState [] (title ++ sp :: "(" ++ y ++ ")" ++ nl) []) Some ≠ None) as H.
  { apply (m_complete _ [] (title ++ sp :: "(" ++ y ++ ")" ++ nl)
             (")"%char :: rev y ++ "("%char :: sp :: rev title) nl); [|done|done|done].
    simpl. exists [], (title ++ sp :: "("%char :: y ++ ")"%char :: nl).
    split; [done|].
    exists (rev title), (sp :: "("%char :: y ++ ")"%char :: nl).
    split. { exists title. rewrite app_nil_r. repeat split; [done|].
             destruct title; [done|simpl; lia]. }
    exists (sp :: rev title), ("("%char :: y ++ ")"%char :: nl).
    split; [by exists sp|].
    exists ("("%char :: sp :: rev title), (y ++ ")"%char :: nl).
    split; [by exists "("%char|].
    exists (rev y ++ "("%char :: sp :: rev title), (")"%char :: nl).
    split; [exists y; repeat split; [done|lia|lia]|].
    exists (")"%char :: rev y ++ "("%char :: sp :: rev title), nl.
    split; [by exists ")"%char|].
    split; [|done]. by destruct Hnl as [->| ->]. }
  by destruct (m _ _ Some).
Qed.

(** X8. What [is_radarr_format] accepts: a non-empty title without line
    breaks, one whitespace character, a four-digit year in parentheses, and
    nothing after it but, possibly, one final line break. *)
Theorem radarr_format_characterised (folder_name : list ascii) :
  MovieAnalyzer.is_radarr_format folder_name = true ↔
  ∃ title sp y nl,
    folder_name = title ++ sp :: "(" ++ y ++ ")" ++ nl ∧
    title ≠ [] ∧ forallb any title = true ∧ is_space sp = true ∧ is_year y ∧
    (nl = [] ∨ nl = ["010"%char]).
Proof.
  split.
  - unfold MovieAnalyzer.is_radarr_format, rmatch.
    destruct (m _ _ Some) as [st|] eqn:Hm; [|done]. intros _.
    apply m_sound in Hm as (st' & Hd & _). simpl in Hd.
    destruct Hd as (b1 & a1 & (_ & -> & ->) & b2 & a2 &
                    (title & -> & -> & Ht & [Hlo _]) & b3 & a3 &
                    (sp & -> & -> & Hsp) & b4 & a4 &
                    (c1 & -> & -> & Hc1) & b5 & a5 &
                    (y & -> & -> & Hy & [Hylo Hyhi]) & b6 & a6 &
                    (c2 & -> & -> & Hc2) & (Heol & _ & Ha)).
    apply eqc_eq in Hc1, Hc2. subst c1 c2.
    exists title, sp, y, (after st'). split; [by rewrite Ha|].
    split; [by destruct title; simpl in Hlo; [lia|]|].
    split; [done|]. split; [done|]. split; [split; [lia|done]|].
    rewrite <- Ha in Heol.
    destruct (after st') as [|c [|? ?]]; simpl in Heol; [by left| |done].
    apply eqc_eq in Heol. subst c. by right.
  - intros (title & sp & y & nl & -> & Hne & Ht & Hsp & Hy & Hnl).
    by apply radarr_format_complete.
Qed.

Lemma is_space_upper c : is_space (to_upper c) = is_space c.
Proof. destruct c as [[] [] [] [] [] [] [] []]; vm_compute; reflexivity. Qed.

Lemma no_space_lower w :
  Forall (λ c, is_space c = false) w → Forall (λ c, is_space c = false) (lower w).
Proof.
  intros H. apply Forall_fmap. eapply Forall_impl; [exact H|].
  intros c Hc. simpl. by rewrite is_space_lower.
Qed.

Lemma no_space_upper w :
  Forall (λ c, is_space c = false) w → Forall (λ c, is_space c = false) (upper w).
Proof.
  intros H. apply Forall_fmap. eapply Forall_impl; [exact H|].
  intros c Hc. simpl. by rewrite is_space_upper.
Qed.

Lemma no_space_capitalize w :
  Forall (λ c, is_space c = false) w → Forall (λ c, is_space c = false) (capitalize w).
Proof.
  destruct w as [|c w]; [done|]. intros [Hc Hw]%Forall_cons. simpl.
  constructor; [by rewrite is_space_upper|by apply no_space_lower].
Qed.

Lemma split_on_go_chars (P : ascii → Prop) sep cur s :
  Forall P cur → Forall P s → Forall (Forall P) (split_on_go sep cur s).
Proof.
  revert cur. induction s as [|c s IH]; intros cur Hcur Hs; simpl.
  - constructor; [by apply Forall_rev|constructor].
  - apply Forall_cons in Hs as [Hc Hs]. destruct (eqc c sep).
    + constructor; [by apply Forall_rev|]. by apply IH.
    + apply IH; [by constructor|done].
Qed.

Lemma join_chars (P : ascii → Prop) (sep : list ascii) (parts : list (list ascii)) :
  Forall P sep → Forall (Forall P) parts → Forall P (join sep parts).
Proof.
  intros Hsep. induction parts as [|p l IH]; intros H; simpl; [constructor|].
  apply Forall_cons in H as [Hp Hl]. destruct l as [|q l]; [done|].
  apply Forall_app. split; [done|]. apply Forall_app. split; [done|by apply IH].
Qed.

Lemma title_word_no_space n i w :
  Forall (λ c, is_space c = false) w →
  Forall (λ c, is_space c = false) (title_word n i w).
Proof.
  intros Hw. unfold title_word.
  destruct (is_roman w); [by apply no_space_upper|].
  destruct (_ || _); [by apply no_space_capitalize|].
  destruct (existsb _ _); [by apply no_space_lower|].
  destruct (has_char _ _); [|by apply no_space_capitalize].
  apply join_chars; [by repeat constructor|].
  apply Forall_fmap.
  eapply Forall_impl;
    [apply (split_on_go_chars (λ c, is_space c = false) "-" [] w);
       [constructor|exact Hw]|].
  intros p Hp. simpl. destruct (negb _); [by apply no_space_capitalize|by apply no_space_upper].
Qed.

Lemma title_case_chars (t : list ascii) :
  Forall (λ c, is_space c = false ∨ c = " "%char) (radarr_title_case t).
Proof.
  unfold radarr_title_case.
  apply join_chars; [repeat constructor; by right|].
  apply Forall_forall. intros w Hw.
  apply elem_of_lookup_imap in Hw as (i & w0 & -> & Hi).
  eapply Forall_impl; [apply title_word_no_space|by left].
  pose proof (split_go_pieces (λ _, True) [] t (Forall_nil_2 _)) as Hp.
  assert (Forall (λ _ : ascii, True) t) as Ht by (apply Forall_forall; done).
  specialize (Hp Ht). unfold split in Hi.
  apply list_elem_of_lookup_2 in Hi.
  eapply Forall_forall in Hp; [|exact Hi].
  eapply Forall_impl; [exact Hp|]. by intros c [_ ?].
Qed.

Lemma title_case_no_newline (t : list ascii) : forallb any (radarr_title_case t) = true.
Proof.
  apply forallb_forall. intros c Hc%list_elem_of_In.
  pose proof (title_case_chars t) as H.
  eapply Forall_forall in H; [|exact Hc].
  unfold any. destruct H as [H| ->]; [|done].
  destruct (eqc c "010") eqn:E; [|done]. apply eqc_eq in E. subst c. done.
Qed.

(** X9. The name [rename_for_radarr] builds from a folder whose name holds
    a parenthesised year and at least one word besides is in Radarr's
    format, so a second pass leaves the renamed folder alone. *)
Theorem renamed_folder_is_in_radarr_format (original_name y : list ascii) :
  MovieCleanup.extract_year original_name = Some y →
  MovieCleanup.clean_movie_name original_name ≠ [] →
  MovieAnalyzer.is_radarr_format
    (MovieCleanup.clean_movie_name original_name ++ " (" ++ y ++ ")") = true.
Proof.
  intros Hy Hne. apply extract_year_some in Hy as [Hyr _].
  apply (radarr_format_complete _ y [] " "%char); auto.
  apply title_case_no_newline.
Qed.

Lemma renamed_folder_is_in_radarr_format_witness :
  MovieAnalyzer.is_radarr_format
    (MovieCleanup.clean_movie_name "the_matrix(1999)" ++ " (" ++ "1999" ++ ")") = true.
Proof.
  apply (renamed_folder_is_in_radarr_format "the_matrix(1999)" "1999").
  - vm_compute. reflexivity.
  - vm_compute. discriminate.
Defined.

(* ===================================================================== *)
(** * downloads_import.py : the copy functions and [main] *)
(* ===================================================================== *)

Section ImportMain.
Import DownloadsImport.

Lemma replace_existing_outcome dir_size fs source existing dry rb :
  outcome_ok dry fs (replace_existing dir_size fs source existing dry rb).
Proof.
  unfold replace_existing, outcome_ok.
  destruct rb; [|destruct dry; simpl; auto].
  destruct (compare_quality _ _ _ _) as [[[[better ?] ?] ?] ?].
  destruct better; [|destruct dry; simpl; auto].
  destruct dry; simpl; [auto|].
  destruct (unlink _ _); [|simpl; auto].
  destruct (copy2 _ _ _); simpl; auto.
Qed.

Lemma copy_into_outcome fs source dest_folder filename dry :
  outcome_ok dry fs (copy_into fs source dest_folder filename dry).
Proof.
  unfold copy_into, outcome_ok. destruct dry; simpl; [auto|].
  destruct (makedirs _ _); [|simpl; auto].
  destruct (copy2 _ _ _); simpl; auto.
Qed.

Lemma copy_movie_outcome dir_size fs source filename base dry rb :
  outcome_ok dry fs (copy_movie dir_size fs source filename base dry rb).
Proof.
  unfold copy_movie. destruct (check_file_exists_in_tree _ _ _).
  - apply replace_existing_outcome.
  - apply copy_into_outcome.
Qed.

Lemma copy_music_outcome dir_size fs source filename base dry rb :
  outcome_ok dry fs (copy_music dir_size fs source filename base dry rb).
Proof.
  unfold copy_music. destruct (check_file_exists_in_tree _ _ _).
  - apply replace_existing_outcome.
  - apply copy_into_outcome.
Qed.

Lemma copy_tv_show_outcome dir_size fs source filename base dry rb :
  outcome_ok dry fs (copy_tv_show dir_size fs source filename base dry rb).
Proof.
  unfold copy_tv_show.
  assert (outcome_ok dry fs ("error" : list ascii, fs)) as Herr
    by (unfold outcome_ok; destruct dry; simpl; auto).
  destruct (extract_tv_show_info filename) as [[show season]|]; [|done].
  destruct show as [|c show]; [done|].
  destruct (check_file_exists_in_tree _ _ _).
  - apply replace_existing_outcome.
  - apply copy_into_outcome.
Qed.

Lemma count_result_outcome dry fs out s :
  outcome_ok dry fs out →
  let s' := count_result out.1 s in
  total s' = total s ∧ movies s' = movies s ∧ tvshows s' = tvshows s ∧
  music s' = music s ∧
  (copied s' + replaced s' + would_copy s' + would_replace s' + skipped s' + errors s'
   = S (copied s + replaced s + would_copy s + would_replace s + skipped s + errors s))%nat ∧
  (if dry then copied s' = copied s ∧ replaced s' = replaced s
   else would_copy s' = would_copy s ∧ would_replace s' = would_replace s).
Proof.
  destruct s as [t m tv mu c r wc wr sk e]. destruct out as [res fs'].
  unfold outcome_ok. cbn [fst snd].
  destruct dry.
  - intros [_ [->|[->|[->| ->]]]]; simpl; repeat split; lia.
  - intros [->|[->|[->| ->]]]; simpl; repeat split; lia.
Qed.

Lemma process_file_step dir_size mp tp up dry rb s fs p :
  p ≠ [] →
  let out := process_file dir_size mp tp up dry rb (s, fs) p in
  total out.1 = S (total s) ∧
  (movies out.1 + tvshows out.1 + music out.1 = S (movies s + tvshows s + music s))%nat ∧
  (copied out.1 + replaced out.1 + would_copy out.1 + would_replace out.1
   + skipped out.1 + errors out.1
   = S (copied s + replaced s + would_copy s + would_replace s + skipped s + errors s))%nat ∧
  (if dry then copied out.1 = copied s ∧ replaced out.1 = replaced s ∧ out.2 = fs
   else would_copy out.1 = would_copy s ∧ would_replace out.1 = would_replace s).
Proof.
  intros Hp. destruct p as [|c0 p0]; [done|].
  destruct s as [t m tv mu c r wc wr sk e].
  cbn [process_file]. set (filename := basename (c0 :: p0)).
  destruct (categorize filename).
  - pose proof (copy_tv_show_outcome dir_size fs (c0 :: p0) filename tp dry rb) as Ho.
    destruct (copy_tv_show _ _ _ _ _ _ _) as [res fs'] eqn:E.
    pose proof (count_result_outcome dry fs (res, fs')
                  (Stats (S t) m (S tv) mu c r wc wr sk e) Ho) as H.
    cbn [fst snd] in *. destruct H as (H1 & H2 & H3 & H4 & H5 & H6).
    rewrite H1, H2, H3, H4, H5. cbn [total movies tvshows music copied replaced
      would_copy would_replace skipped errors] in *.
    split; [done|]. split; [lia|]. split; [lia|].
    destruct dry; [|done]. destruct H6 as [-> ->].
    unfold outcome_ok in Ho. cbn [fst snd] in Ho. destruct Ho as [-> _]. done.
  - pose proof (copy_music_outcome dir_size fs (c0 :: p0) filename up dry rb) as Ho.
    destruct (copy_music _ _ _ _ _ _ _) as [res fs'] eqn:E.
    pose proof (count_result_outcome dry fs (res, fs')
                  (Stats (S t) m tv (S mu) c r wc wr sk e) Ho) as H.
    cbn [fst snd] in *. destruct H as (H1 & H2 & H3 & H4 & H5 & H6).
    rewrite H1, H2, H3, H4, H5. cbn [total movies tvshows music copied replaced
      would_copy would_replace skipped errors] in *.
    split; [done|]. split; [lia|]. split; [lia|].
    destruct dry; [|done]. destruct H6 as [-> ->].
    unfold outcome_ok in Ho. cbn [fst snd] in Ho. destruct Ho as [-> _]. done.
  - pose proof (copy_movie_outcome dir_size fs (c0 :: p0) filename mp dry rb) as Ho.
    destruct (copy_movie _ _ _ _ _ _ _) as [res fs'] eqn:E.
    pose proof (count_result_outcome dry fs (res, fs')
                  (Stats (S t) (S m) tv mu c r wc wr sk e) Ho) as H.
    cbn [fst snd] in *. destruct H as (H1 & H2 & H3 & H4 & H5 & H6).
    rewrite H1, H2, H3, H4, H5. cbn [total movies tvshows music copied replaced
      would_copy would_replace skipped errors] in *.
    split; [done|]. split; [lia|]. split; [lia|].
    destruct dry; [|done]. destruct H6 as [-> ->].
    unfold outcome_ok in Ho. cbn [fst snd] in Ho. destruct Ho as [-> _]. done.
Qed.

Lemma process_files_fold dir_size mp tp up dry rb l s fs :
  Forall (λ p : list ascii, p ≠ []) l →
  let out := foldl (process_file dir_size mp tp up dry rb) (s, fs) l in
  total out.1 = (total s + length l)%nat ∧
  (movies out.1 + tvshows out.1 + music out.1
   = movies s + tvshows s + music s + length l)%nat ∧
  (copied out.1 + replaced out.1 + would_copy out.1 + would_replace out.1
   + skipped out.1 + errors out.1
   = copied s + replaced s + would_copy s + would_replace s + skipped s + errors s
     + length l)%nat ∧
  (if dry then copied out.1 = copied s ∧ replaced out.1 = replaced s ∧ out.2 = fs
   else would_copy out.1 = would_copy s ∧ would_replace out.1 = would_replace s).
Proof.
  revert s fs. induction l as [|p l IH]; intros s fs Hall; cbn [foldl length fst snd].
  - split; [lia|]. split; [lia|]. split; [lia|]. destruct dry; done.
  - apply Forall_cons in Hall as [Hp Hl].
    pose proof (process_file_step dir_size mp tp up dry rb s fs p Hp) as Hs.
    destruct (process_file dir_size mp tp up dry rb (s, fs) p) as [s1 fs1] eqn:E.
    cbn [fst snd] in Hs. destruct Hs as (H1 & H2 & H3 & H4).
    destruct (IH s1 fs1 Hl) as (I1 & I2 & I3 & I4).
    split; [lia|]. split; [lia|]. split; [lia|].
    destruct dry.
    + destruct H4 as (Ha & Hb & Hc). destruct I4 as (Ia & Ib & Ic).
      by rewrite Ia, Ib, Ic, Ha, Hb, Hc.
    + destruct H4 as (Ha & Hb). destruct I4 as (Ia & Ib).
      by rewrite Ia, Ib, Ha, Hb.
Qed.

Lemma ends_with_nonempty (suffix s : list ascii) :
  suffix ≠ [] → ends_with suffix s = true → s ≠ [].
Proof.
  intros Hne H ->. unfold ends_with in H. simpl in H.
  destruct (rev suffix) eqn:E; [|done].
  apply (f_equal (@rev ascii)) in E. rewrite rev_involutive in E. done.
Qed.

Lemma read_list_nonempty lines : Forall (λ p : list ascii, p ≠ []) (read_list lines).
Proof.
  unfold read_list. apply Forall_fmap, Forall_forall.
  intros line [_ H]%list_elem_of_In%filter_In. simpl.
  by apply (ends_with_nonempty ".mkv").
Qed.

(** X10. The summary of [main] adds up: every listed line that ends in
    [.mkv] once stripped is counted once, in exactly one category and with
    exactly one outcome; without a list file nothing is counted and nothing
    is touched. *)
Theorem import_summary_adds_up (dir_size : Z) (mp tp up : list ascii)
    (dry rb : bool) (input : option (list (list ascii))) (fs : store) :
  match input, (main dir_size mp tp up dry rb input fs).1 with
  | Some lines, Some s =>
      total s = length (List.filter (λ line, ends_with ".mkv" (strip line)) lines) ∧
      stats_add_up s
  | None, None => (main dir_size mp tp up dry rb input fs).2 = fs
  | _, _ => False
  end.
Proof.
  destruct input as [lines|]; [|done].
  unfold main.
  pose proof (process_files_fold dir_size mp tp up dry rb (read_list lines)
                (Stats 0 0 0 0 0 0 0 0 0 0) fs (read_list_nonempty lines)) as H.
  destruct (foldl _ _ _) as [s fs'] eqn:E. cbn [fst snd] in *.
  destruct H as (H1 & H2 & H3 & _).
  unfold read_list in H1, H2, H3. rewrite length_map in H1, H2, H3.
  split; [by rewrite H1|].
  destruct s as [t m tv mu c r wc wr sk e]. simpl in *. lia.
Qed.

(** X11. In dry-run mode the import leaves the file system untouched and
    counts nothing as copied or replaced; in live mode it counts nothing as
    [would_copy] or [would_replace]. *)
Theorem import_modes_are_kept_apart (dir_size : Z) (mp tp up : list ascii)
    (dry rb : bool) (input : option (list (list ascii))) (fs : store) :
  let out := main dir_size mp tp up dry rb input fs in
  (dry = true → out.2 = fs) ∧
  match out.1 with
  | Some s => stats_of_mode dry s
  | None => input = None
  end.
Proof.
  cbv zeta. destruct input as [lines|]; [|by destruct dry].
  unfold main.
  pose proof (process_files_fold dir_size mp tp up dry rb (read_list lines)
                (Stats 0 0 0 0 0 0 0 0 0 0) fs (read_list_nonempty lines)) as H.
  destruct (foldl _ _ _) as [s fs'] eqn:E. cbn [fst snd] in *.
  destruct H as (_ & _ & _ & H4). unfold stats_of_mode.
  destruct dry.
  - destruct H4 as (-> & -> & ->). done.
  - destruct H4 as (-> & ->). done.
Qed.

End ImportMain.

Section ImportFiles.
Import DownloadsImport.

Lemma starts_with_spec (p s : list ascii) :
  starts_with p s = true ↔ ∃ post, s = p ++ post.
Proof.
  revert s. induction p as [|x p IH]; intros s; simpl.
  - split; [eauto|done].
  - destruct s as [|y s]; [split; [done|by intros [? ?]]|].
    rewrite andb_true_iff, eqc_eq, IH. split.
    + intros [-> [post ->]]. eauto.
    + intros [post [= -> ->]]. eauto.
Qed.

Lemma contains_spec (p s : list ascii) :
  contains p s = true ↔ ∃ pre post, s = pre ++ p ++ post.
Proof.
  induction s as [|c s IH]; simpl.
  - rewrite orb_false_r, starts_with_spec. split.
    + intros [post H]. by exists [], post.
    + intros (pre & post & H). destruct pre; [eauto|done].
  - rewrite orb_true_iff, starts_with_spec, IH. split.
    + intros [[post H]|(pre & post & ->)]; [by exists [], post|by exists (c :: pre), post].
    + intros (pre & post & H). destruct pre as [|c' pre]; [left; eauto|].
      right. injection H as -> ->. eauto.
Qed.

(** X12. [is_music] is a substring test on the lower-cased name: a name is
    music exactly when it holds [album], [soundtrack], [ost] or [music]
    somewhere, in any case; so every name with such letters in a row that
    does not look like a television episode is filed as music. *)
Theorem music_is_a_substring_test (filename : list ascii) :
  (is_music filename = true ↔
   ∃ pat pre post, pat ∈ music_patterns ∧ lower filename = pre ++ pat ++ post) ∧
  (∀ pre mid post,
     filename = pre ++ mid ++ post → lower mid ∈ music_patterns →
     is_tv_show filename = false → categorize filename = Music).
Proof.
  assert (is_music filename = true ↔
   ∃ pat pre post, pat ∈ music_patterns ∧ lower filename = pre ++ pat ++ post) as Hm.
  { unfold is_music. rewrite existsb_exists. split.
    - intros (pat & Hin%list_elem_of_In & (pre & post & H)%contains_spec). eauto 10.
    - intros (pat & pre & post & Hin & H). exists pat.
      split; [by apply list_elem_of_In|]. apply contains_spec. eauto. }
  split; [exact Hm|].
  intros pre mid post -> Hmid Htv. unfold categorize. rewrite Htv.
  assert (is_music (pre ++ mid ++ post) = true) as ->; [|done].
  apply Hm. exists (lower mid), (lower pre), (lower post).
  split; [done|]. by rewrite !lower_app.
Qed.

Lemma music_is_a_substring_test_witness :
  categorize "Ghostbusters.1984.1080p.mkv" = Music.
Proof.
  destruct (music_is_a_substring_test "Ghostbusters.1984.1080p.mkv") as [_ H].
  apply (H "Gh" "ost" "busters.1984.1080p.mkv").
  - reflexivity.
  - vm_compute. right. right. left.
  - vm_compute. reflexivity.
Defined.

Lemma check_file_hit_path (fs : store) (root_folder filename existing : list ascii) :
  well_formed fs →
  check_file_exists_in_tree fs root_folder filename = Some existing →
  is_file fs (parse_path existing) = true ∧ name (parse_path existing) = filename.
Proof.
  intros Hwf Hc. apply check_file_hit in Hc as (q & -> & [k Hk] & Hf & Hname).
  apply is_file_spec in Hf as Hf'. destruct Hf' as [Hq [n Hn]].
  destruct (Hwf q _ Hn) as [Hval Hpar].
  assert (parse_path (foldl path_join root_folder
            (drop (length (parse_path root_folder)) q)) = q) as ->; [|done].
  clear Hn Hpar Hf Hq Hname. subst q. rewrite drop_app_length.
  rewrite parse_path_joins; [done|]. by apply Forall_app in Hval as [_ ?].
Qed.

Lemma replace_existing_failed dir_size fs source existing :
  (compare_quality dir_size fs source existing).1.1.1.1 = true →
  is_file fs (parse_path existing) = true →
  is_file fs (parse_path source) = false →
  replace_existing dir_size fs source existing false true =
  ("error" : list ascii, delete (parse_path existing) fs).
Proof.
  intros Hb He Hs. unfold replace_existing.
  destruct (compare_quality _ _ _ _) as [[[[better ?] ?] ?] ?].
  simpl in Hb. subst better.
  rewrite unlink_eq, He.
  assert (copy2 (delete (parse_path existing) fs) (parse_path source)
                (parse_path existing) = None) as ->; [|done].
  unfold copy2.
  destruct (node_at (delete (parse_path existing) fs) (parse_path source))
    as [[n|]|] eqn:Hn; [|done|done].
  exfalso. unfold is_file in Hs. unfold node_at in *.
  destruct (parse_path source) as [|c p]; [done|].
  destruct (decide (c :: p = parse_path existing)) as [E|E].
  - rewrite E, lookup_delete_eq in Hn. done.
  - rewrite lookup_delete_ne in Hn by done. by rewrite Hn in Hs.
Qed.

(** X13. A replacement removes the filed copy before it copies the new
    file.  When the incoming path scores higher but is not a regular file
    (a stale entry of the list, say), a live run with replacement enabled
    answers [error] and the filed copy is gone. *)
Theorem failed_replacement_loses_the_filed_copy (dir_size : Z) (fs : store)
    (source_path filename base_folder existing_path : list ascii) :
  well_formed fs →
  check_file_exists_in_tree fs base_folder filename = Some existing_path →
  (compare_quality dir_size fs source_path existing_path).1.1.1.1 = true →
  is_file fs (parse_path source_path) = false →
  is_file fs (parse_path existing_path) = true ∧
  copy_movie dir_size fs source_path filename base_folder false true =
    ("error" : list ascii, delete (parse_path existing_path) fs) ∧
  copy_music dir_size fs source_path filename base_folder false true =
    ("error" : list ascii, delete (parse_path existing_path) fs).
Proof.
  intros Hwf Hc Hb Hs.
  destruct (check_file_hit_path _ _ _ _ Hwf Hc) as [He _].
  split; [done|]. unfold copy_movie, copy_music. rewrite Hc.
  by rewrite replace_existing_failed.
Qed.

Lemma failed_replacement_loses_the_filed_copy_witness :
  is_file import_disk (parse_path "/lib/film/film.mkv") = true ∧
  copy_movie 4096 import_disk "/gone/2160p/film.mkv" "film.mkv" "/lib" false true =
    ("error" : list ascii, delete (parse_path "/lib/film/film.mkv") import_disk) ∧
  copy_music 4096 import_disk "/gone/2160p/film.mkv" "film.mkv" "/lib" false true =
    ("error" : list ascii, delete (parse_path "/lib/film/film.mkv") import_disk).
Proof.
  apply (failed_replacement_loses_the_filed_copy 4096 import_disk
           "/gone/2160p/film.mkv" "film.mkv" "/lib" "/lib/film/film.mkv").
  - apply well_formed_b_spec. vm_compute. reflexivity.
  - vm_compute. reflexivity.
  - vm_compute. reflexivity.
  - vm_compute. reflexivity.
Defined.

Lemma makedirs_go_keeps fs done todo fs' q x :
  makedirs_go fs done todo = Some fs' → fs !! q = Some x → fs' !! q = Some x.
Proof.
  revert fs done. induction todo as [|c todo IH]; intros fs done; simpl.
  - by intros [= <-].
  - destruct (fs !! (done ++ [c])) as [[n|]|] eqn:E; [done|by apply IH|].
    intros H Hq. eapply IH; [exact H|].
    rewrite lookup_insert_ne; [done|]. intros <-. congruence.
Qed.

Lemma replace_existing_frame dir_size fs source existing dry rb q x :
  fs !! q = Some x → q ≠ parse_path existing →
  (replace_existing dir_size fs source existing dry rb).2 !! q = Some x.
Proof.
  intros Hq Hne. unfold replace_existing.
  destruct rb; [|done].
  destruct (compare_quality _ _ _ _) as [[[[better ?] ?] ?] ?].
  destruct better; [|done]. destruct dry; [done|].
  rewrite unlink_eq. destruct (is_file fs (parse_path existing)); [|done].
  unfold copy2.
  destruct (node_at _ (parse_path source)) as [[n|]|];
    try (cbn [snd]; by rewrite lookup_delete_ne).
  destruct (parse_path existing) as [|c p] eqn:E;
    [cbn [snd]; by rewrite lookup_delete_ne|].
  destruct (_ && _); cbn [snd].
  - rewrite lookup_insert_ne by done. by rewrite lookup_delete_ne.
  - by rewrite lookup_delete_ne.
Qed.

Lemma copy_into_frame fs source dest_folder filename dry q x :
  valid_name filename →
  fs !! q = Some x → name q ≠ filename →
  (copy_into fs source dest_folder filename dry).2 !! q = Some x.
Proof.
  intros Hv Hq Hne. unfold copy_into. destruct dry; [done|].
  destruct (makedirs fs (parse_path dest_folder)) as [fs1|] eqn:Hm; [|done].
  assert (fs1 !! q = Some x) as Hq1 by by eapply makedirs_go_keeps.
  unfold copy2.
  destruct (node_at fs1 (parse_path source)) as [[n|]|]; [|done|done].
  rewrite parse_path_join by done.
  destruct (parse_path dest_folder ++ [filename]) as [|c p] eqn:E; [done|].
  destruct (_ && _); [|done]. cbn [snd].
  rewrite lookup_insert_ne; [done|]. intros <-. apply Hne.
  rewrite <- E. unfold name. apply List.last_last.
Qed.

Lemma copy_frame (dir_size : Z) (fs : store)
    (source_path filename base_folder : list ascii) (dry rb : bool)
    (q : path) (x : node) :
  well_formed fs → valid_name filename →
  fs !! q = Some x → name q ≠ filename →
  (copy_movie dir_size fs source_path filename base_folder dry rb).2 !! q = Some x ∧
  (copy_tv_show dir_size fs source_path filename base_folder dry rb).2 !! q = Some x ∧
  (copy_music dir_size fs source_path filename base_folder dry rb).2 !! q = Some x.
Proof.
  intros Hwf Hv Hq Hne.
  assert (∀ existing, check_file_exists_in_tree fs base_folder filename = Some existing →
            q ≠ parse_path existing) as Hex.
  { intros existing Hc E. destruct (check_file_hit_path _ _ _ _ Hwf Hc) as [_ Hn].
    apply Hne. by rewrite E. }
  unfold copy_movie, copy_tv_show, copy_music.
  destruct (check_file_exists_in_tree fs base_folder filename) as [existing|] eqn:Hc.
  - split; [by apply replace_existing_frame, Hex|].
    split; [|by apply replace_existing_frame, Hex].
    destruct (extract_tv_show_info filename) as [[[|c show] season]|]; [done| |done].
    by apply replace_existing_frame, Hex.
  - split; [by apply copy_into_frame|]. split; [|by apply copy_into_frame].
    destruct (extract_tv_show_info filename) as [[[|c show] season]|]; [done| |done].
    by apply copy_into_frame.
Qed.

Lemma eqc_sym a b : eqc a b = eqc b a.
Proof. unfold eqc. apply N.eqb_sym. Qed.

Lemma has_char_app c a b : has_char c (a ++ b) = has_char c a || has_char c b.
Proof. unfold has_char. apply existsb_app. Qed.

Lemma has_char_rev c a : has_char c (rev a) = has_char c a.
Proof.
  induction a as [|x a IH]; [done|]. simpl. rewrite has_char_app, IH. simpl.
  rewrite orb_false_r. apply orb_comm.
Qed.

Lemma split_on_go_last (sep : ascii) (cur s : list ascii) :
  has_char sep cur = false →
  ∃ pre, rev cur ++ s = pre ++ List.last (split_on_go sep cur s) [] ∧
         (pre = [] ∨ ∃ pre', pre = pre' ++ [sep]) ∧
         has_char sep (List.last (split_on_go sep cur s) []) = false.
Proof.
  revert cur. induction s as [|c s IH]; intros cur Hcur.
  - exists []. simpl. rewrite app_nil_r. split; [done|]. split; [by left|].
    by rewrite has_char_rev.
  - cbn [split_on_go]. destruct (eqc c sep) eqn:E.
    + apply eqc_eq in E. subst c.
      destruct (IH [] eq_refl) as (pre & Hs & Hpre & Hlast).
      pose proof (split_on_go_nonempty sep [] s) as Hne.
      destruct (split_on_go sep [] s) as [|y l] eqn:El; [done|].
      change (List.last (rev cur :: y :: l) []) with (List.last (y :: l) []).
      simpl in Hs. exists (rev cur ++ sep :: pre). split.
      { rewrite Hs. by rewrite <- app_assoc. }
      split; [|done]. right. destruct Hpre as [->|[pre' ->]].
      * exists (rev cur). done.
      * exists (rev cur ++ sep :: pre'). by rewrite <- app_assoc.
    + destruct (IH (c :: cur)) as (pre & Hs & Hpre & Hlast).
      { simpl. by rewrite eqc_sym, E. }
      exists pre. split; [|done]. rewrite <- Hs. simpl. by rewrite <- app_assoc.
Qed.

Lemma basename_of_mkv (p : list ascii) :
  ends_with ".mkv" p = true → valid_name (basename p).
Proof.
  intros He. unfold basename, split_on.
  destruct (split_on_go_last "/" [] p eq_refl) as (pre & Hp & Hpre & Hlast).
  simpl in Hp. set (b := List.last _ _) in *. clearbody b.
  unfold ends_with in He. apply starts_with_spec in He as [post Hrev].
  split; [|split; [|done]].
  - intros ->. rewrite app_nil_r in Hp. subst p.
    destruct Hpre as [->|[pre' ->]]; [done|].
    rewrite rev_app_distr in Hrev. done.
  - intros ->. subst p. rewrite rev_app_distr in Hrev. done.
Qed.

(** X14. Importing one listed file touches nothing but files of its own
    name: on a well-formed file system, every entry whose name is not the
    base name of the listed path is still there, unchanged, after the loop
    body of [main], whatever the category and the mode. *)
Theorem import_touches_only_the_file_name (dir_size : Z) (mp tp up : list ascii)
    (dry rb : bool) (s : stats) (fs : store) (file_path : list ascii)
    (q : path) (x : node) :
  well_formed fs →
  ends_with ".mkv" file_path = true →
  fs !! q = Some x → name q ≠ basename file_path →
  (process_file dir_size mp tp up dry rb (s, fs) file_path).2 !! q = Some x.
Proof.
  intros Hwf He Hq Hne.
  pose proof (basename_of_mkv file_path He) as Hv.
  destruct file_path as [|c0 p0]; [done|].
  destruct s as [t m tv mu c r wc wr sk e]. cbn [process_file].
  set (filename := basename (c0 :: p0)) in *.
  destruct (categorize filename).
  - destruct (copy_frame dir_size fs (c0 :: p0) filename tp dry rb q x Hwf Hv Hq Hne)
      as (_ & H & _).
    by destruct (copy_tv_show _ _ _ _ _ _ _).
  - destruct (copy_frame dir_size fs (c0 :: p0) filename up dry rb q x Hwf Hv Hq Hne)
      as (_ & _ & H).
    by destruct (copy_music _ _ _ _ _ _ _).
  - destruct (copy_frame dir_size fs (c0 :: p0) filename mp dry rb q x Hwf Hv Hq Hne)
      as (H & _ & _).
    by destruct (copy_movie _ _ _ _ _ _ _).
Qed.

Lemma import_touches_only_the_file_name_witness :
  (process_file 4096 "/lib" "/tv" "/music" false true
     (Stats 0 0 0 0 0 0 0 0 0 0, import_disk) "/dl/1080p/film.mkv").2
    !! mkpath ["dl"; "1080p"] = Some Dir.
Proof.
  apply (import_touches_only_the_file_name 4096 "/lib" "/tv" "/music" false true
           (Stats 0 0 0 0 0 0 0 0 0 0) import_disk "/dl/1080p/film.mkv"
           (mkpath ["dl"; "1080p"]) Dir).
  - apply well_formed_b_spec. vm_compute. reflexivity.
  - vm_compute. reflexivity.
  - vm_compute. reflexivity.
  - vm_compute. discriminate.
Defined.

End ImportFiles.

Section ImportNames.
Import DownloadsImport.
Local Open Scope Z_scope.

Lemma digit_val_range c : is_digit c = true → 0 ≤ digit_val c ≤ 9.
Proof.
  unfold is_digit, in_range, digit_val.
  intros [H1 H2]%andb_true_iff. apply N.leb_le in H1, H2. lia.
Qed.

Lemma int_of_two_digits (w : list ascii) :
  forallb is_digit w = true → (length w ≤ 2)%nat → 0 ≤ int_of w ≤ 99.
Proof.
  intros Hd Hl. unfold int_of.
  destruct w as [|a [|b [|c w]]]; simpl in *; [lia| | |lia].
  - apply andb_true_iff in Hd as [Ha _]. apply digit_val_range in Ha. lia.
  - apply andb_true_iff in Hd as [Ha Hd]. apply andb_true_iff in Hd as [Hb _].
    apply digit_val_range in Ha, Hb. lia.
Qed.

Lemma has_char_replace_dot s : has_char "." (replace_char "." " " s) = false.
Proof.
  induction s as [|c s IH]; [done|]. simpl. rewrite IH, orb_false_r.
  destruct (eqc c ".") eqn:E; [done|]. by rewrite eqc_sym.
Qed.

Lemma has_char_lstrip c s : has_char c s = false → has_char c (lstrip s) = false.
Proof.
  induction s as [|x s IH]; [done|]. simpl.
  intros [H1 H2]%orb_false_iff. destruct (is_space x); [by apply IH|].
  simpl. by rewrite H1, H2.
Qed.

Lemma has_char_strip c s : has_char c s = false → has_char c (strip s) = false.
Proof.
  intros H. unfold strip. rewrite has_char_rev. apply has_char_lstrip.
  rewrite has_char_rev. by apply has_char_lstrip.
Qed.

Lemma tv_info_of_sound (st0 st : mstate) (sep : re) (x : ascii) show season :
  groups st0 = [] →
  deng (seqs [Grp 1 (plus_lazy any); plus sep_class; sep;
              Grp 2 (upto is_digit 1 2); Chr (chi x); upto is_digit 1 2]) st0 st →
  (∀ s1 s2, deng sep s1 s2 → groups s2 = groups s1) →
  tv_info_of st = Some (show, season) →
  0 ≤ season ≤ 99 ∧ has_char "." show = false.
Proof.
  intros Hg0 Hd Hsep. simpl in Hd.
  destruct Hd as (s1 & (s1' & (w1 & a1 & Ha1 & Hw1 & _ & ->) & ->) &
                  s2 & (w2 & a2 & Ha2 & _ & _ & ->) &
                  s3 & Hs3 &
                  s4 & (s4' & (w4 & a4 & Ha4 & Hw4 & [_ Hhi] & ->) & ->) &
                  s5 & (c5 & a5 & Ha5 & _ & ->) &
                  (w6 & a6 & Ha6 & _ & _ & ->)).
  apply Hsep in Hs3. cbn [groups before after] in *.
  unfold tv_info_of. cbn [groups group Nat.eqb].
  rewrite Hs3, Hg0. cbn [group Nat.eqb].
  intros [= <- <-]. split.
  - destruct s3 as [b3 aa3 g3]. rewrite consumed_app.
    apply int_of_two_digits; [done|lia].
  - apply has_char_strip, has_char_replace_dot.
Qed.

(** X15. What [extract_tv_show_info] returns: a season number between 0
    and 99, and a show name without dots. *)
Theorem tv_info_is_well_formed (filename show : list ascii) (season : Z) :
  extract_tv_show_info filename = Some (show, season) →
  0 ≤ season ≤ 99 ∧ has_char "." show = false.
Proof.
  unfold extract_tv_show_info.
  destruct (search re_extract_sxe filename) as [st|] eqn:H1.
  - apply search_sound_groups in H1 as (w & a0 & _ & Hd).
    apply (tv_info_of_sound (MState (rev w) a0 []) st (Chr (chi "S")) "E" _ _ eq_refl Hd).
    intros s1 s2 (c & a & _ & _ & ->). done.
  - destruct (search re_extract_nxn filename) as [st|] eqn:H2; [|done].
    apply search_sound_groups in H2 as (w & a0 & _ & Hd).
    apply (tv_info_of_sound (MState (rev w) a0 []) st Eps "x" _ _ eq_refl).
    + simpl in *. destruct Hd as (s1 & Hs1 & s2 & Hs2 & Hrest).
      exists s1. split; [done|]. exists s2. split; [done|]. exists s2. done.
    + by intros s1 s2 ->.
Qed.

Lemma tv_info_is_well_formed_witness :
  0 ≤ 2 ≤ 99 ∧ has_char "." (String.list_ascii_of_string "Show Name") = false.
Proof.
  apply (tv_info_is_well_formed "Show.Name.S02E05.1080p.WEB-DL.mkv" "Show Name" 2).
  vm_compute. reflexivity.
Defined.

End ImportNames.

Section QualityScore.
Import DownloadsImport.

Lemma scan_lower {A B : Type} (R : A → B → Prop) r b a
    (k : mstate → option A) (k' : mstate → option B) :
  caseless_re r →
  (∀ st1, option_Forall2 R (k st1) (k' (lower_state st1))) →
  option_Forall2 R (scan r b a k) (scan r (lower b) (lower a) k').
Proof.
  intros Hr Hk. revert b. induction a as [|c a IH]; intros b.
  - pose proof (m_lower R r (MState b [] []) k k' Hr Hk) as H.
    change (lower_state (MState b [] [])) with (MState (lower b) [] []) in H.
    change (lower []) with (@nil ascii). cbn [scan].
    destruct (m r (MState b [] []) k), (m r (MState (lower b) [] []) k');
      inversion H; subst; by constructor.
  - pose proof (m_lower R r (MState b (c :: a) []) k k' Hr Hk) as H.
    change (lower_state (MState b (c :: a) []))
      with (MState (lower b) (to_lower c :: lower a) []) in H.
    change (lower (c :: a)) with (to_lower c :: lower a). cbn [scan].
    destruct (m r (MState b (c :: a) []) k),
      (m r (MState (lower b) (to_lower c :: lower a) []) k');
      inversion H; subst; [by constructor|]. apply (IH (c :: b)).
Qed.

Lemma found_lower (r : re) (s : list ascii) :
  caseless_re r → found r (lower s) = found r s.
Proof.
  intros Hr. unfold found, search.
  assert (option_Forall2 (λ _ _ : mstate, True)
            (scan r [] s Some) (scan r [] (lower s) Some)) as H.
  { apply (scan_lower (λ _ _, True) r [] s Some Some Hr). intros st1. by constructor. }
  destruct (scan r [] s Some), (scan r [] (lower s) Some); inversion H; done.
Qed.

Ltac caseless_class :=
  first [ apply caseless_chi
        | let c := fresh "c" in
          intros c; destruct c as [[] [] [] [] [] [] [] []]; vm_compute; reflexivity ].

Ltac caseless_pattern := simpl; repeat split; caseless_class.

Lemma caseless_2160p : caseless_re re_2160p. Proof. caseless_pattern. Qed.
Lemma caseless_1080p : caseless_re re_1080p. Proof. caseless_pattern. Qed.
Lemma caseless_720p : caseless_re re_720p. Proof. caseless_pattern. Qed.
Lemma caseless_480p : caseless_re re_480p. Proof. caseless_pattern. Qed.
Lemma caseless_hevc : caseless_re re_hevc. Proof. caseless_pattern. Qed.
Lemma caseless_avc : caseless_re re_avc. Proof. caseless_pattern. Qed.
Lemma caseless_hdr : caseless_re re_hdr. Proof. caseless_pattern. Qed.
Lemma caseless_bluray : caseless_re re_bluray. Proof. caseless_pattern. Qed.
Lemma caseless_web : caseless_re re_web. Proof. caseless_pattern. Qed.
Lemma caseless_hdtv : caseless_re re_hdtv. Proof. caseless_pattern. Qed.
Lemma caseless_audio_hq : caseless_re re_audio_hq. Proof. caseless_pattern. Qed.
Lemma caseless_audio_std : caseless_re re_audio_std. Proof. caseless_pattern. Qed.

(** X16. The quality score reads the name without regard to case, lies
    between 0 and 5300, and the resolution it reports is one of 0, 480,
    720, 1080 and 2160. *)
Theorem quality_score_ignores_case (filename : list ascii) :
  extract_quality_info (lower filename) = extract_quality_info filename ∧
  (0 ≤ (extract_quality_info filename).1 ≤ 5300)%Z ∧
  resolution (extract_quality_info filename).2 ∈ [0; 480; 720; 1080; 2160]%Z.
Proof.
  split.
  - unfold extract_quality_info, resolution_of, codec_of, hdr_of, source_of, audio_of.
    rewrite (found_lower _ _ caseless_2160p), (found_lower _ _ caseless_1080p),
      (found_lower _ _ caseless_720p), (found_lower _ _ caseless_480p),
      (found_lower _ _ caseless_hevc), (found_lower _ _ caseless_avc),
      (found_lower _ _ caseless_hdr), (found_lower _ _ caseless_bluray),
      (found_lower _ _ caseless_web), (found_lower _ _ caseless_hdtv),
      (found_lower _ _ caseless_audio_hq), (found_lower _ _ caseless_audio_std).
    done.
  - unfold extract_quality_info.
    assert (∃ res s1, resolution_of filename = (res, s1) ∧ (0 ≤ s1 ≤ 4000)%Z ∧
                      res ∈ [0; 480; 720; 1080; 2160]%Z) as (res & s1 & -> & H1 & Hres).
    { unfold resolution_of.
      destruct (found re_2160p filename), (found re_1080p filename),
        (found re_720p filename), (found re_480p filename);
        eexists _, _; (split; [reflexivity|]); (split; [lia|set_solver]). }
    assert (∃ cod s2, codec_of filename = (cod, s2) ∧ (0 ≤ s2 ≤ 300)%Z)
      as (cod & s2 & -> & H2).
    { unfold codec_of. destruct (found re_hevc filename), (found re_avc filename);
        eexists _, _; (split; [reflexivity|lia]). }
    assert (∃ hdr s3, hdr_of filename = (hdr, s3) ∧ (0 ≤ s3 ≤ 500)%Z)
      as (hdr & s3 & -> & H3).
    { unfold hdr_of. destruct (found re_hdr filename);
        eexists _, _; (split; [reflexivity|lia]). }
    assert (0 ≤ source_of filename ≤ 400)%Z as H4.
    { unfold source_of. destruct (found re_bluray filename), (found re_web filename),
        (found re_hdtv filename); lia. }
    assert (∃ aud s5, audio_of filename = (aud, s5) ∧ (0 ≤ s5 ≤ 100)%Z)
      as (aud & s5 & -> & H5).
    { unfold audio_of. destruct (found re_audio_hq filename), (found re_audio_std filename);
        eexists _, _; (split; [reflexivity|lia]). }
    cbn [fst snd resolution]. split; [lia|done].
Qed.

End QualityScore.

(* ===================================================================== *)
(** * movie_cleanup.py : [cleanup_empty_folders] *)
(* ===================================================================== *)

Lemma glob_suffix_nil fs item suffix :
  glob_suffix fs item suffix = [] ↔
  ∀ q, is_Some (fs !! q) → child_of item q = true → ends_with suffix (name q) = false.
Proof.
  unfold glob_suffix. split.
  - intros H q Hq Hc. destruct (ends_with suffix (name q)) eqn:E; [|done].
    assert (q ∈ List.filter (λ q, ends_with suffix (name q)) (iterdir fs item)) as Hin.
    { apply list_elem_of_In, filter_In. split; [|done].
      apply list_elem_of_In, elem_of_iterdir. done. }
    rewrite H in Hin. by apply elem_of_nil in Hin.
  - intros H. destruct (List.filter _ _) as [|q l] eqn:E; [done|].
    assert (q ∈ List.filter (λ q, ends_with suffix (name q)) (iterdir fs item)) as Hin
      by (rewrite E; left).
    apply list_elem_of_In, filter_In in Hin as [Hin He].
    apply list_elem_of_In, elem_of_iterdir in Hin as [Hq Hc].
    by rewrite H in He.
Qed.

Lemma no_video_spec fs item :
  no_video fs item = true ↔
  ∀ q, is_Some (fs !! q) → child_of item q = true →
       ends_with ".mkv" (name q) = false ∧ ends_with ".mp4" (name q) = false ∧
       ends_with ".avi" (name q) = false ∧ ends_with ".m4v" (name q) = false.
Proof.
  unfold no_video. rewrite Nat.eqb_eq, length_zero_iff_nil.
  split.
  - intros H q Hq Hc.
    apply app_eq_nil in H as [H1 H]. apply app_eq_nil in H as [H2 H].
    apply app_eq_nil in H as [H3 H4].
    rewrite glob_suffix_nil in H1, H2, H3, H4. auto.
  - intros H.
    assert (∀ suffix, (∀ q, is_Some (fs !! q) → child_of item q = true →
                            ends_with suffix (name q) = false) →
                      glob_suffix fs item suffix = []) as Hg
      by (intros; by apply glob_suffix_nil).
    rewrite !Hg; [done|intros q Hq Hc; by destruct (H q Hq Hc) as (?&?&?&?)..].
Qed.

(** Two stores that agree on [item] and on its entries. *)
Lemma no_video_agree fs fs' item :
  (∀ q, child_of item q = true → fs' !! q = fs !! q) →
  no_video fs' item = no_video fs item.
Proof.
  intros H. apply eq_true_iff_eq. rewrite !no_video_spec.
  split; intros Hn q Hq Hc; apply Hn; try done.
  - by rewrite H.
  - by rewrite <- H.
Qed.

Lemma empty_step_eq dry st item :
  empty_step dry st item =
  if is_dir st.2 item && no_video st.2 item
  then (st.1 ++ [empty_action item],
        if dry then st.2
        else match rmdir st.2 item with Some fs' => fs' | None => st.2 end)
  else st.
Proof.
  destruct st as [actions fs]. unfold empty_step, no_video, empty_action. cbn [fst snd].
  destruct (is_dir fs item); [|done]. cbn [negb andb].
  destruct (Nat.eqb _ 0); [|done].
  destruct dry; [done|]. cbn [negb]. by destruct (rmdir fs item).
Qed.

Lemma rmdir_lookup fs p fs' q :
  rmdir fs p = Some fs' → fs' !! q = if bool_decide (q = p) then None else fs !! q.
Proof.
  unfold rmdir. destruct p as [|c p]; [done|].
  destruct (_ && _); [|done]. intros [= <-].
  case_bool_decide as E; [subst; apply lookup_delete_eq|by apply lookup_delete_ne].
Qed.

(** The loop of [cleanup_empty_folders] over items of the root: the plan
    does not depend on the mode, and the live run differs from the start
    only by removed items. *)
Lemma empty_loop root fs items st_dry st_live :
  Forall (λ item, child_of root item = true) items →
  st_live.1 = st_dry.1 → st_dry.2 = fs →
  (∀ q, child_of root q = false → st_live.2 !! q = fs !! q) →
  (∀ q, q ∈ items → st_live.2 !! q = fs !! q) →
  NoDup items →
  st_live.2 ⊆ fs → files st_live.2 = files fs →
  let dry := foldl (empty_step true) st_dry items in
  let live := foldl (empty_step false) st_live items in
  live.1 = dry.1 ∧ dry.2 = fs ∧ live.2 ⊆ fs ∧ files live.2 = files fs ∧
  dry.1 = st_dry.1 ++
          map empty_action (List.filter (λ item, is_dir fs item && no_video fs item) items).
Proof.
  revert st_dry st_live.
  induction items as [|item items IH];
    intros st_dry st_live Hch Hacts Hdry Hother Hitems Hnd Hsub Hfiles.
  - cbn [foldl List.filter map]. by rewrite app_nil_r.
  - apply Forall_cons in Hch as [Hc Hch]. apply NoDup_cons in Hnd as [Hni Hnd].
    cbn [foldl]. rewrite !empty_step_eq.
    assert (is_dir st_live.2 item = is_dir fs item) as Hd.
    { unfold is_dir, node_at. destruct item; [done|]. rewrite Hitems; [done|left]. }
    assert (no_video st_live.2 item = no_video fs item) as Hv.
    { apply no_video_agree. intros q Hq. apply Hother.
      destruct (child_of root q) eqn:E; [|done].
      apply child_of_length in E, Hq. apply child_of_length in Hc. lia. }
    rewrite Hd, Hv, Hdry.
    cbn [List.filter].
    destruct (is_dir fs item && no_video fs item) eqn:Hrep.
    + set (live1 := (st_live.1 ++ [empty_action item],
                     match rmdir st_live.2 item with
                     | Some fs' => fs' | None => st_live.2 end)).
      set (dry1 := (st_dry.1 ++ [empty_action item], fs)).
      assert (∀ q, live1.2 !! q = if bool_decide (q = item) then live1.2 !! q
                                  else st_live.2 !! q) as Hl1.
      { intros q. case_bool_decide; [done|]. unfold live1. cbn [snd].
        destruct (rmdir st_live.2 item) as [fs'|] eqn:Hr; [|done].
        rewrite (rmdir_lookup _ _ _ _ Hr). by rewrite bool_decide_eq_false_2. }
      destruct (IH dry1 live1) as (I1 & I2 & I3 & I4 & I5); try done.
      * unfold live1, dry1. cbn [fst]. by rewrite Hacts.
      * intros q Hq. rewrite Hl1. case_bool_decide as E; [|by apply Hother].
        subst q. by rewrite Hc in Hq.
      * intros q Hq. rewrite Hl1. rewrite bool_decide_eq_false_2.
        -- apply Hitems. by right.
        -- intros ->. done.
      * unfold live1. cbn [snd]. destruct (rmdir st_live.2 item) as [fs'|] eqn:Hr; [|done].
        etrans; [by eapply rmdir_subseteq|done].
      * unfold live1. cbn [snd]. destruct (rmdir st_live.2 item) as [fs'|] eqn:Hr; [|done].
        by rewrite (rmdir_files _ _ _ Hr).
      * cbv zeta. split; [done|]. split; [done|]. split; [done|]. split; [done|].
        rewrite I5. unfold dry1. cbn [fst map]. by rewrite <- app_assoc.
    + destruct st_dry as [ad fd]. cbn [snd] in Hdry. subst fd.
      destruct (IH (ad, fs) st_live) as (I1 & I2 & I3 & I4 & I5); try done.
      intros q Hq. apply Hitems. by right.
Qed.

Lemma cleanup_plan (root : path) (fs : store) :
  (cleanup_empty_folders root true fs).1 = map empty_action (reported_empty fs root).
Proof.
  unfold cleanup_empty_folders, reported_empty.
  apply (empty_loop root fs (sort_by path_leb (iterdir fs root)) ([], fs) ([], fs));
    try done.
  - apply Forall_forall. intros item Hin%elem_of_sort_by.
    by apply elem_of_iterdir in Hin as [_ ?].
  - rewrite sort_by_perm. apply NoDup_iterdir.
Qed.

(** X17. [cleanup_empty_folders] reports the same folders in both modes:
    the directories directly inside the root that hold no entry ending in
    [.mkv], [.mp4], [.avi] or [.m4v].  A dry run changes nothing; a live
    run only removes entries and never a regular file. *)
Theorem empty_folder_cleanup_keeps_files (root : path) (fs : store) :
  let dry := cleanup_empty_folders root true fs in
  let live := cleanup_empty_folders root false fs in
  live.1 = dry.1 ∧ dry.2 = fs ∧ live.2 ⊆ fs ∧ files live.2 = files fs ∧
  dry.1 = map empty_action (reported_empty fs root).
Proof.
  unfold cleanup_empty_folders, reported_empty.
  set (items := sort_by path_leb (iterdir fs root)).
  assert (Forall (λ item, child_of root item = true) items) as Hch.
  { apply Forall_forall. intros item Hin%elem_of_sort_by.
    by apply elem_of_iterdir in Hin as [_ ?]. }
  assert (NoDup items) as Hnd.
  { unfold items. rewrite sort_by_perm. apply NoDup_iterdir. }
  by apply (empty_loop root fs items ([], fs) ([], fs)).
Qed.

Lemma empty_action_effect (item : path) :
  Forall valid_name item → item ≠ [] →
  effect_of (empty_action item) = Deletes (PStr (path_str item)) item.
Proof.
  intros Hv Hne. destruct item as [|c p]; [done|].
  rewrite (effect_of_delete (empty_action (c :: p)) (path_str (c :: p))); [|done|done|done].
  by rewrite parse_path_str.
Qed.

Lemma foldl_effects_removes (root item q : path) es st :
  (∀ src p, Deletes src p ∈ es → child_of root p = true) →
  child_of root item = true → child_of item q = true →
  (disk st !! q = None ∨ (is_dir (disk st) item = true ∧ is_file (disk st) q = true)) →
  (disk st !! q = None ∨ ∃ src, Deletes src item ∈ es) →
  disk (foldl (apply_effect false) st es) !! q = None.
Proof.
  intros Hall Hitem Hq. revert st.
  induction es as [|e es IH]; intros st HP Hin.
  - destruct Hin as [?|[src Hin]]; [done|]. by apply elem_of_nil in Hin.
  - cbn [foldl].
    assert (∀ src p, Deletes src p ∈ es → child_of root p = true) as Hall'
      by (intros src p Hp; apply (Hall src p); by right).
    destruct e as [rs|src p].
    { apply IH; [done|exact HP|].
      destruct Hin as [?|[src [?|?]%elem_of_cons]]; [by left|done|right; eauto]. }
    assert (child_of root p = true) as Hp by (apply (Hall src p); left).
    cbn [apply_effect negb]. destruct HP as [Hnone|[Hd Hf]].
    + apply IH; [done| |]; left; cbn [disk];
        eapply lookup_weaken_None; [exact Hnone|apply delete_on_disk_subseteq |
                                    exact Hnone|apply delete_on_disk_subseteq].
    + destruct (decide (p = item)) as [->|Hne].
      * assert (delete_on_disk (disk st) item !! q = None) as Hgone.
        { rewrite delete_on_disk_dir_lookup by done.
          rewrite bool_decide_eq_false_2.
          - by rewrite Hq, Hf.
          - intros ->. by rewrite child_of_self in Hq. }
        apply IH; [done| |]; by left.
      * assert (q ≠ p) as Hqp.
        { intros ->. apply child_of_length in Hq, Hp. apply child_of_length in Hitem. lia. }
        assert (child_of p q = false) as Hcq.
        { destruct (child_of p q) eqn:E; [|done]. exfalso.
          unfold child_of in E, Hq. destruct q; [done|].
          apply bool_decide_eq_true in E, Hq. congruence. }
        assert (child_of p item = false) as Hci.
        { destruct (child_of p item) eqn:E; [|done]. exfalso.
          apply child_of_length in E, Hp. apply child_of_length in Hitem. lia. }
        apply IH; [done| |].
        -- right. cbn [disk]. split.
           ++ unfold is_dir, node_at in *. destruct item as [|ci it]; [done|].
              by rewrite delete_on_disk_other.
           ++ unfold is_file, node_at in *. destruct q as [|cq q']; [done|].
              by rewrite delete_on_disk_other.
        -- destruct Hin as [Hn|[src' [[= _ E]|?]%elem_of_cons]];
             [left; cbn [disk]; by rewrite delete_on_disk_other|done|right; eauto].
Qed.

(** X18. Executing the plan of [cleanup_empty_folders] empties the reported
    folders: on a well-formed file system, every regular file directly
    inside a reported folder (subtitles, or a film whose suffix is written
    in capitals) is removed by a live run of the executor on that plan. *)
Theorem executing_the_cleanup_plan_removes_files (root : path) (fs : store)
    (item q : path) :
  well_formed fs →
  item ∈ reported_empty fs root →
  child_of item q = true → is_file fs q = true →
  (execute_actions (cleanup_empty_folders root true fs).1 false fs).2 !! q = None.
Proof.
  intros Hwf Hitem Hq Hf.
  rewrite cleanup_plan.
  assert (∀ it, it ∈ reported_empty fs root →
                child_of root it = true ∧ is_dir fs it = true ∧
                effect_of (empty_action it) = Deletes (PStr (path_str it)) it) as Hrep.
  { intros it [Hin Hd]%list_elem_of_In%filter_In.
    apply list_elem_of_In, elem_of_sort_by, elem_of_iterdir in Hin as [[n Hn] Hc].
    apply andb_true_iff in Hd as [Hd _].
    split; [done|]. split; [done|].
    apply empty_action_effect; [by destruct (Hwf _ _ Hn)|].
    intros ->. done. }
  destruct (Hrep item Hitem) as (Hc & Hd & He).
  unfold execute_actions. cbn [snd]. rewrite foldl_run_action.
  eapply lookup_weaken_None; [|apply foldl_cleanup_subseteq].
  apply (foldl_effects_removes root item q); [|done|done| |].
  - intros src p (e & Hp & (it & -> & Hit)%list_elem_of_fmap)%list_elem_of_fmap.
    destruct (Hrep it Hit) as (Hcit & _ & Heit). rewrite Heit in Hp.
    by injection Hp as _ ->.
  - right. done.
  - right. exists (PStr (path_str item)). apply list_elem_of_fmap.
    exists (empty_action item). split; [done|]. apply list_elem_of_fmap. eauto.
Qed.

Lemma executing_the_cleanup_plan_removes_files_witness :
  (execute_actions (cleanup_empty_folders (mkpath ["lib"]) true leftovers_disk).1
                   false leftovers_disk).2
    !! mkpath ["lib"; "Old"; "OLD.MKV"] = None.
Proof.
  apply (executing_the_cleanup_plan_removes_files (mkpath ["lib"]) leftovers_disk
           (mkpath ["lib"; "Old"]) (mkpath ["lib"; "Old"; "OLD.MKV"])).
  - apply well_formed_b_spec. vm_compute. reflexivity.
  - apply list_elem_of_In. vm_compute. left. reflexivity.
  - vm_compute. reflexivity.
  - vm_compute. reflexivity.
Defined.

(* ===================================================================== *)
(** * movie_cleanup_2.py : the executor *)
(* ===================================================================== *)

Section Executor2.
Import MovieCleanup2.

Lemma execute_one_spec (s : stats) (ex : executor) (a : dict) :
  match execute_one (s, ex) a with
  | inl k => missing_key a = Some k
  | inr st' =>
      missing_key a = None ∧
      stats_sum st'.1 = (stats_sum s + if counted a then 1 else 0)%nat
  end.
Proof.
  unfold execute_one, missing_key, counted, get. destruct s as [m d k e].
  destruct (a !! key "action") as [t|]; [|done].
  destruct (a !! key "source") as [src|]; [|done].
  destruct (is_str t "move") eqn:Hm.
  - destruct (a !! key "destination") as [dst|]; [|done].
    destruct (execute_move ex src dst) as [[success ?] ex'].
    split; [done|]. destruct success; unfold stats_sum; simpl; lia.
  - destruct (is_str t "delete") eqn:Hd.
    + destruct (execute_delete_value ex src) as [success ex'].
      split; [done|]. destruct success; unfold stats_sum; simpl; lia.
    + destruct (is_str t "keep"); split; try done; unfold stats_sum; simpl; lia.
Qed.

Lemma execute_loop_spec (st : stats * executor) (actions : list dict) :
  match execute_loop st actions with
  | (None, st') =>
      Forall (λ a, missing_key a = None) actions ∧
      stats_sum st'.1 = (stats_sum st.1 + length (List.filter counted actions))%nat
  | (Some k, st') =>
      ∃ done a rest,
        actions = done ++ a :: rest ∧
        Forall (λ a, missing_key a = None) done ∧ missing_key a = Some k ∧
        execute_loop st done = (None, st')
  end.
Proof.
  revert st. induction actions as [|a actions IH]; intros st.
  - cbn [execute_loop List.filter length]. split; [done|lia].
  - cbn [execute_loop]. destruct st as [s ex].
    pose proof (execute_one_spec s ex a) as H1.
    destruct (execute_one (s, ex) a) as [k|st1] eqn:E1.
    + exists [], a, actions. done.
    + destruct H1 as [Hok Hsum]. specialize (IH st1).
      destruct (execute_loop st1 actions) as [[k|] st'] eqn:E2.
      * destruct IH as (done & b & rest & -> & Hdone & Hb & Hloop).
        exists (a :: done), b, rest. split; [done|]. split; [by constructor|].
        split; [done|]. cbn [execute_loop]. by rewrite E1.
      * destruct IH as [Hall Hs]. split; [by constructor|].
        cbn [List.filter fst] in *. rewrite Hs, Hsum.
        destruct (counted a); cbn [length]; lia.
Qed.

(** X19. [execute_all] either accounts for every action or stops at the
    first malformed one.  When no action lacks [action], [source] or, for a
    move, [destination], the four counters add up to the number of [move],
    [delete] and [keep] actions, any other action being passed over.
    Otherwise the run ends with a [KeyError] for the first missing key: the
    actions before it have been carried out, the folder clean-up has not
    run. *)
Theorem execute_all_accounts_or_stops (ex : executor) (actions : list dict) :
  match (execute_all ex actions).1 with
  | inr s =>
      Forall (λ a, missing_key a = None) actions ∧
      stats_sum s = length (List.filter counted actions)
  | inl k =>
      ∃ done a rest,
        actions = done ++ a :: rest ∧
        Forall (λ a, missing_key a = None) done ∧ missing_key a = Some k ∧
        ∃ s' ex', execute_loop (Stats 0 0 0 0, ex) done = (None, (s', ex')) ∧
                  (execute_all ex actions).2 = disk ex'
  end.
Proof.
  unfold execute_all.
  pose proof (execute_loop_spec (Stats 0 0 0 0, ex) actions) as H.
  destruct (execute_loop (Stats 0 0 0 0, ex) actions) as [[k|] [s' ex']].
  - destruct H as (done & a & rest & -> & Hdone & Ha & Hloop).
    exists done, a, rest. split; [done|]. split; [done|]. split; [done|].
    exists s', ex'. done.
  - done.
Qed.

Lemma split_on_go_pieces_no_sep (sep : ascii) (cur s : list ascii) :
  has_char sep cur = false →
  Forall (λ c, has_char sep c = false) (split_on_go sep cur s).
Proof.
  revert cur. induction s as [|c s IH]; intros cur Hcur; cbn [split_on_go].
  - constructor; [by rewrite has_char_rev|constructor].
  - destruct (eqc c sep) eqn:E.
    + constructor; [by rewrite has_char_rev|]. by apply IH.
    + apply IH. simpl. by rewrite eqc_sym, E.
Qed.

Lemma parse_path_valid (s : list ascii) : Forall valid_name (parse_path s).
Proof.
  unfold parse_path. apply Forall_forall.
  intros c [Hin Hc]%list_elem_of_In%filter_In.
  pose proof (split_on_go_pieces_no_sep "/" [] s eq_refl) as Hp.
  eapply Forall_forall in Hp; [|apply list_elem_of_In; exact Hin].
  apply negb_true_iff, orb_false_iff in Hc as [H1 H2].
  split; [|split; [|done]].
  - intros ->. by rewrite eqs_refl in H1.
  - intros ->. by rewrite eqs_refl in H2.
Qed.

Lemma name_valid (p : path) : Forall valid_name p → p ≠ [] → valid_name (name p).
Proof.
  intros Hv Hne. unfold name.
  destruct (exists_last Hne) as (p' & c & ->).
  rewrite List.last_last. by apply Forall_app in Hv as [_ [? _]%Forall_cons].
Qed.

Lemma os_rename_file (fs : store) (src dst : path) (n : Z) :
  node_at fs src = Some (File n) → dst ≠ [] → src ≠ dst →
  is_dir fs dst = false → is_dir fs (parent dst) = true →
  os_rename fs src dst = Some (<[dst := File n]> (delete src fs)).
Proof.
  intros Hs Hd Hne Hnd Hp. unfold os_rename. rewrite Hs.
  destruct src as [|c p]; [done|]. destruct dst as [|c' p']; [done|].
  rewrite bool_decide_eq_false_2 by done. by rewrite Hnd, Hp.
Qed.

(** X20. Moving a regular file into an existing directory puts it there
    under its own name, replaces a regular file of that name without
    notice, removes the source path and records the source folder for the
    clean-up; nothing else changes. *)
Theorem move_puts_the_file_into_the_folder (ex : executor)
    (source destination : list ascii) (n : Z) :
  let src_path := parse_path source in
  let dest_path := parse_path destination in
  let full_dest := dest_path ++ [name src_path] in
  names_a_directory source = false →
  node_at (disk ex) src_path = Some (File n) →
  is_dir (disk ex) dest_path = true →
  is_dir (disk ex) full_dest = false →
  full_dest ≠ src_path →
  execute_move ex (PStr source) (PStr destination) =
    ((true, None),
     Executor ({[ parent src_path ]} ∪ folders_to_check ex)
              (<[full_dest := File n]> (delete src_path (disk ex)))).
Proof.
  intros ps pd full Hplain Hsrc Hdir Hfull Hne.
  assert (ps ≠ []) as Hps by (intros E; rewrite E in Hsrc; done).
  assert (valid_name (name ps)) as Hname
    by (apply name_valid; [apply parse_path_valid|done]).
  assert (is_dir (disk ex) ps = false) as Hnd
    by (unfold is_dir; by rewrite Hsrc).
  unfold execute_move. fold ps pd.
  assert (exists_ (disk ex) pd = true) as ->.
  { unfold exists_. unfold is_dir in Hdir. by destruct (node_at (disk ex) pd). }
  rewrite (parse_path_name _ Hname). fold full.
  assert (shutil_move (disk ex) source (path_str full) =
          (true, <[full := File n]> (delete ps (disk ex)))) as ->; [|done].
  unfold shutil_move. fold ps. rewrite Hplain, Hnd.
  rewrite parse_path_str.
  2:{ apply Forall_app. split; [apply parse_path_valid|by constructor]. }
  rewrite Hfull. cbn [andb].
  rewrite (os_rename_file _ _ _ n); [done|done| |by apply not_eq_sym|done|].
  - unfold full. by destruct pd.
  - unfold full, parent. by rewrite removelast_last.
Qed.

Lemma move_puts_the_file_into_the_folder_witness :
  execute_move (Executor ∅ import_disk) (str "/dl/1080p/film.mkv") (str "/lib/film") =
    ((true, None),
     Executor ({[ mkpath ["dl"; "1080p"] ]} ∪ ∅)
              (<[mkpath ["lib"; "film"; "film.mkv"] := File 500]>
                 (delete (mkpath ["dl"; "1080p"; "film.mkv"]) import_disk))).
Proof.
  apply (move_puts_the_file_into_the_folder (Executor ∅ import_disk)
           "/dl/1080p/film.mkv" "/lib/film" 500).
  - vm_compute. reflexivity.
  - vm_compute. reflexivity.
  - vm_compute. reflexivity.
  - vm_compute. reflexivity.
  - vm_compute. discriminate.
Defined.

Lemma cleanup_step_spec (fs0 : store) (st : list path * store) (folder : path) :
  st.2 ⊆ fs0 → files st.2 = files fs0 →
  (∀ q, q ∉ st.1 → st.2 !! q = fs0 !! q) →
  Forall (λ p, fs0 !! p = Some Dir ∧ st.2 !! p = None) st.1 →
  let st' := cleanup_step st folder in
  st'.2 ⊆ fs0 ∧ files st'.2 = files fs0 ∧
  (∀ q, q ∉ st'.1 → st'.2 !! q = fs0 !! q) ∧
  Forall (λ p, fs0 !! p = Some Dir ∧ st'.2 !! p = None) st'.1 ∧
  (∀ p, p ∈ st'.1 → p ∈ st.1 ∨ p = folder).
Proof.
  destruct st as [deleted fs]. cbn [fst snd]. intros Hsub Hfiles Hframe Hdel.
  unfold cleanup_step.
  destruct (exists_ fs folder && is_dir fs folder) eqn:Hd; [|by auto 10].
  case_bool_decide as Hempty; [|by auto 10].
  destruct (rmdir fs folder) as [fs'|] eqn:Hr; [|by auto 10].
  cbn [fst snd].
  assert (folder ≠ [] ∧ fs !! folder = Some Dir) as [Hne Hdir].
  { unfold rmdir in Hr. destruct folder as [|c p]; [done|]. split; [done|].
    apply andb_true_iff in Hd as [_ Hd]. by apply is_dir_spec in Hd as [?|?]. }
  split; [etrans; [by eapply rmdir_subseteq|done]|].
  split; [by rewrite (rmdir_files _ _ _ Hr)|].
  split; [|split].
  - intros q Hq. rewrite (rmdir_lookup _ _ _ _ Hr).
    rewrite bool_decide_eq_false_2.
    + apply Hframe. intros ?. apply Hq. apply elem_of_app. by left.
    + intros ->. apply Hq. apply elem_of_app. right. left.
  - apply Forall_app. split.
    + eapply Forall_impl; [exact Hdel|]. intros p [H1 H2]. split; [done|].
      eapply lookup_weaken_None; [exact H2|by eapply rmdir_subseteq].
    + apply Forall_singleton. split.
      * eapply lookup_weaken; [exact Hdir|done].
      * rewrite (rmdir_lookup _ _ _ _ Hr). by rewrite bool_decide_eq_true_2.
  - intros p [?|Hp%list_elem_of_singleton]%elem_of_app; auto.
Qed.

(** X21. The final clean-up of [execute_all] never removes a regular file:
    it only removes entries, each of them a directory among the recorded
    source folders, and leaves every other path as it was. *)
Theorem tracked_cleanup_removes_only_folders (ex : executor) :
  let out := MovieCleanup2.cleanup_empty_folders ex in
  out.2 ⊆ disk ex ∧ files out.2 = files (disk ex) ∧
  (∀ q, q ∉ out.1 → out.2 !! q = disk ex !! q) ∧
  Forall (λ p, p ∈ folders_to_check ex ∧ disk ex !! p = Some Dir ∧ out.2 !! p = None)
         out.1.
Proof.
  cbv zeta. unfold MovieCleanup2.cleanup_empty_folders.
  assert (∀ l st,
    (∀ p, p ∈ l → p ∈ folders_to_check ex) →
    st.2 ⊆ disk ex → files st.2 = files (disk ex) →
    (∀ q, q ∉ st.1 → st.2 !! q = disk ex !! q) →
    Forall (λ p, disk ex !! p = Some Dir ∧ st.2 !! p = None) st.1 →
    (∀ p, p ∈ st.1 → p ∈ folders_to_check ex) →
    let out := foldl cleanup_step st l in
    out.2 ⊆ disk ex ∧ files out.2 = files (disk ex) ∧
    (∀ q, q ∉ out.1 → out.2 !! q = disk ex !! q) ∧
    Forall (λ p, disk ex !! p = Some Dir ∧ out.2 !! p = None) out.1 ∧
    (∀ p, p ∈ out.1 → p ∈ folders_to_check ex)) as Hloop.
  { induction l as [|folder l IH]; intros st Hl H1 H2 H3 H4 H5; [by cbn|].
    cbn [foldl].
    destruct (cleanup_step_spec (disk ex) st folder H1 H2 H3 H4)
      as (S1 & S2 & S3 & S4 & S5).
    apply IH; try done.
    - intros p Hp. apply Hl. by right.
    - intros p Hp. destruct (S5 p Hp) as [?| ->]; [by apply H5|apply Hl; left]. }
  destruct (Hloop (sort_by str_leb (elements (folders_to_check ex))) ([], disk ex))
    as (O1 & O2 & O3 & O4 & O5); try done.
  - intros p Hp%elem_of_sort_by. by apply elem_of_elements in Hp.
  - by intros p ?%elem_of_nil.
  - split; [done|]. split; [done|]. split; [done|].
    apply Forall_forall. intros p Hp. split; [by apply O5|].
    eapply Forall_forall in O4; [|exact Hp]. done.
Qed.

End Executor2.

(* ===================================================================== *)
(** * downloads_import.py : looking a file up, naming a movie folder *)
(* ===================================================================== *)

Section ImportLookup.
Import DownloadsImport.

Lemma sort_by_nil {A} (le : A → A → bool) (l : list A) : sort_by le l = [] → l = [].
Proof.
  intros H. pose proof (sort_by_perm le l) as Hp. rewrite H in Hp.
  by apply Permutation_nil_l in Hp.
Qed.

(** X22. [check_file_exists_in_tree] finds a file exactly when there is
    one: on a well-formed file system its answer is the path of a regular
    file of the given name below the root folder, and it answers [None]
    only when no regular file below the root folder has that name. *)
Theorem lookup_finds_a_file_when_there_is_one (fs : store)
    (root_folder filename : list ascii) :
  well_formed fs →
  match check_file_exists_in_tree fs root_folder filename with
  | Some existing =>
      is_file fs (parse_path existing) = true ∧
      name (parse_path existing) = filename ∧
      parse_path root_folder `prefix_of` parse_path existing
  | None =>
      ∀ q, parse_path root_folder `prefix_of` q → q ≠ parse_path root_folder →
           is_file fs q = true → name q ≠ filename
  end.
Proof.
  intros Hwf.
  destruct (check_file_exists_in_tree fs root_folder filename) as [existing|] eqn:Hc.
  - destruct (check_file_hit_path _ _ _ _ Hwf Hc) as [Hf Hn].
    split; [done|]. split; [done|].
    apply check_file_hit in Hc as (q & -> & [k Hk] & Hfq & _).
    apply is_file_spec in Hfq as [_ [n Hq]].
    destruct (Hwf q _ Hq) as [Hval _].
    subst q. rewrite drop_app_length.
    rewrite parse_path_joins by by apply Forall_app in Hval as [_ ?].
    by exists k.
  - intros q Hpre Hne Hf Hname.
    unfold check_file_exists_in_tree in Hc.
    destruct (walk_hits fs (parse_path root_folder) filename) as [|h l] eqn:Hw; [|done].
    unfold walk_hits in Hw. apply sort_by_nil in Hw.
    apply is_file_spec in Hf as Hf'. destruct Hf' as [_ [n Hq]].
    assert (q ∈ List.filter
              (λ q, bool_decide (parse_path root_folder `prefix_of` q)
                    && negb (bool_decide (q = parse_path root_folder))
                    && is_file fs q && eqs (name q) filename)
              (map fst (map_to_list fs))) as Hin.
    { apply list_elem_of_In, filter_In. split.
      - apply list_elem_of_In, list_elem_of_fmap. exists (q, File n).
        split; [done|]. by apply elem_of_map_to_list.
      - rewrite bool_decide_eq_true_2 by done.
        rewrite bool_decide_eq_false_2 by done.
        rewrite Hf, Hname. cbn [andb negb]. apply eqs_refl. }
    rewrite Hw in Hin. by apply elem_of_nil in Hin.
Qed.

Lemma lookup_finds_a_file_when_there_is_one_witness :
  is_file import_disk (parse_path "/lib/film/film.mkv") = true ∧
  name (parse_path "/lib/film/film.mkv") = String.list_ascii_of_string "film.mkv" ∧
  parse_path "/lib" `prefix_of` parse_path "/lib/film/film.mkv".
Proof.
  assert (well_formed import_disk) as Hwf
    by (apply well_formed_b_spec; vm_compute; reflexivity).
  pose proof (lookup_finds_a_file_when_there_is_one import_disk "/lib" "film.mkv" Hwf)
    as H.
  assert (check_file_exists_in_tree import_disk "/lib" "film.mkv"
          = Some (String.list_ascii_of_string "/lib/film/film.mkv")) as E
    by (vm_compute; reflexivity).
  rewrite E in H. exact H.
Defined.

Lemma forall_lstrip (P : ascii → Prop) s : Forall P s → Forall P (lstrip s).
Proof.
  induction s as [|c s IH]; [done|]. intros [Hc Hs]%Forall_cons. simpl.
  destruct (is_space c); [by apply IH|by constructor].
Qed.

Lemma forall_strip (P : ascii → Prop) s : Forall P s → Forall P (strip s).
Proof.
  intros H. unfold strip. apply Forall_rev, forall_lstrip, Forall_rev.
  by apply forall_lstrip.
Qed.

Lemma deng_lit (s : list ascii) (st st' : mstate) :
  deng (lit s) st st' →
  after st = s ++ after st' ∧ before st' = rev s ++ before st ∧
  groups st' = groups st.
Proof.
  revert st. induction s as [|c s IH]; intros st.
  - simpl. by intros ->.
  - destruct s as [|c' s'].
    + simpl. intros (x & a' & Ha & Hx%eqc_eq & ->). subst x. by rewrite Ha.
    + change (lit (c :: c' :: s')) with (Seq (Chr (ch c)) (lit (c' :: s'))).
      intros (st1 & (x & a' & Ha & Hx%eqc_eq & ->) & H2). subst x.
      apply IH in H2 as (H1 & H2 & H3). cbn [after before groups] in *.
      rewrite Ha, H1, H2, H3. split; [done|]. split; [|done].
      cbn [rev]. by rewrite <- !app_assoc.
Qed.

(** X23. When the file name holds a year of the twentieth or twenty-first
    century after a separator, [extract_movie_info] names the folder
    [title (year)]: the year has four digits and starts with 19 or 20, the
    title holds no dot, and unless the title is empty the folder name is in
    the format that [is_radarr_format] accepts. *)
Theorem movie_folder_is_title_and_year (filename : list ascii) :
  search re_movie_year filename ≠ None →
  ∃ title year,
    extract_movie_info filename = title ++ " (" ++ year ++ ")" ∧
    is_year year ∧
    (starts_with "19" year = true ∨ starts_with "20" year = true) ∧
    has_char "." title = false ∧
    (title ≠ [] → MovieAnalyzer.is_radarr_format (extract_movie_info filename) = true).
Proof.
  unfold extract_movie_info.
  destruct (search re_movie_year filename) as [st|] eqn:Hs; [|done]. intros _.
  apply search_sound_groups in Hs as (w & a0 & _ & Hd).
  simpl in Hd.
  destruct Hd as (s1 & (s1' & (w1 & a1 & Ha1 & Hw1 & _ & ->) & ->) &
                  s2 & (w2 & a2 & Ha2 & _ & _ & ->) &
                  s3 & (s3' & Hcent & (w3 & a3 & Ha3 & Hw3 & [Hlo Hhi] & ->)) & ->).
  cbn [groups before after] in *.
  assert (∃ cc, (cc = String.list_ascii_of_string "19" ∨
                 cc = String.list_ascii_of_string "20") ∧
                after s3' = w3 ++ a3 ∧
                before s3' = rev cc ++ (rev w2 ++ rev w1 ++ rev w) ∧
                groups s3' = [(1%nat, consumed (MState (rev w) a0 [])
                                        (MState (rev w1 ++ rev w) a1 []))])
    as (cc & Hcc & _ & Hb3 & Hg3).
  { destruct Hcent as [H|H];
      destruct H as (st1 & (c & a' & _ & Hc%eqc_eq & ->) &
                     (c2 & a2' & _ & Hc2%eqc_eq & ->));
      subst c c2; cbn [after before groups] in *;
      [exists (String.list_ascii_of_string "19")|exists (String.list_ascii_of_string "20")];
      (split; [auto|]); (split; [done|]); split; done. }
  rewrite Hg3. cbn [group Nat.eqb].
  rewrite (consumed_app (rev w) a0 [] w1).
  set (year := consumed _ _).
  assert (year = cc ++ w3) as Hyear.
  { unfold year. rewrite Hb3.
    replace (rev w3 ++ rev cc ++ rev w2 ++ rev w1 ++ rev w)
      with (rev (cc ++ w3) ++ (rev w2 ++ rev w1 ++ rev w))
      by (rewrite rev_app_distr; by rewrite <- app_assoc).
    apply (consumed_app _ a2 _ (cc ++ w3)). }
  exists (strip (replace_char "." " " w1)), year.
  split; [done|].
  assert (is_year year) as Hy.
  { rewrite Hyear. split.
    - rewrite length_app. destruct Hcc as [-> | ->]; simpl; lia.
    - rewrite forallb_app, Hw3. by destruct Hcc as [-> | ->]. }
  split; [done|]. split.
  { rewrite Hyear. destruct Hcc as [-> | ->]; [by left|by right]. }
  split; [apply has_char_strip, has_char_replace_dot|].
  intros Hne.
  apply (radarr_format_complete _ year [] " "%char); [done| |done|done|by left].
  apply forallb_forall. intros c Hc%list_elem_of_In.
  assert (Forall (λ c, any c = true) (strip (replace_char "." " " w1))) as Hall.
  { apply forall_strip. apply Forall_fmap, Forall_forall.
    intros x Hx%list_elem_of_In. simpl.
    destruct (eqc x "."); [done|].
    rewrite forallb_forall in Hw1. by apply Hw1. }
  by eapply Forall_forall in Hall.
Qed.

Lemma movie_folder_is_title_and_year_witness :
  ∃ title year,
    extract_movie_info "The.Matrix.1999.1080p.BluRay.mkv" = title ++ " (" ++ year ++ ")" ∧
    is_year year ∧
    (starts_with "19" year = true ∨ starts_with "20" year = true) ∧
    has_char "." title = false ∧
    (title ≠ [] →
     MovieAnalyzer.is_radarr_format
       (extract_movie_info "The.Matrix.1999.1080p.BluRay.mkv") = true).
Proof.
  apply (movie_folder_is_title_and_year "The.Matrix.1999.1080p.BluRay.mkv").
  vm_compute. discriminate.
Defined.

End ImportLookup.

(* ===================================================================== *)
(** * movie_cleanup_2.py : [ActionGenerator.parse_diff_file] *)
(* ===================================================================== *)

Section DiffFile.
Import MovieCleanup2.

Lemma den_lit (s b a : list ascii) : den (lit s) b (s ++ a) (rev s ++ b) a.
Proof.
  revert b. induction s as [|c s IH]; intros b; [done|].
  destruct s as [|c' s'].
  - simpl. exists c. split; [done|]. split; [done|]. apply eqc_refl.
  - change (lit (c :: c' :: s')) with (Seq (Chr (ch c)) (lit (c' :: s'))).
    cbn [den]. exists (c :: b), ((c' :: s') ++ a). split.
    + exists c. split; [done|]. split; [done|]. apply eqc_refl.
    + specialize (IH (c :: b)). cbn [rev] in *.
      by rewrite <- !app_assoc in *.
Qed.

Lemma diff_search_sound (s : list ascii) (st : mstate) :
  search re_diff_path s = Some st →
  ∃ pre mid post,
    s = pre ++ (movies_prefix ++ mid ++ ".mkv") ++ post ∧
    forallb any mid = true ∧
    group 1 (groups st) = Some (movies_prefix ++ mid ++ ".mkv").
Proof.
  intros Hs. apply search_sound_groups in Hs as (w & a0 & -> & Hd).
  unfold re_diff_path, star in Hd. cbn [deng seqs] in Hd.
  destruct Hd as (st1 & (s1 & H1 & s2 & (mid & a' & Ha & Hmid & _ & ->) & H3) & ->).
  apply deng_lit in H1 as (A1 & B1 & G1). apply deng_lit in H3 as (A3 & B3 & G3).
  cbn [after before groups] in *.
  destruct st1 as [b1 a1 g1]. cbn [after before groups group Nat.eqb] in *.
  exists w, mid, a1. split.
  { rewrite A1, Ha, A3. by rewrite <- !app_assoc. }
  split; [done|]. f_equal.
  rewrite B3, B1.
  replace (rev ".mkv" ++ rev mid ++ rev movies_prefix ++ rev w)
    with (rev (movies_prefix ++ mid ++ ".mkv") ++ rev w)
    by (rewrite !rev_app_distr; by rewrite <- !app_assoc).
  apply consumed_app.
Qed.

Lemma diff_search_complete (pre mid post : list ascii) :
  forallb any mid = true →
  search re_diff_path (pre ++ (movies_prefix ++ mid ++ ".mkv") ++ post) ≠ None.
Proof.
  intros Hmid. apply search_occurs.
  exists pre, ((movies_prefix ++ mid ++ ".mkv") ++ post),
    (rev ".mkv" ++ rev mid ++ rev movies_prefix ++ rev pre), post.
  split; [done|]. unfold re_diff_path, star. cbn [den seqs].
  exists (rev movies_prefix ++ rev pre), (mid ++ ".mkv" ++ post). split.
  { rewrite <- !app_assoc. apply den_lit. }
  exists (rev mid ++ rev movies_prefix ++ rev pre), (".mkv" ++ post). split.
  { exists mid. split; [done|]. split; [done|]. split; [done|]. split; [lia|done]. }
  apply (den_lit ".mkv").
Qed.

(** X24. [parse_diff_file] takes one path from a line exactly when the
    stripped line holds the network prefix of the movie share followed,
    somewhere later, by [.mkv]; the path starts with that prefix, ends in
    [.mkv] and is a part of the stripped line.  Every other line is passed
    over, so the result holds at most one path per line. *)
Theorem diff_paths_are_movie_files (lines : list (list ascii)) :
  Forall (λ line,
            match diff_line line with
            | [] =>
                ∀ pre mid post,
                  forallb any mid = true →
                  strip line ≠ pre ++ (movies_prefix ++ mid ++ ".mkv") ++ post
            | [p] =>
                ∃ pre mid post,
                  strip line = pre ++ p ++ post ∧
                  p = movies_prefix ++ mid ++ ".mkv" ∧ forallb any mid = true
            | _ => False
            end) lines ∧
  Forall (λ p, ∃ mid, p = movies_prefix ++ mid ++ ".mkv" ∧ forallb any mid = true)
         (parse_diff_file lines) ∧
  (length (parse_diff_file lines) ≤ length lines)%nat.
Proof.
  assert (∀ line,
            match diff_line line with
            | [] =>
                ∀ pre mid post,
                  forallb any mid = true →
                  strip line ≠ pre ++ (movies_prefix ++ mid ++ ".mkv") ++ post
            | [p] =>
                ∃ pre mid post,
                  strip line = pre ++ p ++ post ∧
                  p = movies_prefix ++ mid ++ ".mkv" ∧ forallb any mid = true
            | _ => False
            end) as Hline.
  { intros line. unfold diff_line.
    assert (∀ pre mid post,
              strip line = pre ++ (movies_prefix ++ mid ++ ".mkv") ++ post →
              strip line ≠ [] ∧ contains movies_prefix (strip line) = true) as Hdec.
    { intros pre mid post E. split.
      - rewrite E. destruct pre; done.
      - apply contains_spec. exists pre, ((mid ++ ".mkv") ++ post).
        rewrite E. by rewrite <- !app_assoc. }
    destruct (strip line) as [|c0 l0] eqn:El.
    { intros pre mid post _ E. by destruct (Hdec pre mid post E). }
    rewrite <- El in *.
    destruct (contains movies_prefix (strip line)) eqn:Hc.
    2:{ intros pre mid post _ E. destruct (Hdec pre mid post E). congruence. }
    destruct (search re_diff_path (strip line)) as [st|] eqn:Hs.
    - apply diff_search_sound in Hs as (pre & mid & post & E & Hmid & ->).
      exists pre, mid, post. done.
    - intros pre mid post Hmid E.
      apply (diff_search_complete pre mid post) in Hmid. by rewrite <- E, Hs in Hmid. }
  split; [apply Forall_forall; intros line _; apply Hline|].
  unfold parse_diff_file. induction lines as [|line lines IH].
  { split; [constructor|simpl; lia]. }
  destruct IH as [IH1 IH2].
  cbn [map concat length]. specialize (Hline line).
  destruct (diff_line line) as [|p [|p' l]]; [| |done].
  - split; [done|]. simpl. lia.
  - destruct Hline as (pre & mid & post & _ & -> & Hmid).
    split; [|simpl; lia]. constructor; [eauto|done].
Qed.

End DiffFile.
